(** * MixFlow engine: Camelot wheel and track ordering

  A shallow embedding of [src/lib/engine/camelot.ts] and
  [src/lib/engine/ordering.ts], followed by the properties of the
  specification stated over it.

  Conventions of the embedding.
  - A JavaScript string is a [string]: a sequence of code units below 256.
  - A [number] is a binary64 floating-point number ([Number.number]):
    subtraction, multiplication and addition round to nearest, ties to
    even, and comparisons are those of IEEE 754.  The tempo a track holds
    is a finite number ([Number.Double]); NaN is no tempo.
  - [null] and [undefined] are [None].
  - A [Track] value stands for one object, so a list that repeats a value
    holds the same object more than once: a [Set<Track>] is an
    insertion-ordered list that holds no value twice.
  - A [while] loop is a [Fixpoint] on a fuel argument; for every such loop
    a lemma shows that the fuel given by its caller is never exhausted. *)

From Stdlib Require Import String Ascii ZArith QArith Qabs Bool Arith.
From Stdlib Require Import Lia Lqa List.
From Stdlib Require Import Permutation Sorted Relations.
From Stdlib Require Import SpecFloat Eqdep_dec.
Import ListNotations.

Local Open Scope string_scope.

(* ================================================================== *)
(** ** JavaScript string primitives used by the engine *)
(* ================================================================== *)

Module JsString.

Definition code (c : ascii) : N := N_of_ascii c.

(** WhiteSpace and LineTerminator code units below 256 (ECMAScript
    [String.prototype.trim]): TAB, LF, VT, FF, CR, SP, NBSP. *)
Definition is_space (c : ascii) : bool :=
  let n := code c in
  ((9 <=? n) && (n <=? 13) || (n =? 32) || (n =? 160))%N.

Fixpoint trimStart (s : string) : string :=
  match s with
  | EmptyString => EmptyString
  | String c r => if is_space c then trimStart r else s
  end.

(** [trimEnd] drops the trailing run of white space. *)
Fixpoint trimEnd (s : string) : string :=
  match s with
  | EmptyString => EmptyString
  | String c r =>
      match trimEnd r with
      | EmptyString => if is_space c then EmptyString else String c EmptyString
      | r' => String c r'
      end
  end.

Definition trim (s : string) : string := trimEnd (trimStart s).

(** [toLowerCase] on one code unit: A-Z and the Latin-1 capitals. *)
Definition lower_char (c : ascii) : ascii :=
  let n := code c in
  if ((65 <=? n) && (n <=? 90)
      || (192 <=? n) && (n <=? 222) && negb (n =? 215))%N
  then ascii_of_N (n + 32) else c.

Fixpoint toLowerCase (s : string) : string :=
  match s with
  | EmptyString => EmptyString
  | String c r => String (lower_char c) (toLowerCase r)
  end.

(** [s.slice(-1)]: the last code unit, as a string. *)
Fixpoint slice_last (s : string) : string :=
  match s with
  | EmptyString => EmptyString
  | String c EmptyString => s
  | String _ r => slice_last r
  end.

(** [s.slice(0, -1)]: everything but the last code unit. *)
Fixpoint slice_init (s : string) : string :=
  match s with
  | EmptyString => EmptyString
  | String _ EmptyString => EmptyString
  | String c r => String c (slice_init r)
  end.

Definition digit_of (c : ascii) : option Z :=
  let n := code c in
  if ((48 <=? n) && (n <=? 57))%N then Some (Z.of_N n - 48)%Z else None.

Fixpoint parse_digits (s : string) (acc : option Z) : option Z :=
  match s with
  | EmptyString => acc
  | String c r =>
      match digit_of c with
      | Some d =>
          parse_digits r
            (Some (10 * match acc with Some a => a | None => 0 end + d)%Z)
      | None => acc
      end
  end.

(** [parseInt(s, 10)] on an unsigned numeral without leading white space:
    the longest prefix of decimal digits, [None] (NaN) when it is empty. *)
Definition parseInt10 (s : string) : option Z := parse_digits s None.

End JsString.

(* ================================================================== *)
(** ** The JavaScript [number]: IEEE 754 binary64

  The numbers and their operations are those of [SpecFloat], the
  Standard Library's specification of binary floating point, at the
  precision and the exponent range of binary64. *)
(* ================================================================== *)

Module Number.

(** The format: 53 bits of mantissa, exponents below 1024. *)
Definition prec : Z := 53.
Definition emax : Z := 1024.

(** A number is [+0] or [-0], an infinity, NaN, or
    [(-1) ^ s * m * 2 ^ e]. *)
Definition number : Set := spec_float.

Definition zero : number := S754_zero false.
Definition infinity : number := S754_infinity false.

(** [x + y], [x - y], [x * y], [x / y], [Math.abs(x)], [x < y] and
    [x <= y]. *)
Definition add : number -> number -> number := SFadd prec emax.
Definition sub : number -> number -> number := SFsub prec emax.
Definition mul : number -> number -> number := SFmul prec emax.
Definition div : number -> number -> number := SFdiv prec emax.
Definition abs : number -> number := SFabs.
Definition lt : number -> number -> bool := SFltb.
Definition le : number -> number -> bool := SFleb.

(** The number an integer literal denotes. *)
Definition of_Z (z : Z) : number := binary_normalize prec emax z 0 false.

(** The number a decimal literal denotes: [decimal 1331 10] is [133.1]. *)
Definition decimal (n d : Z) : number := div (of_Z n) (of_Z d).

(** A finite number in its canonical representation. *)
Definition is_double (x : number) : bool :=
  valid_binary prec emax x
  && match x with
     | S754_zero _ | S754_finite _ _ _ => true
     | _ => false
     end.

Record Double : Set := mkDouble {
  repr : number;
  repr_double : is_double repr = true
}.

(** A finite number as a value of [Double]; [None] for the others. *)
Definition double (x : number) : option Double :=
  match bool_dec (is_double x) true with
  | left H => Some (mkDouble x H)
  | right _ => None
  end.

(** The same number, sign of zero included. *)
Definition eqb (x y : number) : bool :=
  match x, y with
  | S754_zero s, S754_zero s' => Bool.eqb s s'
  | S754_infinity s, S754_infinity s' => Bool.eqb s s'
  | S754_nan, S754_nan => true
  | S754_finite s m e, S754_finite s' m' e' =>
      Bool.eqb s s' && Pos.eqb m m' && Z.eqb e e'
  | _, _ => false
  end.

(** The rational number a finite number stands for. *)
Definition value (x : number) : Q :=
  match x with
  | S754_finite s m e =>
      (inject_Z (if s then Zneg m else Zpos m) * 2 ^ e)%Q
  | _ => 0%Q
  end.

Definition is_nan (x : number) : bool :=
  match x with S754_nan => true | _ => false end.

(** Not NaN, and not negative: [+0], a positive number or [+Infinity]. *)
Definition nonneg (x : number) : bool :=
  match x with
  | S754_zero false | S754_infinity false | S754_finite false _ _ => true
  | _ => false
  end.

(** [+0] or a positive number below [2 ^ k] whose mantissa has at most
    53 digits. *)
Definition below (k : Z) (x : number) : Prop :=
  match x with
  | S754_zero false => True
  | S754_finite false m e =>
      (Zpos (digits2_pos m) <= 53 /\ Zpos (digits2_pos m) + e <= k)%Z
  | _ => False
  end.

(** What rounding to nearest returns for the sign [sx], the mantissa
    [m2] and the exponent [e2] it arrives at. *)
Definition rounded (sx : bool) (m2 e2 : Z) : number :=
  match m2 with
  | Z0 => S754_zero sx
  | Zpos p => if (e2 <=? 971)%Z then S754_finite sx p e2
              else S754_infinity sx
  | Zneg _ => S754_nan
  end.

(** A mantissa of at most 53 digits. *)
Definition narrow (x : number) : Prop :=
  match x with
  | S754_finite _ m _ => (Zpos (digits2_pos m) <= 53)%Z
  | _ => True
  end.

(** The place of a number that is not NaN in the order of the numbers:
    by sign, then exponent, then mantissa.  [+0] and [-0] share a place. *)
Definition rank (x : number) : Z * Z * Z :=
  match x with
  | S754_infinity true => (-2, 0, 0)
  | S754_finite true m e => (-1, - e, Zneg m)
  | S754_zero _ => (0, 0, 0)
  | S754_finite false m e => (1, e, Zpos m)
  | S754_infinity false => (2, 0, 0)
  | S754_nan => (3, 0, 0)
  end%Z.

Definition lex_compare (a b : Z * Z * Z) : comparison :=
  let '(a1, a2, a3) := a in
  let '(b1, b2, b3) := b in
  match (a1 ?= b1)%Z with
  | Eq => match (a2 ?= b2)%Z with
          | Eq => (a3 ?= b3)%Z
          | c => c
          end
  | c => c
  end.

End Number.

(* ================================================================== *)
(** ** types.ts *)
(* ================================================================== *)

Module Types.

Definition MusicalKey := string.

(** The union of the 24 string literals ['1A' | '1B' | ... | '12B']. *)
Inductive CamelotKey : Set :=
| K1A | K1B | K2A | K2B | K3A | K3B | K4A | K4B
| K5A | K5B | K6A | K6B | K7A | K7B | K8A | K8B
| K9A | K9B | K10A | K10B | K11A | K11B | K12A | K12B.

(** The string a [CamelotKey] value is. *)
Definition camelot_string (k : CamelotKey) : string :=
  match k with
  | K1A => "1A" | K1B => "1B" | K2A => "2A" | K2B => "2B"
  | K3A => "3A" | K3B => "3B" | K4A => "4A" | K4B => "4B"
  | K5A => "5A" | K5B => "5B" | K6A => "6A" | K6B => "6B"
  | K7A => "7A" | K7B => "7B" | K8A => "8A" | K8B => "8B"
  | K9A => "9A" | K9B => "9B" | K10A => "10A" | K10B => "10B"
  | K11A => "11A" | K11B => "11B" | K12A => "12A" | K12B => "12B"
  end.

Inductive KeyCompatibilityType : Set :=
| same | adjacent | relative | incompatible.

Inductive TransitionQuality : Set :=
| excellent | good | fair | poor.

(** [Track]: the fields the engine reads.  [filename], [file], [key],
    [duration], [status], [errorMessage], [mixStatus] and [mixOrder] are
    never read by camelot.ts or ordering.ts.  Two tracks that agree on
    the three fields below are one object. *)
Record Track : Set := mkTrack {
  id : string;
  bpm : option Number.Double;
  camelotKey : option CamelotKey
}.

Record Transition : Set := mkTransition {
  fromTrack : Track;
  toTrack : Track;
  bpmDifference : Number.number;
  keyCompatibility : KeyCompatibilityType;
  quality : TransitionQuality
}.

Record OrderingResult : Set := mkOrderingResult {
  orderedTracks : list Track;
  orphanTracks : list Track;
  transitions : list Transition;
  isComplete : bool
}.

End Types.
Export Types.

(* ================================================================== *)
(** ** camelot.ts *)
(* ================================================================== *)

Module Camelot.
Import JsString.

(** The object literal, in source order (the order of [Object.entries]). *)
Definition CAMELOT_MAP : list (string * CamelotKey) :=
  [ ("G# minor", K1A); ("Ab minor", K1A); ("G#m", K1A); ("Abm", K1A);
    ("B major", K1B); ("B", K1B);
    ("D# minor", K2A); ("Eb minor", K2A); ("D#m", K2A); ("Ebm", K2A);
    ("F# major", K2B); ("Gb major", K2B); ("F#", K2B); ("Gb", K2B);
    ("A# minor", K3A); ("Bb minor", K3A); ("A#m", K3A); ("Bbm", K3A);
    ("C# major", K3B); ("Db major", K3B); ("C#", K3B); ("Db", K3B);
    ("F minor", K4A); ("Fm", K4A);
    ("G# major", K4B); ("Ab major", K4B); ("G#", K4B); ("Ab", K4B);
    ("C minor", K5A); ("Cm", K5A);
    ("D# major", K5B); ("Eb major", K5B); ("D#", K5B); ("Eb", K5B);
    ("G minor", K6A); ("Gm", K6A);
    ("A# major", K6B); ("Bb major", K6B); ("A#", K6B); ("Bb", K6B);
    ("D minor", K7A); ("Dm", K7A);
    ("F major", K7B); ("F", K7B);
    ("A minor", K8A); ("Am", K8A);
    ("C major", K8B); ("C", K8B);
    ("E minor", K9A); ("Em", K9A);
    ("G major", K9B); ("G", K9B);
    ("B minor", K10A); ("Bm", K10A);
    ("D major", K10B); ("D", K10B);
    ("F# minor", K11A); ("Gb minor", K11A); ("F#m", K11A); ("Gbm", K11A);
    ("A major", K11B); ("A", K11B);
    ("C# minor", K12A); ("Db minor", K12A); ("C#m", K12A); ("Dbm", K12A);
    ("E major", K12B); ("E", K12B) ].

Definition VALID_CAMELOT_KEYS : list CamelotKey :=
  [ K1A; K1B; K2A; K2B; K3A; K3B; K4A; K4B; K5A; K5B; K6A; K6B;
    K7A; K7B; K8A; K8B; K9A; K9B; K10A; K10B; K11A; K11B; K12A; K12B ].

(** [CAMELOT_MAP] is an ordinary object: a property that is not its own is
    looked up on [Object.prototype].  These are the property names of
    [%Object.prototype%] (ECMAScript 20.1.3 and B.2.2); each holds a
    function or an object, hence a truthy value. *)
Definition Object_prototype_keys : list string :=
  [ "constructor"; "hasOwnProperty"; "isPrototypeOf";
    "propertyIsEnumerable"; "toLocaleString"; "toString"; "valueOf";
    "__proto__"; "__defineGetter__"; "__defineSetter__";
    "__lookupGetter__"; "__lookupSetter__" ].

(** What [CAMELOT_MAP[key]] evaluates to when it is not [undefined]. *)
Inductive PropertyValue : Set :=
| OwnKey (k : CamelotKey)
| Inherited (name : string).

Fixpoint own_property (key : string) (m : list (string * CamelotKey))
  : option CamelotKey :=
  match m with
  | [] => None
  | (k, v) :: r => if String.eqb k key then Some v else own_property key r
  end.

(** [CAMELOT_MAP[key]]; [None] is [undefined]. *)
Definition get_property (key : string) : option PropertyValue :=
  match own_property key CAMELOT_MAP with
  | Some v => Some (OwnKey v)
  | None =>
      if existsb (String.eqb key) Object_prototype_keys
      then Some (Inherited key) else None
  end.

(** The [for ... of Object.entries(CAMELOT_MAP)] loop. *)
Fixpoint scan_lower (lower : string) (entries : list (string * CamelotKey))
  : option PropertyValue :=
  match entries with
  | [] => None
  | (mapKey, camelot) :: r =>
      if String.eqb (toLowerCase mapKey) lower then Some (OwnKey camelot)
      else scan_lower lower r
  end.

(** Every [PropertyValue] is truthy (a non-empty string, a function or an
    object), so [if (direct) return direct] returns whenever the lookup is
    not [undefined]. *)
Definition musicalKeyToCamelot (key : MusicalKey) : option PropertyValue :=
  match get_property key with
  | Some direct => Some direct
  | None =>
      let normalized := trim key in
      match get_property normalized with
      | Some lookup => Some lookup
      | None =>
          let lower := toLowerCase normalized in
          scan_lower lower CAMELOT_MAP
      end
  end.

Record ParsedKey : Set := mkParsed { number : Z; letter : string }.

(** [parseInt] never yields NaN on a [CamelotKey]
    (lemma [parseCamelotKey_numeral]); the [None] branch is unreachable. *)
Definition parseCamelotKey (key : CamelotKey) : ParsedKey :=
  let s := camelot_string key in
  {| letter := slice_last s;
     number := match parseInt10 (slice_init s) with
               | Some n => n
               | None => 0%Z
               end |}.

Definition circularDistance (a b : Z) : Z :=
  let diff := Z.abs (a - b) in
  Z.min diff (12 - diff).

Definition getCamelotDistance (keyA keyB : CamelotKey) : Z :=
  let a := parseCamelotKey keyA in
  let b := parseCamelotKey keyB in
  let numberDistance := circularDistance (number a) (number b) in
  let letterDifferent := negb (String.eqb (letter a) (letter b)) in
  if (numberDistance =? 0)%Z && letterDifferent then 1%Z
  else if letterDifferent then (numberDistance + 1)%Z
  else numberDistance.

Definition getKeyCompatibilityType (keyA keyB : CamelotKey)
  : KeyCompatibilityType :=
  let a := parseCamelotKey keyA in
  let b := parseCamelotKey keyB in
  if (number a =? number b)%Z && String.eqb (letter a) (letter b) then same
  else if (number a =? number b)%Z && negb (String.eqb (letter a) (letter b))
  then relative
  else
    let numberDistance := circularDistance (number a) (number b) in
    if (numberDistance =? 1)%Z && String.eqb (letter a) (letter b)
    then adjacent
    else incompatible.

Definition isCamelotCompatible (keyA keyB : CamelotKey) : bool :=
  match getKeyCompatibilityType keyA keyB with
  | incompatible => false
  | _ => true
  end.

End Camelot.

(* ================================================================== *)
(** ** ordering.ts *)
(* ================================================================== *)

Module Ordering.
Import Camelot.

Local Open Scope list_scope.

Definition MAX_BPM_DIFFERENCE : Number.number := Number.of_Z 20.

Definition not_null {A : Type} (x : option A) : bool :=
  match x with Some _ => true | None => false end.

(** The value of [x!] in arithmetic: [null] converts to [+0]. *)
Definition to_number (x : option Number.Double) : Number.number :=
  match x with Some d => Number.repr d | None => Number.zero end.

Definition isTrackAnalyzed (track : Track) : bool :=
  not_null (bpm track) && not_null (camelotKey track).

(** [Math.abs(a.bpm! - b.bpm!)] *)
Definition bpm_abs_diff (a b : Track) : Number.number :=
  Number.abs (Number.sub (to_number (bpm a)) (to_number (bpm b))).

Definition isTransitionCompatible (trackA trackB : Track) : bool :=
  if negb (isTrackAnalyzed trackA) || negb (isTrackAnalyzed trackB)
  then false
  else
    let bpmDiff := bpm_abs_diff trackA trackB in
    if Number.lt MAX_BPM_DIFFERENCE bpmDiff then false
    else
      match camelotKey trackA, camelotKey trackB with
      | Some ka, Some kb => isCamelotCompatible ka kb
      | _, _ => false
      end.

Definition calculateTransitionQuality (trackA trackB : Track)
  : TransitionQuality :=
  if negb (isTrackAnalyzed trackA) || negb (isTrackAnalyzed trackB)
  then poor
  else
    let bpmDiff := bpm_abs_diff trackA trackB in
    let keyCompatibility :=
      match camelotKey trackA, camelotKey trackB with
      | Some ka, Some kb => getKeyCompatibilityType ka kb
      | _, _ => incompatible
      end in
    match keyCompatibility with
    | incompatible => poor
    | _ =>
        if Number.lt MAX_BPM_DIFFERENCE bpmDiff then poor
        else if Number.lt bpmDiff (Number.of_Z 5) then excellent
        else if Number.lt bpmDiff (Number.of_Z 10) then good
        else fair
    end.

Definition createTransition (fromTrack toTrack : Track) : Transition :=
  let bpmDifference :=
    if isTrackAnalyzed fromTrack && isTrackAnalyzed toTrack
    then bpm_abs_diff fromTrack toTrack
    else Number.infinity in
  let keyCompatibility :=
    if isTrackAnalyzed fromTrack && isTrackAnalyzed toTrack
    then match camelotKey fromTrack, camelotKey toTrack with
         | Some ka, Some kb => getKeyCompatibilityType ka kb
         | _, _ => incompatible
         end
    else incompatible in
  {| fromTrack := fromTrack;
     toTrack := toTrack;
     bpmDifference := bpmDifference;
     keyCompatibility := keyCompatibility;
     quality := calculateTransitionQuality fromTrack toTrack |}.

(** *** Sets of tracks and of ids, in insertion order *)

(** [a.id === b.id] *)
Definition same_track (a b : Track) : bool := String.eqb (id a) (id b).

Definition same_bpm (x y : option Number.Double) : bool :=
  match x, y with
  | Some a, Some b => Number.eqb (Number.repr a) (Number.repr b)
  | None, None => true
  | _, _ => false
  end.

Definition same_key (x y : option CamelotKey) : bool :=
  match x, y with
  | Some a, Some b => String.eqb (camelot_string a) (camelot_string b)
  | None, None => true
  | _, _ => false
  end.

(** The same object: a [Set<Track>] holds an object once. *)
Definition same_object (a b : Track) : bool :=
  same_track a b && same_bpm (bpm a) (bpm b)
  && same_key (camelotKey a) (camelotKey b).

Definition set_has (ids : list string) (x : string) : bool :=
  existsb (String.eqb x) ids.

Definition track_set_add (s : list Track) (t : Track) : list Track :=
  if existsb (same_object t) s then s else s ++ [t].

(** [new Set(tracks)] *)
Definition new_Set (tracks : list Track) : list Track :=
  fold_left track_set_add tracks [].

(** [remaining.delete(t)] *)
Definition set_delete (t : Track) (s : list Track) : list Track :=
  filter (fun u => negb (same_object u t)) s.

(** *** greedyPath *)

(** The loop [for (let i = 1; i < candidates.length; i++)]. *)
Definition pick_step (current : Track) (acc : Track * Number.number)
           (c : Track) : Track * Number.number :=
  let '(best, bestDiff) := acc in
  let diff := bpm_abs_diff current c in
  if Number.lt diff bestDiff then (c, diff) else (best, bestDiff).

Definition pick_best (current first : Track) (rest : list Track) : Track :=
  fst (fold_left (pick_step current) rest
         (first, bpm_abs_diff current first)).

(** The [while (remaining.size > 0)] loop. *)
Fixpoint greedy_loop (fuel : nat) (current : Track)
         (remaining path : list Track) : list Track :=
  match fuel with
  | O => path
  | S fuel' =>
      match remaining with
      | [] => path
      | _ :: _ =>
          let candidates := filter (isTransitionCompatible current) remaining in
          match candidates with
          | [] => path
          | first :: rest =>
              let best := pick_best current first rest in
              greedy_loop fuel' best (set_delete best remaining)
                          (path ++ [best])
          end
      end
  end.

Definition greedyPath (startTrack : Track) (allTracks : list Track)
  : list Track :=
  let remaining :=
    new_Set (filter (fun t => negb (same_track t startTrack)) allTracks) in
  greedy_loop (length remaining) startTrack remaining [startTrack].

(** *** calculatePathScore *)

Fixpoint score_loop (path : list Track) (score : Number.number)
  : Number.number :=
  match path with
  | a :: (b :: _) as rest =>
      let diff := bpm_abs_diff a b in
      score_loop rest (Number.add score (Number.mul diff diff))
  | _ => score
  end.

Definition calculatePathScore (path : list Track) : Number.number :=
  if (length path <? 2)%nat then Number.zero
  else score_loop path Number.zero.

(** *** findOptimalOrder *)

Record Search : Set := mkSearch {
  bestCompletePath : option (list Track);
  bestCompleteScore : Number.number;
  bestPartialPath : list Track
}.

(** One iteration of [for (const startTrack of analyzedTracks)]. *)
Definition search_step (analyzedTracks : list Track) (st : Search)
           (startTrack : Track) : Search :=
  let path := greedyPath startTrack analyzedTracks in
  if (length path =? length analyzedTracks)%nat then
    let score := calculatePathScore path in
    if Number.lt score (bestCompleteScore st)
    then {| bestCompletePath := Some path;
            bestCompleteScore := score;
            bestPartialPath := bestPartialPath st |}
    else st
  else if (length (bestPartialPath st) <? length path)%nat then
    {| bestCompletePath := bestCompletePath st;
       bestCompleteScore := bestCompleteScore st;
       bestPartialPath := path |}
  else if (length path =? length (bestPartialPath st))%nat
          && (0 <? length path)%nat then
    let newScore := calculatePathScore path in
    let oldScore := calculatePathScore (bestPartialPath st) in
    if Number.lt newScore oldScore
    then {| bestCompletePath := bestCompletePath st;
            bestCompleteScore := bestCompleteScore st;
            bestPartialPath := path |}
    else st
  else st.

Definition search (analyzedTracks : list Track) : Search :=
  fold_left (search_step analyzedTracks) analyzedTracks
    {| bestCompletePath := None;
       bestCompleteScore := Number.infinity;
       bestPartialPath := [] |}.

(** The loop pushing [createTransition(orderedTracks[i], orderedTracks[i+1])]
    for [i] from [0] to [length - 2]. *)
Fixpoint build_transitions (orderedTracks : list Track) : list Transition :=
  match orderedTracks with
  | a :: (b :: _) as rest => createTransition a b :: build_transitions rest
  | _ => []
  end.

Definition findOptimalOrder (tracks : list Track) : OrderingResult :=
  let analyzedTracks := filter isTrackAnalyzed tracks in
  let unanalyzedTracks := filter (fun t => negb (isTrackAnalyzed t)) tracks in
  match length analyzedTracks with
  | O =>
      {| orderedTracks := [];
         orphanTracks := unanalyzedTracks;
         transitions := [];
         isComplete := (length unanalyzedTracks =? 0)%nat |}
  | 1%nat =>
      {| orderedTracks := analyzedTracks;
         orphanTracks := unanalyzedTracks;
         transitions := [];
         isComplete := (length unanalyzedTracks =? 0)%nat |}
  | _ =>
      let st := search analyzedTracks in
      let orderedTracks :=
        match bestCompletePath st with
        | Some p => p
        | None => bestPartialPath st
        end in
      let orderedIds := map id orderedTracks in
      let orphanTracks :=
        filter (fun t => negb (set_has orderedIds (id t))) analyzedTracks
        ++ unanalyzedTracks in
      {| orderedTracks := orderedTracks;
         orphanTracks := orphanTracks;
         transitions := build_transitions orderedTracks;
         isComplete := not_null (bestCompletePath st)
                       && (length unanalyzedTracks =? 0)%nat |}
  end.

(** *** findCompatibleGroups *)

(** The variables of the loops; [assigned] is a [Set<string>] that is only
    tested for membership. *)
Record Grouping : Set := mkGrouping {
  group : list Track;
  assigned : list string;
  changed : bool
}.

(** The body of [for (const candidate of analyzedTracks)]. *)
Definition candidate_step (st : Grouping) (candidate : Track) : Grouping :=
  if set_has (assigned st) (id candidate) then st
  else
    let isCompatible :=
      existsb (fun groupTrack => isTransitionCompatible groupTrack candidate)
              (group st) in
    if isCompatible
    then {| group := group st ++ [candidate];
            assigned := id candidate :: assigned st;
            changed := true |}
    else st.

(** One iteration of [while (changed)]: [changed = false], then the scan. *)
Definition sweep (analyzedTracks : list Track) (g : list Track)
           (a : list string) : Grouping :=
  fold_left candidate_step analyzedTracks
    {| group := g; assigned := a; changed := false |}.

Fixpoint grow_group (fuel : nat) (analyzedTracks : list Track)
         (g : list Track) (a : list string) : list Track * list string :=
  match fuel with
  | O => (g, a)
  | S fuel' =>
      let st := sweep analyzedTracks g a in
      if changed st
      then grow_group fuel' analyzedTracks (group st) (assigned st)
      else (group st, assigned st)
  end.

(** The body of [for (const track of analyzedTracks)]. *)
Definition group_step (analyzedTracks : list Track)
           (acc : list (list Track) * list string) (track : Track)
  : list (list Track) * list string :=
  let '(groups, assigned) := acc in
  if set_has assigned (id track) then acc
  else
    let '(g, a) :=
      grow_group (S (length analyzedTracks)) analyzedTracks
                 [track] (id track :: assigned) in
    (groups ++ [g], a).

(** [Array.prototype.sort] with a comparator: a stable sort. *)
Fixpoint sort_insert {A : Type} (cmp : A -> A -> Z) (x : A) (l : list A)
  : list A :=
  match l with
  | [] => [x]
  | h :: t => if (cmp x h <=? 0)%Z then x :: l else h :: sort_insert cmp x t
  end.

Definition Array_sort {A : Type} (cmp : A -> A -> Z) (l : list A) : list A :=
  fold_right (sort_insert cmp) [] l.

Definition findCompatibleGroups (tracks : list Track) : list (list Track) :=
  let analyzedTracks := filter isTrackAnalyzed tracks in
  match analyzedTracks with
  | [] => []
  | _ :: _ =>
      let groups := fst (fold_left (group_step analyzedTracks)
                                   analyzedTracks ([], [])) in
      Array_sort (fun a b => Z.of_nat (length b) - Z.of_nat (length a))%Z
                 groups
  end.

End Ordering.

(* ================================================================== *)
(** ** The specification's own definitions, for comparison

  Tempo differences and path scores are those of the real numbers the
  tempos stand for. *)
(* ================================================================== *)

Module Spec.
Import JsString Camelot Ordering.

(** Section 3, key position: a number 1..12 and one of two letters. *)
Inductive Letter : Set := LetterA | LetterB.

Definition letter_eqb (x y : Letter) : bool :=
  match x, y with
  | LetterA, LetterA | LetterB, LetterB => true
  | _, _ => false
  end.

Definition key_number (k : CamelotKey) : Z :=
  match k with
  | K1A | K1B => 1 | K2A | K2B => 2 | K3A | K3B => 3 | K4A | K4B => 4
  | K5A | K5B => 5 | K6A | K6B => 6 | K7A | K7B => 7 | K8A | K8B => 8
  | K9A | K9B => 9 | K10A | K10B => 10 | K11A | K11B => 11
  | K12A | K12B => 12
  end%Z.

Definition key_letter (k : CamelotKey) : Letter :=
  match k with
  | K1A | K2A | K3A | K4A | K5A | K6A
  | K7A | K8A | K9A | K10A | K11A | K12A => LetterA
  | _ => LetterB
  end.

Definition letter_string (l : Letter) : string :=
  match l with LetterA => "A" | LetterB => "B" end.

(** Section 4.1, the circular distance of the numbers on the 12-point
    ring: [d = min(|A.number - B.number|, 12 - |A.number - B.number|)]. *)
Definition ring_distance (A B : CamelotKey) : Z :=
  Z.min (Z.abs (key_number A - key_number B))
        (12 - Z.abs (key_number A - key_number B)).

(** Section 4.1, [distance(A, B)]. *)
Definition spec_distance (A B : CamelotKey) : Z :=
  let d := ring_distance A B in
  let differ := negb (letter_eqb (key_letter A) (key_letter B)) in
  if (d =? 0)%Z && differ then 1%Z
  else if differ && negb (d =? 0)%Z then (d + 1)%Z
  else d.

(** Section 4.1, [classify(A, B)]. *)
Definition spec_classify (A B : CamelotKey) : KeyCompatibilityType :=
  let eqn := (key_number A =? key_number B)%Z in
  let eql := letter_eqb (key_letter A) (key_letter B) in
  if eqn && eql then same
  else if eqn && negb eql then relative
  else if (ring_distance A B =? 1)%Z && eql then adjacent
  else incompatible.

(** Section 3 and 4.1, [resolve(label)]: the table entry whose label equals
    the input up to case, after trimming surrounding white space. *)
Definition spec_resolve (label : string) : option CamelotKey :=
  option_map snd
    (find (fun e => String.eqb (toLowerCase (fst e))
                               (toLowerCase (trim label)))
          CAMELOT_MAP).

Local Open Scope Q_scope.
Local Open Scope list_scope.

(** Section 3: a track is analyzed iff tempo and key position are present. *)
Definition analyzed (t : Track) : Prop :=
  bpm t <> None /\ camelotKey t <> None.

(** The real number a stored tempo is. *)
Definition real (b : Number.Double) : Q := Number.value (Number.repr b).

(** Section 4.2 step 3, the legal-transition predicate: both tracks
    analyzed, tempo difference at most 20, keys compatible. *)
Definition legal (X Y : Track) : Prop :=
  exists bx kx by_ ky,
    bpm X = Some bx /\ camelotKey X = Some kx
    /\ bpm Y = Some by_ /\ camelotKey Y = Some ky
    /\ Qabs (real bx - real by_) <= 20
    /\ isCamelotCompatible kx ky = true.

Definition legalb (X Y : Track) : bool :=
  match bpm X, camelotKey X, bpm Y, camelotKey Y with
  | Some bx, Some kx, Some by_, Some ky =>
      Qle_bool (Qabs (real bx - real by_)) 20 && isCamelotCompatible kx ky
  | _, _, _, _ => false
  end.

(** The tempo of an analyzed track. *)
Definition tempo (t : Track) : Q :=
  match bpm t with Some b => real b | None => 0 end.

Definition tempo_diff (X Y : Track) : Q := Qabs (tempo X - tempo Y).

(** Every pair of neighbours of a sequence is a legal transition. *)
Definition neighbours_legal (l : list Track) : Prop :=
  forall pre a b post, l = pre ++ a :: b :: post -> legal a b.

(** *** The reference ordering algorithm (section 4.2, steps 4 and 5) *)

(** The first element of [x :: rest] that no other element beats, for a
    preference [leb] ("at least as good as"): first encountered wins. *)
Fixpoint first_best {A : Type} (leb : A -> A -> bool) (x : A)
         (rest : list A) : A :=
  match rest with
  | [] => x
  | y :: r =>
      let m := first_best leb y r in
      if leb x m then x else m
  end.

Definition used (path : list Track) (t : Track) : bool :=
  existsb (fun u => String.eqb (id u) (id t)) path.

(** Step 4: among the unused analyzed tracks that are a legal transition
    from the tail, append the one closest in tempo; stop at a dead end.
    [steps] bounds the number of appended tracks. *)
Fixpoint ref_extend (steps : nat) (pool path : list Track) (tail : Track)
  : list Track :=
  match steps with
  | O => []
  | S n =>
      match filter (fun t => negb (used path t) && legalb tail t) pool with
      | [] => []
      | c :: cs =>
          let next :=
            first_best (fun u v => Qle_bool (tempo_diff tail u)
                                            (tempo_diff tail v)) c cs in
          next :: ref_extend n pool (path ++ [next]) next
      end
  end.

Definition ref_greedy_path (pool : list Track) (seed : Track) : list Track :=
  seed :: ref_extend (length pool) pool [seed] seed.

(** Path score: the sum of the squared tempo differences of neighbours. *)
Fixpoint path_score (path : list Track) : Q :=
  match path with
  | a :: (b :: _) as rest =>
      tempo_diff a b * tempo_diff a b + path_score rest
  | _ => 0
  end.

(** A path is complete when it covers all analyzed tracks. *)
Definition covers (pool path : list Track) : bool :=
  forallb (used path) pool.

Definition lower_score (p q : list Track) : bool :=
  Qle_bool (path_score p) (path_score q).

(** Longer is better; at equal length, the lower score is better. *)
Definition longer_then_lower_score (p q : list Track) : bool :=
  (length q <? length p)%nat
  || ((length p =? length q)%nat && lower_score p q).

(** Step 5: one greedy path per analyzed track, in input order; the
    complete path of lowest score if there is one, otherwise the longest
    path, of lowest score among the longest. *)
Definition reference_order (tracks : list Track) : list Track :=
  let pool := filter (fun t => not_null (bpm t) && not_null (camelotKey t))
                     tracks in
  let paths := map (ref_greedy_path pool) pool in
  match filter (covers pool) paths with
  | c :: cs => first_best lower_score c cs
  | [] =>
      match paths with
      | p :: ps => first_best longer_then_lower_score p ps
      | [] => []
      end
  end.

(** *** Connected components (section 4.2, auxiliary) *)

(** Two analyzed input tracks are linked when they are a legal transition. *)
Definition linked (tracks : list Track) (x y : Track) : Prop :=
  In x tracks /\ In y tracks /\ legal x y.

(** The transitive closure, made reflexive: [y] is reachable from [x]. *)
Definition connected (tracks : list Track) : Track -> Track -> Prop :=
  clos_refl_trans Track (linked tracks).

Definition descending_size (gs : list (list Track)) : Prop :=
  forall pre g h post,
    gs = pre ++ g :: h :: post -> (length h <= length g)%nat.

End Spec.


(* ================================================================== *)
(** ** The specification's definitions in binary64 arithmetic

  The definitions of section 4.2 again, with the tempo difference and the
  path score computed as a program does: the subtraction, every square
  and every addition rounded to the nearest binary64 number, the sum
  taken from the first transition on. *)
(* ================================================================== *)

Module Rounded.
Import Camelot Ordering Spec.
Local Open Scope list_scope.

(** The rounded distance of two numbers. *)
Definition distance (x y : Number.number) : Number.number :=
  Number.abs (Number.sub x y).

(** Both tracks analyzed, rounded tempo difference at most 20, keys
    compatible. *)
Definition legal (X Y : Track) : Prop :=
  exists bx kx by_ ky,
    bpm X = Some bx /\ camelotKey X = Some kx
    /\ bpm Y = Some by_ /\ camelotKey Y = Some ky
    /\ Number.le (distance (Number.repr bx) (Number.repr by_))
                 (Number.of_Z 20) = true
    /\ isCamelotCompatible kx ky = true.

Definition legalb (X Y : Track) : bool :=
  match bpm X, camelotKey X, bpm Y, camelotKey Y with
  | Some bx, Some kx, Some by_, Some ky =>
      Number.le (distance (Number.repr bx) (Number.repr by_))
                (Number.of_Z 20)
      && isCamelotCompatible kx ky
  | _, _, _, _ => false
  end.

(** The tempo of an analyzed track. *)
Definition tempo (t : Track) : Number.number :=
  match bpm t with Some b => Number.repr b | None => Number.zero end.

Definition tempo_diff (X Y : Track) : Number.number :=
  distance (tempo X) (tempo Y).

Definition neighbours_legal (l : list Track) : Prop :=
  forall pre a b post, l = pre ++ a :: b :: post -> legal a b.

(** Step 4, as [Spec.ref_extend]. *)
Fixpoint ref_extend (steps : nat) (pool path : list Track) (tail : Track)
  : list Track :=
  match steps with
  | O => []
  | S n =>
      match filter (fun t => negb (used path t) && legalb tail t) pool with
      | [] => []
      | c :: cs =>
          let next :=
            first_best (fun u v => Number.le (tempo_diff tail u)
                                             (tempo_diff tail v)) c cs in
          next :: ref_extend n pool (path ++ [next]) next
      end
  end.

Definition ref_greedy_path (pool : list Track) (seed : Track) : list Track :=
  seed :: ref_extend (length pool) pool [seed] seed.

(** The squared tempo differences of the neighbours of a path. *)
Fixpoint squares (path : list Track) : list Number.number :=
  match path with
  | a :: (b :: _) as rest =>
      Number.mul (tempo_diff a b) (tempo_diff a b) :: squares rest
  | _ => []
  end.

(** Path score: the squares added up from the left, starting at [0]. *)
Definition path_score (path : list Track) : Number.number :=
  fold_left Number.add (squares path) Number.zero.

Definition lower_score (p q : list Track) : bool :=
  Number.le (path_score p) (path_score q).

Definition longer_then_lower_score (p q : list Track) : bool :=
  (length q <? length p)%nat
  || ((length p =? length q)%nat && lower_score p q).

(** Step 5, as [Spec.reference_order]. *)
Definition reference_order (tracks : list Track) : list Track :=
  let pool := filter (fun t => not_null (bpm t) && not_null (camelotKey t))
                     tracks in
  let paths := map (ref_greedy_path pool) pool in
  match filter (covers pool) paths with
  | c :: cs => first_best lower_score c cs
  | [] =>
      match paths with
      | p :: ps => first_best longer_then_lower_score p ps
      | [] => []
      end
  end.

Definition linked (tracks : list Track) (x y : Track) : Prop :=
  In x tracks /\ In y tracks /\ legal x y.

Definition connected (tracks : list Track) : Track -> Track -> Prop :=
  clos_refl_trans Track (linked tracks).

End Rounded.


(* ================================================================== *)
(** ** Loop bodies in isolation, used by the proofs *)
(* ================================================================== *)

Module Loops.
Import Ordering Spec Rounded.
Local Open Scope list_scope.

(** The preference of the greedy step: closer in tempo to the tail. *)
Definition closer (tail : Track) : Track -> Track -> bool :=
  fun u v => Number.le (tempo_diff tail u) (tempo_diff tail v).

(** Keep the running best, replace it only by a strictly better one. *)
Definition keep_best {A : Type} (leb : A -> A -> bool) (x : A)
           (l : list A) : A :=
  fold_left (fun b y => if leb b y then b else y) l x.

(** The complete-path branch of [search_step] on [bestCompletePath]. *)
Definition complete_step (o : option (list Track)) (p : list Track)
  : option (list Track) :=
  match o with
  | None => Some p
  | Some b =>
      if Number.lt (calculatePathScore p) (calculatePathScore b)
      then Some p else Some b
  end.

(** The partial-path branches of [search_step] on [bestPartialPath]. *)
Definition partial_step (b p : list Track) : list Track :=
  if (length b <? length p)%nat then p
  else if (length p =? length b)%nat && (0 <? length p)%nat then
    if Number.lt (calculatePathScore p) (calculatePathScore b) then p else b
  else b.

Definition score_of (o : option (list Track)) : Number.number :=
  match o with
  | Some p => calculatePathScore p
  | None => Number.infinity
  end.

(** The ordering [findOptimalOrder] takes from the search:
    [bestCompletePath ?? bestPartialPath]. *)
Definition chosen (pool : list Track) : list Track :=
  match bestCompletePath (search pool) with
  | Some p => p
  | None => bestPartialPath (search pool)
  end.

(** The number of tracks of [pool] whose id is not in [ids]. *)
Definition unassigned (pool : list Track) (ids : list string) : nat :=
  length (filter (fun t => negb (set_has ids (id t))) pool).

(** What holds of the group [g] grown from [seed] and of the ids [a]
    assigned so far, [a0] being the ids assigned to earlier groups. *)
Record growing (tracks : list Track) (a0 : list string) (seed : Track)
       (g : list Track) (a : list string) : Prop := mkGrowing {
  grow_seed : In seed g;
  grow_pool : forall x, In x g -> In x (filter isTrackAnalyzed tracks);
  grow_ids : forall i, In i a <-> In i a0 \/ In i (map id g);
  grow_fresh : forall x, In x g -> ~ In (id x) a0;
  grow_nodup : NoDup (map id g);
  grow_connected : forall x, In x g -> connected tracks seed x
}.

(** No unassigned track is compatible with a track of the group. *)
Definition saturated (pool g : list Track) (a : list string) : Prop :=
  forall c, In c pool ->
    In (id c) a \/ forall x, In x g -> isTransitionCompatible x c = false.

(** What holds of the groups built so far and of the assigned ids. *)
Record grouped (tracks : list Track) (groups : list (list Track))
       (a : list string) : Prop := mkGrouped {
  grouped_ids : forall i, In i a <-> In i (map id (concat groups));
  grouped_nodup : NoDup (map id (concat groups));
  grouped_pool :
    forall g x, In g groups -> In x g ->
                In x (filter isTrackAnalyzed tracks);
  grouped_nonempty : forall g, In g groups -> g <> [];
  grouped_component :
    forall g x y, In g groups -> In x g ->
                  (In y g <-> connected tracks x y)
}.

(** The order a comparator sorts by: [x] may come before [y]. *)
Definition ordered_by {A : Type} (cmp : A -> A -> Z) : A -> A -> Prop :=
  fun x y => (cmp x y <= 0)%Z.

(** The comparator of [groups.sort]. *)
Definition by_size_desc (a b : list Track) : Z :=
  (Z.of_nat (length b) - Z.of_nat (length a))%Z.

End Loops.

(* ================================================================== *)
(** ** A batch of tracks, after the tests of ordering.ts *)
(* ================================================================== *)

Module Samples.
Local Open Scope list_scope.

Definition whole (z : Z) : option Number.Double :=
  Number.double (Number.of_Z z).

(** [tenths 1331] is the tempo [133.1]. *)
Definition tenths (z : Z) : option Number.Double :=
  Number.double (Number.decimal z 10).

Definition track1 : Track := mkTrack "1" (whole 128) (Some K8B).
Definition track2 : Track := mkTrack "2" (whole 130) (Some K9B).
Definition track3 : Track := mkTrack "3" (whole 132) (Some K10B).
Definition track4 : Track := mkTrack "4" (whole 200) (Some K3A).
Definition track5 : Track := mkTrack "5" None None.

Definition batch : list Track := [track1; track2; track3; track4; track5].

(** Tempos whose binary64 distances are [20] and [5], the real
    differences being a little more than 20 and a little less than 5. *)
Definition slow : Track := mkTrack "a" (tenths 1) (Some K8A).
Definition slow5 : Track := mkTrack "b" (tenths 51) (Some K8A).
Definition slow20 : Track := mkTrack "c" (tenths 201) (Some K8A).

(** Four tracks of one key: the paths from the first and from the third
    have the same score in the real numbers, and the second is the lower
    one in binary64. *)
Definition tied : list Track :=
  [ mkTrack "a" (tenths 1331) (Some K8A);
    mkTrack "b" (tenths 1354) (Some K8A);
    mkTrack "c" (tenths 1431) (Some K8A);
    mkTrack "d" (tenths 1404) (Some K8A) ].

(** One object listed twice. *)
Definition twice : list Track := [track1; track1].

(** Two objects that share the id ["x"]. *)
Definition shared_id : list Track :=
  [ mkTrack "y" (whole 130) (Some K8A);
    mkTrack "x" (whole 131) (Some K8A);
    mkTrack "x" (whole 129) (Some K8A) ].

End Samples.

(* ================================================================== *)
(** * Around the engine: file validation, tempo normalisation, stores

  A shallow embedding of [src/lib/audio/formats.ts], of [normalizeBpm]
  in [src/lib/audio/key-worker.ts] and of the tracks store and the
  ordering store of [src/lib/stores/tracks.ts].

  Further conventions.
  - A file size is a natural number of bytes below 2^53, so that its
    quotient by a power of two is exact in binary floating point.
  - The analysis of a track is asynchronous: it is a function that tells
    how the promise of [analyzeTrack] settles for each track, and the
    store is updated by nobody else while [analyzeAll] runs.
  - Writing the tracks to [localStorage] does not change the state of a
    store and is left out. *)
(* ================================================================== *)

From Stdlib Require Import NArith Qround DecimalString.

(* ================================================================== *)
(** ** audio/formats.ts *)
(* ================================================================== *)

Module Formats.
Import JsString.
Local Open Scope string_scope.

(** The properties of a [File] that the code reads; [size] is a
    non-negative integer number of bytes (below 2^53). *)
Record File : Set := mkFile { name : string; type : string; size : N }.

Definition MAX_FILE_SIZE : N := 100 * 1024 * 1024.

Definition MAX_FILES : nat := 50.

Definition SUPPORTED_EXTENSIONS : list string :=
  [ ".mp3"; ".wav"; ".aiff"; ".aif"; ".flac"; ".ogg"; ".m4a" ].

Definition MIME_TYPES : list (string * string) :=
  [ (".mp3", "audio/mpeg"); (".wav", "audio/wav"); (".aiff", "audio/aiff");
    (".aif", "audio/aiff"); (".flac", "audio/flac"); (".ogg", "audio/ogg");
    (".m4a", "audio/mp4") ].

Definition SUPPORTED_MIME_TYPES : list string :=
  [ "audio/mpeg"; "audio/wav"; "audio/wave"; "audio/x-wav"; "audio/aiff";
    "audio/x-aiff"; "audio/flac"; "audio/x-flac"; "audio/ogg"; "audio/mp4";
    "audio/x-m4a" ].

(** [s.lastIndexOf(c)] for a one-character search string: the index of
    the last occurrence, [-1] when there is none. *)
Fixpoint lastIndexOf (c : ascii) (s : string) : Z :=
  match s with
  | EmptyString => (-1)%Z
  | String a r =>
      let k := lastIndexOf c r in
      if (k =? -1)%Z then (if Ascii.eqb a c then 0 else -1)%Z
      else (k + 1)%Z
  end.

(** [s.slice(start)] for [0 <= start]. *)
Fixpoint slice_from (start : nat) (s : string) : string :=
  match start, s with
  | O, _ => s
  | S n, EmptyString => EmptyString
  | S n, String _ r => slice_from n r
  end.

(** [array.includes(x)] on an array of strings. *)
Definition includes (l : list string) (x : string) : bool :=
  existsb (String.eqb x) l.

(** A string is truthy when it is not empty. *)
Definition truthy (s : string) : bool := negb (String.eqb s "").

Definition getExtension (filename : string) : string :=
  let lastDot := lastIndexOf "." filename in
  if (lastDot =? -1)%Z
     || (lastDot =? Z.of_nat (String.length filename) - 1)%Z
  then ""
  else toLowerCase (slice_from (Z.to_nat lastDot) filename).

Definition isExtensionSupported (extension : string) : bool :=
  includes SUPPORTED_EXTENSIONS (toLowerCase extension).

Definition isMimeTypeSupported (mimeType : string) : bool :=
  includes SUPPORTED_MIME_TYPES (toLowerCase mimeType).

Definition isSupported (file : File) : bool :=
  let extension := getExtension (name file) in
  if truthy extension && isExtensionSupported extension then true
  else if truthy (type file) && isMimeTypeSupported (type file) then true
  else false.

Inductive ErrorCode : Set := UNSUPPORTED_FORMAT | FILE_TOO_LARGE.

Record ValidationResult : Set := mkValidation {
  valid : bool;
  error : option string;
  errorCode : option ErrorCode
}.

(** The decimal numeral of a non-negative integer. *)
Definition decimal (z : Z) : string :=
  NilZero.string_of_uint (N.to_uint (Z.to_N z)).

(** [x.toFixed(1)] for [0 <= x < 1e21]: with [n] the integer nearest to
    [10 x] (the larger one on a tie), the numeral of [n] with a point
    before its last digit.  The divisions by [1024] and [1024 * 1024] of
    an integer below 2^53 are exact in binary floating point, so that the
    rational [x] is the number the code formats. *)
Definition toFixed1 (x : Q) : string :=
  let n := Qfloor (x * 10 + (1 # 2)) in
  decimal (n / 10) ++ "." ++ decimal (n mod 10).

Definition validateFile (file : File) : ValidationResult :=
  if negb (isSupported file) then
    let extension :=
      if truthy (getExtension (name file)) then getExtension (name file)
      else "unknown" in
    {| valid := false;
       error :=
         Some ("Unsupported file format: " ++ extension
               ++ ". Supported formats: MP3, WAV, AIFF, FLAC, OGG, M4A.");
       errorCode := Some UNSUPPORTED_FORMAT |}
  else if (MAX_FILE_SIZE <? size file)%N then
    let sizeMB :=
      toFixed1 (inject_Z (Z.of_N (size file)) / inject_Z (1024 * 1024)) in
    {| valid := false;
       error := Some ("File too large: " ++ sizeMB
                      ++ "MB. Maximum size is 100MB.");
       errorCode := Some FILE_TOO_LARGE |}
  else {| valid := true; error := None; errorCode := None |}.

Record Validated : Set := mkValidated {
  validFiles : list File;
  errors : list (File * option string);
  tooManyFiles : bool
}.

(** The body of [for (const file of filesToProcess)]. *)
Definition validate_step (acc : list File * list (File * option string))
           (file : File) : list File * list (File * option string) :=
  let result := validateFile file in
  if valid result then ((fst acc ++ [file])%list, snd acc)
  else (fst acc, (snd acc ++ [(file, error result)])%list).

Definition validateFiles (files : list File) : Validated :=
  let tooManyFiles := (MAX_FILES <? length files)%nat in
  let filesToProcess := firstn MAX_FILES files in
  let acc := fold_left validate_step filesToProcess ([], []) in
  {| validFiles := fst acc; errors := snd acc;
     tooManyFiles := tooManyFiles |}.

Definition formatFileSize (bytes : N) : string :=
  if (bytes <? 1024)%N then decimal (Z.of_N bytes) ++ " B"
  else if (bytes <? 1024 * 1024)%N then
    toFixed1 (inject_Z (Z.of_N bytes) / inject_Z 1024) ++ " KB"
  else
    toFixed1 (inject_Z (Z.of_N bytes) / inject_Z (1024 * 1024)) ++ " MB".

End Formats.

(** What makes a file an audio file, in words: its name ends with a dot
  and one of the seven supported extensions, in any case, or its MIME
  type is one of the supported ones, in any case. *)
Module FormatSpec.
Import JsString Formats.
Local Open Scope string_scope.

Definition named_as_audio (f : File) : Prop :=
  exists stem ext,
    name f = stem ++ "." ++ ext
    /\ In ("." ++ toLowerCase ext) SUPPORTED_EXTENSIONS.

Definition typed_as_audio (f : File) : Prop :=
  In (toLowerCase (type f)) SUPPORTED_MIME_TYPES.

Definition audio (f : File) : Prop := named_as_audio f \/ typed_as_audio f.

(** The verdict of [validateFile] as a boolean. *)
Definition accepted (f : File) : bool := valid (validateFile f).

End FormatSpec.

(* ================================================================== *)
(** ** audio/key-worker.ts *)
(* ================================================================== *)

Module Worker.
Local Open Scope Q_scope.

Definition Qlt_bool (x y : Q) : bool := negb (Qle_bool y x).

Definition MIN_BPM : Q := 70.

Definition MAX_BPM : Q := 180.

(** [while (bpm < MIN_BPM && bpm > 0) bpm *= 2], at most [fuel] turns.
    Doubling and halving a finite double are exact, so that the rational
    is the number the code holds. *)
Fixpoint doubling (fuel : nat) (bpm : Q) : option Q :=
  if Qlt_bool bpm MIN_BPM && Qlt_bool 0 bpm then
    match fuel with
    | O => None
    | S fuel' => doubling fuel' (bpm * 2)
    end
  else Some bpm.

(** [while (bpm > MAX_BPM) bpm /= 2], at most [fuel] turns. *)
Fixpoint halving (fuel : nat) (bpm : Q) : option Q :=
  if Qlt_bool MAX_BPM bpm then
    match fuel with
    | O => None
    | S fuel' => halving fuel' (bpm / 2)
    end
  else Some bpm.

Definition normalizeBpm (fuel : nat) (bpm : Q) : option Q :=
  match doubling fuel bpm with
  | Some b => halving fuel b
  | None => None
  end.

(** [Math.round]: the nearest integer, the larger one on a tie. *)
Definition Math_round (x : Q) : Z := Qfloor (x + (1 # 2)).

(** The [bpm] field of the message the worker posts:
    [Math.round(normalizeBpm(rhythmResult.bpm))]. *)
Definition posted_bpm (fuel : nat) (bpm : Q) : option Z :=
  option_map Math_round (normalizeBpm fuel bpm).

End Worker.

(* ================================================================== *)
(** ** audio/analyzer.ts *)
(* ================================================================== *)

Module Analyzer.

Record AnalysisResult : Set := mkAnalysisResult {
  bpm : Number.Double;
  key : MusicalKey;
  camelotKey : option CamelotKey;
  duration : Q
}.

(** How the promise of [analyzeTrack] settles: resolved with a result, or
    rejected with a value that is an [Error] with a message
    ([Some message]) or is something else ([None]). *)
Inductive Settled : Set :=
| Resolved (result : AnalysisResult)
| Rejected (error : option string).

End Analyzer.

(* ================================================================== *)
(** ** stores/tracks.ts *)
(* ================================================================== *)

Module Store.
Import Ordering.
Local Open Scope string_scope.
Local Open Scope nat_scope.
Local Open Scope list_scope.

Inductive AnalysisStatus : Set := pending | analyzing | complete | error.

Inductive MixStatus : Set := none | mixed | orphan.

Definition status_eqb (a b : AnalysisStatus) : bool :=
  match a, b with
  | pending, pending | analyzing, analyzing
  | complete, complete | error, error => true
  | _, _ => false
  end.

(** [Track] with all its fields; [file] is [None] after a reload. *)
Record Track : Set := mkTrack {
  id : string;
  filename : string;
  file : option Formats.File;
  bpm : option Number.Double;
  key : option MusicalKey;
  camelotKey : option CamelotKey;
  duration : option Q;
  status : AnalysisStatus;
  errorMessage : option string;
  mixStatus : MixStatus;
  mixOrder : option Z
}.

(** The fields of a track that the engine reads. *)
Definition engine (t : Track) : Types.Track :=
  {| Types.id := id t; Types.bpm := bpm t;
     Types.camelotKey := camelotKey t |}.

(** [createTrack]; [uuid] is the value of [uuidv4()]. *)
Definition createTrack (uuid : string) (f : Formats.File) : Track :=
  {| id := uuid; filename := Formats.name f; file := Some f;
     bpm := None; key := None; camelotKey := None; duration := None;
     status := pending; errorMessage := None;
     mixStatus := none; mixOrder := None |}.

Definition removeTrack (i : string) (tracks : list Track) : list Track :=
  filter (fun t => negb (String.eqb (id t) i)) tracks.

(** [{ ...t, status, errorMessage }] *)
Definition with_status (s : AnalysisStatus) (m : option string) (t : Track)
  : Track :=
  {| id := id t; filename := filename t; file := file t; bpm := bpm t;
     key := key t; camelotKey := camelotKey t; duration := duration t;
     status := s; errorMessage := m;
     mixStatus := mixStatus t; mixOrder := mixOrder t |}.

Definition updateTrackStatus (i : string) (s : AnalysisStatus)
           (m : option string) (tracks : list Track) : list Track :=
  map (fun t => if String.eqb (id t) i then with_status s m t else t) tracks.

(** [{ ...t, bpm, key, camelotKey, duration, status: 'complete' }] *)
Definition with_analysis (r : Analyzer.AnalysisResult) (t : Track) : Track :=
  {| id := id t; filename := filename t; file := file t;
     bpm := Some (Analyzer.bpm r); key := Some (Analyzer.key r);
     camelotKey := Analyzer.camelotKey r;
     duration := Some (Analyzer.duration r);
     status := complete; errorMessage := errorMessage t;
     mixStatus := mixStatus t; mixOrder := mixOrder t |}.

Definition updateTrackAnalysis (i : string) (r : Analyzer.AnalysisResult)
           (tracks : list Track) : list Track :=
  map (fun t => if String.eqb (id t) i then with_analysis r t else t) tracks.

(** [{ ...track, mixStatus, mixOrder }] *)
Definition with_mix (s : MixStatus) (o : option Z) (t : Track) : Track :=
  {| id := id t; filename := filename t; file := file t; bpm := bpm t;
     key := key t; camelotKey := camelotKey t; duration := duration t;
     status := status t; errorMessage := errorMessage t;
     mixStatus := s; mixOrder := o |}.

(** [array.findIndex(p)]: the first index at which [p] holds, [-1] when
    there is none. *)
Fixpoint findIndex {A : Type} (p : A -> bool) (l : list A) : Z :=
  match l with
  | [] => (-1)%Z
  | x :: r =>
      if p x then 0%Z
      else let k := findIndex p r in
           if (k =? -1)%Z then (-1)%Z else (k + 1)%Z
  end.

(** The function mapped over the tracks by [updateMixStatus]. *)
Definition mark (result : OrderingResult) (track : Track) : Track :=
  let mixedIds := map Types.id (orderedTracks result) in
  let orphanIds := map Types.id (orphanTracks result) in
  if set_has mixedIds (id track) then
    let order :=
      (findIndex (fun t => String.eqb (Types.id t) (id track))
                 (orderedTracks result) + 1)%Z in
    with_mix mixed (Some order) track
  else if set_has orphanIds (id track) then with_mix orphan None track
  else track.

Definition updateMixStatus (result : OrderingResult) (tracks : list Track)
  : list Track :=
  map (mark result) tracks.

Definition clearMixStatus (tracks : list Track) : list Track :=
  map (with_mix none None) tracks.

(** *** analyzeAll, with the store updated by nobody else meanwhile *)

Section Analysis.

(** How [analyzeTrack(track.file)] settles for each track. *)
Variable analyzeTrack : Track -> Analyzer.Settled.

(** The body of [for (const track of pendingTracks)]. *)
Definition analyze_step (tracks : list Track) (track : Track) : list Track :=
  let tracks1 := updateTrackStatus (id track) analyzing None tracks in
  match analyzeTrack track with
  | Analyzer.Resolved result => updateTrackAnalysis (id track) result tracks1
  | Analyzer.Rejected e =>
      let message :=
        match e with Some m => m | None => "Analysis failed" end in
      updateTrackStatus (id track) error (Some message) tracks1
  end.

Definition analyzeAll (tracks : list Track) : list Track :=
  let pendingTracks := filter (fun t => status_eqb (status t) pending) tracks in
  fold_left analyze_step pendingTracks tracks.

(** [mix]: [analyzeAll], then the ordering of the complete tracks. *)
Definition mix (tracks : list Track) : list Track :=
  let currentTracks := analyzeAll tracks in
  let analyzedTracks :=
    filter (fun t => status_eqb (status t) complete) currentTracks in
  if 2 <=? length analyzedTracks then
    updateMixStatus (findOptimalOrder (map engine analyzedTracks))
                    currentTracks
  else currentTracks.

End Analysis.

(** *** The derived stores *)

Module Stats.
Record t : Set := mk {
  total : nat; pending : nat; analyzing : nat; complete : nat; error : nat
}.
End Stats.

Definition count (s : AnalysisStatus) (tracks : list Track) : nat :=
  length (filter (fun t => status_eqb (status t) s) tracks).

Definition trackStats (tracks : list Track) : Stats.t :=
  {| Stats.total := length tracks;
     Stats.pending := count pending tracks;
     Stats.analyzing := count analyzing tracks;
     Stats.complete := count complete tracks;
     Stats.error := count error tracks |}.

Definition allAnalyzed (tracks : list Track) : bool :=
  (0 <? length tracks)
  && forallb (fun t => status_eqb (status t) complete) tracks.

Definition isAnalyzing (tracks : list Track) : bool :=
  existsb (fun t => status_eqb (status t) analyzing) tracks.

(** *** The ordering store, together with the tracks store *)

Record App : Set := mkApp {
  tracks : list Track;
  ordering : option OrderingResult
}.

(** [ordering.generate()].  The result holds the track objects of the
    store as they are before [updateMixStatus]; of these only the
    identifiers are read afterwards, and the result is kept over the
    engine's view of them: it says what their [id], [bpm] and
    [camelotKey] are, and nothing of their mix status and mix order. *)
Definition generate (app : App) : App :=
  let currentTracks := tracks app in
  let analyzedTracks :=
    filter (fun t => status_eqb (status t) complete) currentTracks in
  if length analyzedTracks <? 2 then
    {| tracks := currentTracks; ordering := None |}
  else
    let result := findOptimalOrder (map engine analyzedTracks) in
    {| tracks := updateMixStatus result currentTracks;
       ordering := Some result |}.

(** [ordering.clear()] *)
Definition clear (app : App) : App :=
  {| tracks := clearMixStatus (tracks app); ordering := None |}.

End Store.

(** What the store operations do to one track, in words. *)
Module StoreSpec.
Import Store.
Local Open Scope string_scope.
Local Open Scope list_scope.

(** [t'] is [t] but for its mix status and mix order. *)
Definition same_but_mix (t t' : Track) : Prop :=
  t' = with_mix (mixStatus t') (mixOrder t') t.

(** [t'] is [t] after an ordering: a complete track is mixed, with the
    1-based position of its place among the ordered tracks, or an orphan;
    any other track is left as it was. *)
Definition marked (result : OrderingResult) (t t' : Track) : Prop :=
  same_but_mix t t'
  /\ match status t with
     | complete =>
         (exists k, nth_error (orderedTracks result) k = Some (engine t)
                    /\ mixStatus t' = mixed
                    /\ mixOrder t' = Some (Z.of_nat k + 1)%Z)
         \/ (In (engine t) (orphanTracks result)
             /\ mixStatus t' = orphan /\ mixOrder t' = None)
     | _ => t' = t
     end.

(** The engine's view of the complete tracks, and their ordering. *)
Definition completed (ts : list Track) : list Types.Track :=
  map engine (filter (fun t => status_eqb (status t) complete) ts).

Definition ordering_of (ts : list Track) : OrderingResult :=
  Ordering.findOptimalOrder (completed ts).

Definition message (e : option string) : string :=
  match e with Some m => m | None => "Analysis failed" end.

(** A track after its analysis has settled: complete, with the results
    and no error message, or in error, with the message of the failure. *)
Definition finish (analyzeTrack : Track -> Analyzer.Settled) (t : Track)
  : Track :=
  match analyzeTrack t with
  | Analyzer.Resolved r => with_analysis r (with_status analyzing None t)
  | Analyzer.Rejected e => with_status error (Some (message e)) t
  end.

(** [analyzeAll] on one track: a pending track is analysed, any other
    track is left as it was. *)
Definition settled (analyzeTrack : Track -> Analyzer.Settled) (t : Track)
  : Track :=
  match status t with
  | pending => finish analyzeTrack t
  | _ => t
  end.

End StoreSpec.

(** A store of five tracks: three complete ones, of which the third has a
  key outside the table, one pending and one in error. *)
Module StoreSamples.
Import Store.
Local Open Scope string_scope.
Local Open Scope list_scope.

Definition fresh (i : string) : Track :=
  createTrack i (Formats.mkFile (i ++ ".mp3") "audio/mpeg" 1024).

Definition bpm126 : Number.Double :=
  Number.mkDouble (Number.of_Z 126) eq_refl.
Definition bpm127 : Number.Double :=
  Number.mkDouble (Number.of_Z 127) eq_refl.
Definition bpm128 : Number.Double :=
  Number.mkDouble (Number.of_Z 128) eq_refl.
Definition bpm130 : Number.Double :=
  Number.mkDouble (Number.of_Z 130) eq_refl.

Definition analysed (i : string) (b : Number.Double)
           (k : option CamelotKey) : Track :=
  with_analysis (Analyzer.mkAnalysisResult b "C major" k 240) (fresh i).

Definition store : list Track :=
  [ analysed "a" bpm128 (Some K8B); analysed "b" bpm130 (Some K9B);
    analysed "c" bpm126 None; fresh "d";
    with_status error (Some "Analysis failed") (fresh "e") ].

Definition app : App := {| tracks := store; ordering := None |}.

(** An analysis that succeeds on every track but ["e"]. *)
Definition analyzeTrack (t : Track) : Analyzer.Settled :=
  if String.eqb (id t) "e" then Analyzer.Rejected None
  else Analyzer.Resolved
         (Analyzer.mkAnalysisResult bpm127 "A minor" (Some K8A) 200).

End StoreSamples.
(* ================================================================== *)
(** ** Properties of camelot.ts *)
(* ================================================================== *)

#[local] Arguments Qabs : simpl never.
#[local] Arguments Qminus : simpl never.
#[local] Arguments Qplus : simpl never.
#[local] Arguments Qmult : simpl never.
#[local] Arguments Qle_bool : simpl never.
#[local] Arguments Number.of_Z : simpl never.
#[local] Arguments Number.add : simpl never.
#[local] Arguments Number.sub : simpl never.
#[local] Arguments Number.mul : simpl never.
#[local] Arguments Number.abs : simpl never.
#[local] Arguments Number.lt : simpl never.
#[local] Arguments Number.le : simpl never.

Section CamelotFacts.
Import JsString Camelot Spec.

Lemma all_keys_valid (k : CamelotKey) : In k VALID_CAMELOT_KEYS.
Proof. destruct k; vm_compute; tauto. Qed.

(** A boolean property checked on the 24 x 24 table holds of every pair. *)
Lemma for_all_key_pairs (P : CamelotKey -> CamelotKey -> bool) :
  forallb (fun a => forallb (P a) VALID_CAMELOT_KEYS) VALID_CAMELOT_KEYS
    = true ->
  forall a b, P a b = true.
Proof.
  intros H a b.
  rewrite forallb_forall in H.
  specialize (H a (all_keys_valid a)).
  rewrite forallb_forall in H.
  exact (H b (all_keys_valid b)).
Qed.

(** [parseInt] reads a numeral between 1 and 12 on every key: NaN never
    arises, and the parsed record is the key's position. *)
Lemma parseCamelotKey_numeral (k : CamelotKey) :
  parseInt10 (slice_init (camelot_string k)) = Some (key_number k)
  /\ (1 <= key_number k <= 12)%Z.
Proof. destruct k; vm_compute; intuition discriminate. Qed.

Lemma parseCamelotKey_position (k : CamelotKey) :
  parseCamelotKey k
  = {| number := key_number k; letter := letter_string (key_letter k) |}.
Proof. destruct k; reflexivity. Qed.

Lemma letter_string_eqb (x y : Letter) :
  String.eqb (letter_string x) (letter_string y) = letter_eqb x y.
Proof. destruct x, y; reflexivity. Qed.

Lemma letter_eqb_eq (x y : Letter) : letter_eqb x y = true <-> x = y.
Proof. destruct x, y; simpl; intuition discriminate. Qed.

Lemma getCamelotDistance_spec (A B : CamelotKey) :
  getCamelotDistance A B = spec_distance A B.
Proof.
  unfold getCamelotDistance, spec_distance, ring_distance, circularDistance.
  rewrite !parseCamelotKey_position; simpl number; simpl letter.
  rewrite letter_string_eqb.
  destruct (Z.min _ _ =? 0)%Z, (letter_eqb _ _); reflexivity.
Qed.

Lemma ring_distance_range (A B : CamelotKey) :
  (0 <= ring_distance A B <= 6)%Z.
Proof.
  unfold ring_distance.
  pose proof (parseCamelotKey_numeral A) as [_ HA].
  pose proof (parseCamelotKey_numeral B) as [_ HB].
  lia.
Qed.

Lemma getKeyCompatibilityType_spec (A B : CamelotKey) :
  getKeyCompatibilityType A B = spec_classify A B.
Proof.
  unfold getKeyCompatibilityType, spec_classify, ring_distance,
    circularDistance.
  rewrite !parseCamelotKey_position; simpl number; simpl letter.
  rewrite letter_string_eqb. reflexivity.
Qed.

Lemma ring_distance_sym (A B : CamelotKey) :
  ring_distance A B = ring_distance B A.
Proof. unfold ring_distance. f_equal; lia. Qed.

Lemma letter_eqb_sym (x y : Letter) : letter_eqb x y = letter_eqb y x.
Proof. destruct x, y; reflexivity. Qed.

Lemma getKeyCompatibilityType_sym (A B : CamelotKey) :
  getKeyCompatibilityType A B = getKeyCompatibilityType B A.
Proof.
  rewrite !getKeyCompatibilityType_spec. unfold spec_classify.
  rewrite (ring_distance_sym A B), (letter_eqb_sym (key_letter A)),
    (Z.eqb_sym (key_number A)).
  reflexivity.
Qed.

Lemma isCamelotCompatible_sym (A B : CamelotKey) :
  isCamelotCompatible A B = isCamelotCompatible B A.
Proof.
  unfold isCamelotCompatible. now rewrite getKeyCompatibilityType_sym.
Qed.

Lemma getKeyCompatibilityType_refl (A : CamelotKey) :
  getKeyCompatibilityType A A = same.
Proof.
  rewrite getKeyCompatibilityType_spec. unfold spec_classify.
  rewrite Z.eqb_refl. destruct (key_letter A); reflexivity.
Qed.

(** C8: [getCamelotDistance] is the distance formula of the specification,
    an integer between 0 and 7, and 0 from a key to itself. *)
Theorem getCamelotDistance_formula_and_bounds (A B : CamelotKey) :
  getCamelotDistance A B = spec_distance A B
  /\ (0 <= getCamelotDistance A B <= 7)%Z
  /\ getCamelotDistance A A = 0%Z.
Proof.
  split; [apply getCamelotDistance_spec|].
  split.
  - rewrite getCamelotDistance_spec. unfold spec_distance.
    pose proof (ring_distance_range A B).
    destruct (ring_distance A B =? 0)%Z eqn:E,
      (letter_eqb (key_letter A) (key_letter B)); simpl; lia.
  - rewrite getCamelotDistance_spec. unfold spec_distance, ring_distance.
    replace (key_number A - key_number A)%Z with 0%Z by lia.
    destruct (key_letter A); reflexivity.
Qed.

(** C9: on the 24 keys, classification and compatibility are symmetric, a
    key is [same] as itself, and the classes are those of the
    specification: [relative] iff equal numbers and different letters,
    [adjacent] iff ring distance 1 and equal letters; diagonal moves such
    as 8B to 9A are [incompatible]. *)
Theorem getKeyCompatibilityType_symmetric_reflexive_exact
  (A B : CamelotKey) :
  getKeyCompatibilityType A B = getKeyCompatibilityType B A
  /\ isCamelotCompatible A B = isCamelotCompatible B A
  /\ getKeyCompatibilityType A A = same
  /\ getKeyCompatibilityType A B = spec_classify A B
  /\ (getKeyCompatibilityType A B = same
      <-> key_number A = key_number B /\ key_letter A = key_letter B)
  /\ (getKeyCompatibilityType A B = relative
      <-> key_number A = key_number B /\ key_letter A <> key_letter B)
  /\ (getKeyCompatibilityType A B = adjacent
      <-> ring_distance A B = 1%Z /\ key_letter A = key_letter B)
  /\ getKeyCompatibilityType K8B K9A = incompatible.
Proof.
  split; [apply getKeyCompatibilityType_sym|].
  split; [apply isCamelotCompatible_sym|].
  split; [apply getKeyCompatibilityType_refl|].
  split; [apply getKeyCompatibilityType_spec|].
  rewrite getKeyCompatibilityType_spec. unfold spec_classify.
  pose proof (letter_eqb_eq (key_letter A) (key_letter B)) as HL.
  assert (HD : key_number A = key_number B -> ring_distance A B <> 1%Z).
  { unfold ring_distance. intros ->. lia. }
  destruct (Z.eqb_spec (key_number A) (key_number B)) as [En|En];
    destruct (letter_eqb (key_letter A) (key_letter B)) eqn:El;
    destruct (Z.eqb_spec (ring_distance A B) 1) as [Ed|Ed]; simpl;
    repeat split; intros; try discriminate; try tauto;
    try (exfalso; intuition congruence);
    try (destruct HL as [HL1 HL2]; intuition congruence).
Qed.

End CamelotFacts.
(* ================================================================== *)
(** ** Binary64 arithmetic *)
(* ================================================================== *)

(** *** The order of the numbers *)

Section NumberOrder.
Import Number.
Local Open Scope Z_scope.

Lemma compare_rank (x y : number) :
  is_nan x = false -> is_nan y = false ->
  SFcompare x y = Some (lex_compare (rank x) (rank y)).
Proof.
  destruct x as [sx|sx| |sx mx ex], y as [sy|sy| |sy my ey];
    try discriminate; intros _ _; simpl;
    try (destruct sx; reflexivity); try (destruct sy; reflexivity);
    try (destruct sx, sy; reflexivity).
  destruct sx, sy; try reflexivity; unfold lex_compare;
    change (-1 ?= -1) with Eq; change (1 ?= 1) with Eq; cbv iota.
  rewrite Z.compare_opp, (Z.compare_antisym ex ey).
  destruct (ex ?= ey); reflexivity.
Qed.

Lemma lex_compare_lt (a b : Z * Z * Z) :
  lex_compare a b = Lt <->
  let '(a1, a2, a3) := a in
  let '(b1, b2, b3) := b in
  a1 < b1 \/ (a1 = b1 /\ (a2 < b2 \/ (a2 = b2 /\ a3 < b3))).
Proof.
  destruct a as [[a1 a2] a3], b as [[b1 b2] b3]. simpl.
  destruct (Z.compare_spec a1 b1); [|intuition (try lia; try discriminate)|
                                      intuition (try lia; try discriminate)].
  destruct (Z.compare_spec a2 b2);
    [|intuition (try lia; try discriminate)|
      intuition (try lia; try discriminate)].
  rewrite Z.compare_lt_iff. intuition lia.
Qed.

Lemma lt_rank (x y : number) :
  is_nan x = false -> is_nan y = false ->
  (lt x y = true <-> lex_compare (rank x) (rank y) = Lt).
Proof.
  intros Hx Hy. unfold lt, SFltb. rewrite (compare_rank x y Hx Hy).
  destruct (lex_compare (rank x) (rank y)); split; congruence.
Qed.

Lemma number_le_lt (x y : number) :
  is_nan x = false -> is_nan y = false ->
  le x y = negb (lt y x).
Proof.
  intros Hx Hy. unfold le, lt, SFleb, SFltb.
  rewrite (compare_rank x y Hx Hy), (compare_rank y x Hy Hx).
  destruct (rank x) as [[a1 a2] a3], (rank y) as [[b1 b2] b3]. simpl.
  rewrite (Z.compare_antisym a1 b1), (Z.compare_antisym a2 b2),
    (Z.compare_antisym a3 b3).
  destruct (a1 ?= b1); simpl; try reflexivity.
  destruct (a2 ?= b2); simpl; try reflexivity.
  destruct (a3 ?= b3); reflexivity.
Qed.

Lemma number_lt_irrefl (x : number) : lt x x = false.
Proof.
  destruct (is_nan x) eqn:Hx.
  - destruct x; try discriminate. reflexivity.
  - destruct (lt x x) eqn:E; [|reflexivity].
    apply (lt_rank x x Hx Hx), lex_compare_lt in E.
    destruct (rank x) as [[a1 a2] a3]. lia.
Qed.

Lemma number_lt_trans (x y z : number) :
  lt x y = true -> lt y z = true -> lt x z = true.
Proof.
  intros H1 H2.
  assert (Hx : is_nan x = false) by (destruct x; try reflexivity; discriminate).
  assert (Hy : is_nan y = false)
    by (destruct y; try reflexivity; destruct x; discriminate).
  assert (Hz : is_nan z = false)
    by (destruct z; try reflexivity; destruct y; discriminate).
  apply (lt_rank _ _ Hx Hy), lex_compare_lt in H1.
  apply (lt_rank _ _ Hy Hz), lex_compare_lt in H2.
  apply (lt_rank _ _ Hx Hz), lex_compare_lt.
  destruct (rank x) as [[a1 a2] a3], (rank y) as [[b1 b2] b3],
    (rank z) as [[c1 c2] c3]. lia.
Qed.

(** Among numbers that are not NaN, "at most" is a total preorder. *)
Lemma number_le_total (x y : number) :
  is_nan x = false -> is_nan y = false ->
  le x y = true \/ le y x = true.
Proof.
  intros Hx Hy. rewrite (number_le_lt x y Hx Hy), (number_le_lt y x Hy Hx).
  destruct (lt y x) eqn:E1; [|now left].
  destruct (lt x y) eqn:E2; [|now right].
  pose proof (number_lt_trans _ _ _ E1 E2) as E. rewrite number_lt_irrefl in E.
  discriminate.
Qed.

Lemma number_le_trans (x y z : number) :
  is_nan x = false -> is_nan y = false -> is_nan z = false ->
  le x y = true -> le y z = true -> le x z = true.
Proof.
  intros Hx Hy Hz.
  rewrite (number_le_lt x y Hx Hy), (number_le_lt y z Hy Hz), (number_le_lt x z Hx Hz).
  rewrite !negb_true_iff. intros H1 H2.
  destruct (lt z x) eqn:E; [|reflexivity].
  apply (lt_rank _ _ Hz Hx), lex_compare_lt in E.
  assert (N1 : lex_compare (rank y) (rank x) <> Lt).
  { intros C. apply (lt_rank _ _ Hy Hx) in C. congruence. }
  assert (N2 : lex_compare (rank z) (rank y) <> Lt).
  { intros C. apply (lt_rank _ _ Hz Hy) in C. congruence. }
  rewrite lex_compare_lt in N1, N2.
  destruct (rank x) as [[a1 a2] a3], (rank y) as [[b1 b2] b3],
    (rank z) as [[c1 c2] c3]. lia.
Qed.

Lemma number_lt_le_trans (x y z : number) :
  is_nan x = false -> is_nan y = false -> is_nan z = false ->
  lt x y = true -> le y z = true -> lt x z = true.
Proof.
  intros Hx Hy Hz H1. rewrite (number_le_lt y z Hy Hz), negb_true_iff. intros H2.
  apply (lt_rank _ _ Hx Hy), lex_compare_lt in H1.
  apply (lt_rank _ _ Hx Hz), lex_compare_lt.
  assert (N2 : lex_compare (rank z) (rank y) <> Lt).
  { intros C. apply (lt_rank _ _ Hz Hy) in C. congruence. }
  rewrite lex_compare_lt in N2.
  destruct (rank x) as [[a1 a2] a3], (rank y) as [[b1 b2] b3],
    (rank z) as [[c1 c2] c3]. lia.
Qed.

Lemma nonneg_not_nan (x : number) : nonneg x = true -> is_nan x = false.
Proof. destruct x as [[]|[]| |[] ? ?]; simpl; congruence. Qed.

End NumberOrder.

(** *** Rounding to nearest *)

Section Rounding.
Import Number.
Local Open Scope Z_scope.

Lemma iter_pos_nat {A : Type} (f : A -> A) (p : positive) (x : A) :
  SpecFloat.iter_pos f p x = Nat.iter (Pos.to_nat p) f x.
Proof.
  revert x. induction p as [p IH|p IH|]; intros x; cbn [SpecFloat.iter_pos].
  - rewrite !IH, Pos2Nat.inj_xI, <- Nat.iter_add, Nat.iter_swap.
    replace (2 * Pos.to_nat p)%nat with (Pos.to_nat p + Pos.to_nat p)%nat
      by lia.
    reflexivity.
  - rewrite !IH, Pos2Nat.inj_xO, <- Nat.iter_add.
    replace (2 * Pos.to_nat p)%nat with (Pos.to_nat p + Pos.to_nat p)%nat
      by lia.
    reflexivity.
  - reflexivity.
Qed.

(** The number of binary digits of a positive integer. *)
Lemma digits2_bounds (p : positive) :
  2 ^ (Zpos (digits2_pos p) - 1) <= Zpos p < 2 ^ Zpos (digits2_pos p).
Proof.
  induction p as [p IH|p IH|]; cbn [digits2_pos].
  - rewrite Pos2Z.inj_succ.
    replace (Z.succ (Zpos (digits2_pos p)) - 1) with
      (Z.succ (Zpos (digits2_pos p) - 1)) by lia.
    rewrite !Z.pow_succ_r by lia. lia.
  - rewrite Pos2Z.inj_succ.
    replace (Z.succ (Zpos (digits2_pos p)) - 1) with
      (Z.succ (Zpos (digits2_pos p) - 1)) by lia.
    rewrite !Z.pow_succ_r by lia. lia.
  - simpl. lia.
Qed.

Lemma digits2_le (p : positive) (k : Z) :
  Zpos p < 2 ^ k -> Zpos (digits2_pos p) <= k.
Proof.
  intros H. destruct (digits2_bounds p) as [L _].
  destruct (Z.le_gt_cases (Zpos (digits2_pos p)) k) as [|G]; [assumption|].
  assert (0 <= k).
  { destruct (Z.le_gt_cases 0 k); [assumption|].
    rewrite Z.pow_neg_r in H by lia. lia. }
  assert (2 ^ k <= 2 ^ (Zpos (digits2_pos p) - 1))
    by (apply Z.pow_le_mono_r; lia).
  lia.
Qed.

Lemma digits2_lt (p : positive) (k : Z) :
  Zpos (digits2_pos p) <= k -> Zpos p < 2 ^ k.
Proof.
  intros H. destruct (digits2_bounds p) as [_ U].
  assert (2 ^ Zpos (digits2_pos p) <= 2 ^ k)
    by (apply Z.pow_le_mono_r; lia).
  lia.
Qed.

(** *** Shifting a mantissa to the right *)

Lemma shr_1_nonneg (mrs : shr_record) :
  0 <= shr_m mrs ->
  shr_m (shr_1 mrs) = shr_m mrs / 2
  /\ shr_r (shr_1 mrs) = Z.odd (shr_m mrs).
Proof.
  destruct mrs as [m r s]. cbn [shr_m].
  destruct m as [|[p|p|]|p]; intros H; try lia; cbn;
    rewrite <- ?Z.div2_div; split; reflexivity.
Qed.

Lemma shr_iter (n : nat) (mrs : shr_record) :
  0 <= shr_m mrs ->
  shr_m (Nat.iter n shr_1 mrs) = shr_m mrs / 2 ^ Z.of_nat n
  /\ (shr_r (Nat.iter (S n) shr_1 mrs)
      = Z.testbit (shr_m mrs) (Z.of_nat n)).
Proof.
  intros H.
  assert (M : forall k, shr_m (Nat.iter k shr_1 mrs)
                        = shr_m mrs / 2 ^ Z.of_nat k).
  { induction k as [|k IH].
    - simpl. now rewrite Z.div_1_r.
    - rewrite Nat.iter_succ.
      destruct (shr_1_nonneg (Nat.iter k shr_1 mrs)) as [-> _].
      { rewrite IH. apply Z.div_pos; [assumption|].
        apply Z.pow_pos_nonneg; lia. }
      rewrite IH, Nat2Z.inj_succ, Z.pow_succ_r by lia.
      rewrite Z.div_div by (try lia; apply Z.pow_pos_nonneg; lia).
      f_equal. lia. }
  split; [apply M|].
  rewrite Nat.iter_succ.
  destruct (shr_1_nonneg (Nat.iter n shr_1 mrs)) as [_ ->].
  { rewrite M. apply Z.div_pos; [assumption|].
    apply Z.pow_pos_nonneg; lia. }
  rewrite M, Z.testbit_odd, Z.shiftr_div_pow2 by lia. reflexivity.
Qed.

(** [shr] by [n] places on an exact mantissa. *)
Lemma shr_exact (m e n : Z) :
  0 <= m ->
  exists mrs,
    shr (shr_record_of_loc m loc_Exact) e n = (mrs, e + Z.max n 0)
    /\ shr_m mrs = m / 2 ^ Z.max n 0
    /\ (0 < n -> shr_r mrs = Z.testbit m (n - 1))
    /\ (n <= 0 -> mrs = Build_shr_record m false false).
Proof.
  intros H. unfold shr. cbn [shr_record_of_loc].
  destruct n as [|p|p].
  - eexists. split; [rewrite Z.add_0_r; reflexivity|].
    simpl. rewrite Z.div_1_r. repeat split; try lia; reflexivity.
  - eexists. split; [rewrite Z.max_l by lia; reflexivity|].
    rewrite iter_pos_nat, Z.max_l by lia.
    destruct (shr_iter (Pos.to_nat p) (Build_shr_record m false false) H)
      as [M _].
    rewrite M. cbn [shr_m]. rewrite positive_nat_Z.
    split; [reflexivity|]. split; [|lia]. intros _.
    destruct (Pos.to_nat p) as [|k] eqn:Ek; [lia|].
    destruct (shr_iter k (Build_shr_record m false false) H) as [_ R].
    rewrite R. cbn [shr_m]. f_equal. lia.
  - eexists. split; [rewrite Z.max_r by lia; rewrite Z.add_0_r; reflexivity|].
    rewrite Z.max_r by lia. simpl. rewrite Z.div_1_r.
    repeat split; try lia; reflexivity.
Qed.


(** *** Rounding to the nearest number, ties to even *)

Lemma fexp_double (x : Z) : fexp prec emax x = Z.max (x - 53) (-1074).
Proof. reflexivity. Qed.

Lemma round_nearest_even_range (m : Z) (l : location) :
  m <= round_nearest_even m l <= m + 1.
Proof.
  unfold round_nearest_even.
  destruct l as [|[]]; try destruct (Z.even m); lia.
Qed.

Lemma round_nearest_even_down (mrs : shr_record) :
  shr_r mrs = false ->
  round_nearest_even (shr_m mrs) (loc_of_shr_record mrs) = shr_m mrs.
Proof.
  destruct mrs as [m r s]. cbn [shr_r shr_m]. intros ->.
  destruct s; reflexivity.
Qed.

Lemma Zdigits2_nonneg (m : Z) : 0 <= Zdigits2 m.
Proof. destruct m; simpl; lia. Qed.

Lemma Zdigits2_le (m k : Z) : 0 <= k -> 0 <= m < 2 ^ k -> Zdigits2 m <= k.
Proof.
  intros Hk [H0 H]. destruct m as [|p|p]; simpl; try lia.
  now apply digits2_le.
Qed.

Lemma Zdigits2_lt (m k : Z) : 0 <= m -> Zdigits2 m <= k -> m < 2 ^ k.
Proof.
  intros H0 H. destruct m as [|p|p]; simpl in *; try lia.
  now apply digits2_lt.
Qed.

Lemma testbit_above (m k : Z) :
  0 <= m < 2 ^ k -> forall i, k <= i -> Z.testbit m i = false.
Proof.
  intros [H0 H] i Hi.
  destruct (Z.le_gt_cases 0 k) as [Hk|Hk].
  - apply Z.testbit_false; [lia|].
    rewrite Z.div_small; [reflexivity|].
    split; [assumption|].
    assert (2 ^ k <= 2 ^ i) by (apply Z.pow_le_mono_r; lia). lia.
  - rewrite Z.pow_neg_r in H by lia. lia.
Qed.

Lemma div_pow2_lt (m d n : Z) :
  0 <= m < 2 ^ d -> 0 <= n <= d -> m / 2 ^ n < 2 ^ (d - n).
Proof.
  intros [H0 H] Hn.
  apply Z.div_lt_upper_bound; [apply Z.pow_pos_nonneg; lia|].
  rewrite <- Z.pow_add_r by lia.
  now replace (n + (d - n)) with d by lia.
Qed.

(** The result of rounding an exact positive mantissa: never NaN; the
    mantissa kept has at most 53 digits; and the result is below the
    next power of two. *)
Lemma round_aux_shape (sx : bool) (m : positive) (e : Z) :
  exists m2 e2,
    binary_round_aux prec emax sx (Zpos m) e loc_Exact
    = rounded sx m2 e2
    /\ 0 <= m2 < 2 ^ 53
    /\ (0 < m2 -> Zdigits2 m2 + e2 <= Zpos (digits2_pos m) + e + 1).
Proof.
  set (d := Zpos (digits2_pos m)).
  pose proof (digits2_bounds m) as [Dl Du]. fold d in Dl, Du.
  assert (Hd : 1 <= d) by (unfold d; lia).
  unfold binary_round_aux, shr_fexp.
  change (Zdigits2 (Zpos m)) with d. rewrite fexp_double.
  set (n1 := Z.max (d + e - 53) (-1074) - e).
  destruct (shr_exact (Zpos m) e n1) as (mrs1 & E1 & M1 & R1 & X1); [lia|].
  rewrite E1.
  set (e1 := e + Z.max n1 0) in *.
  set (mr := round_nearest_even (shr_m mrs1) (loc_of_shr_record mrs1)).
  assert (He1 : -1074 <= e1) by (unfold e1, n1; lia).
  (* the mantissa after the first shift *)
  assert (B1 : 0 <= shr_m mrs1 < 2 ^ 53
               /\ (n1 <= 0 -> mr = Zpos m)
               /\ (0 < n1 -> n1 <= d -> mr <= 2 ^ (d - n1))
               /\ (d < n1 -> mr = 0)).
  { rewrite M1.
    assert (P : 0 < 2 ^ Z.max n1 0) by (apply Z.pow_pos_nonneg; lia).
    assert (N : 0 <= Zpos m / 2 ^ Z.max n1 0) by (apply Z.div_pos; lia).
    destruct (Z.le_gt_cases n1 0) as [Hn|Hn].
    - rewrite Z.max_r by lia. rewrite Z.pow_0_r, Z.div_1_r.
      assert (d <= 53) by (unfold n1 in Hn; lia).
      assert (2 ^ d <= 2 ^ 53) by (apply Z.pow_le_mono_r; lia).
      repeat split; try lia.
      intros _. unfold mr. rewrite (X1 Hn). reflexivity.
    - rewrite Z.max_l by lia.
      destruct (Z.le_gt_cases n1 d) as [Hnd|Hnd].
      + assert (L : Zpos m / 2 ^ n1 < 2 ^ (d - n1))
          by (apply div_pow2_lt; lia).
        assert (2 ^ (d - n1) <= 2 ^ 53)
          by (apply Z.pow_le_mono_r; unfold n1 in *; lia).
        rewrite Z.max_l in N by lia.
        repeat split; try lia.
        intros _ _. unfold mr.
        pose proof (round_nearest_even_range
                      (shr_m mrs1) (loc_of_shr_record mrs1)) as Rg.
        assert (shr_m mrs1 < 2 ^ (d - n1))
          by (rewrite M1, Z.max_l by lia; exact L).
        lia.
      + assert (Z0' : Zpos m / 2 ^ n1 = 0).
        { apply Z.div_small. split; [lia|].
          assert (2 ^ d <= 2 ^ n1) by (apply Z.pow_le_mono_r; lia). lia. }
        rewrite Z0'.
        assert (0 < 2 ^ 53) by (apply Z.pow_pos_nonneg; lia).
        repeat split; try lia.
        intros _. unfold mr.
        rewrite round_nearest_even_down.
        * rewrite M1, Z.max_l by lia. exact Z0'.
        * rewrite (R1 Hn). apply (testbit_above (Zpos m) d); lia. }
  destruct B1 as (B1 & Bx & Bs & Bz).
  assert (Rg : shr_m mrs1 <= mr <= shr_m mrs1 + 1)
    by apply round_nearest_even_range.
  set (n2 := Z.max (Zdigits2 mr + e1 - 53) (-1074) - e1).
  destruct (shr_exact mr e1 n2) as (mrs2 & E2 & M2 & R2 & X2); [lia|].
  rewrite fexp_double. fold n2. rewrite E2.
  exists (shr_m mrs2), (e1 + Z.max n2 0).
  split; [reflexivity|].
  rewrite M2.
  destruct (Z.eq_dec mr (2 ^ 53)) as [Et|Et].
  - (* the rounding carried into a 54th digit *)
    assert (Dr : Zdigits2 mr = 54) by (rewrite Et; reflexivity).
    assert (N2 : n2 = 1) by (unfold n2; lia).
    rewrite N2, Et. change (Z.max 1 0) with 1.
    change (2 ^ 53 / 2 ^ 1) with (2 ^ 52).
    split; [split; [apply Z.pow_nonneg; lia | reflexivity]|].
    intros _. change (Zdigits2 (2 ^ 52)) with 53.
    destruct (Z.le_gt_cases n1 0) as [Hn|Hn].
    + rewrite (Bx Hn) in Et.
      assert (d <= 53) by (unfold n1 in Hn; lia).
      assert (2 ^ d <= 2 ^ 53) by (apply Z.pow_le_mono_r; lia).
      lia.
    + destruct (Z.le_gt_cases n1 d) as [Hnd|Hnd].
      * specialize (Bs Hn Hnd). rewrite Et in Bs.
        assert (53 <= d - n1).
        { destruct (Z.le_gt_cases 53 (d - n1)); [assumption|].
          assert (2 ^ (d - n1) < 2 ^ 53)
            by (apply Z.pow_lt_mono_r; lia).
          lia. }
        unfold e1. lia.
      * rewrite (Bz Hnd) in Et. discriminate Et.
  - assert (Hr : 0 <= mr < 2 ^ 53) by lia.
    assert (Dr : Zdigits2 mr <= 53) by (apply Zdigits2_le; lia).
    assert (N2 : n2 <= 0) by (unfold n2; lia).
    rewrite Z.max_r by lia. rewrite Z.pow_0_r, Z.div_1_r, Z.add_0_r.
    split; [exact Hr|]. intros Hpos.
    destruct (Z.le_gt_cases n1 0) as [Hn|Hn].
    + rewrite (Bx Hn). change (Zdigits2 (Zpos m)) with d. unfold e1. lia.
    + destruct (Z.le_gt_cases n1 d) as [Hnd|Hnd].
      * specialize (Bs Hn Hnd).
        assert (Zdigits2 mr <= d - n1 + 1).
        { apply Zdigits2_le; [lia|]. split; [lia|].
          replace (d - n1 + 1) with (Z.succ (d - n1)) by lia.
          rewrite Z.pow_succ_r by lia.
          assert (0 < 2 ^ (d - n1)) by (apply Z.pow_pos_nonneg; lia).
          lia. }
        unfold e1. lia.
      * rewrite (Bz Hnd) in Hpos. lia.
Qed.


(** A mantissa whose round bit is clear, in the range of the normal
    numbers, is cut to 53 digits. *)
Lemma round_aux_down (sx : bool) (m : positive) (e : Z) :
  let d := Zpos (digits2_pos m) in
  54 <= d -> -1074 <= d + e - 53 -> d + e - 53 <= 971 ->
  Z.testbit (Zpos m) (d - 54) = false ->
  exists p,
    binary_round_aux prec emax sx (Zpos m) e loc_Exact
    = S754_finite sx p (d + e - 53)
    /\ Zpos (digits2_pos p) = 53.
Proof.
  intros d Hd Hlo Hhi Hbit.
  pose proof (digits2_bounds m) as [Dl Du]. fold d in Dl, Du.
  unfold binary_round_aux, shr_fexp.
  change (Zdigits2 (Zpos m)) with d. rewrite fexp_double.
  set (n1 := Z.max (d + e - 53) (-1074) - e).
  assert (N1 : n1 = d - 53) by (unfold n1; lia).
  destruct (shr_exact (Zpos m) e n1) as (mrs1 & E1 & M1 & R1 & _); [lia|].
  rewrite E1. rewrite Z.max_l in * by lia.
  assert (Hr : shr_r mrs1 = false).
  { rewrite R1 by lia. rewrite N1.
    now replace (d - 53 - 1) with (d - 54) by lia. }
  rewrite (round_nearest_even_down mrs1 Hr), M1, N1.
  assert (Q : 2 ^ 52 <= Zpos m / 2 ^ (d - 53) < 2 ^ 53).
  { split.
    - apply Z.div_le_lower_bound; [apply Z.pow_pos_nonneg; lia|].
      rewrite <- Z.pow_add_r by lia.
      now replace (d - 53 + 52) with (d - 1) by lia.
    - replace 53 with (d - (d - 53)) at 2 by lia.
      apply div_pow2_lt; lia. }
  destruct (Zpos m / 2 ^ (d - 53)) as [|p|p] eqn:Ep;
    [change (2 ^ 52) with 4503599627370496 in Q; lia| |lia].
  assert (Dp : Zpos (digits2_pos p) = 53).
  { apply Z.le_antisymm; [apply digits2_le; lia|].
    destruct (Z.le_gt_cases 53 (Zpos (digits2_pos p))); [assumption|].
    assert (Zpos p < 2 ^ 52) by (apply digits2_lt; lia). lia. }
  rewrite fexp_double. cbn [Zdigits2]. rewrite Dp.
  replace (Z.max (53 + (e + (d - 53)) - 53) (-1074) - (e + (d - 53)))
    with 0 by lia.
  cbn [shr shr_record_of_loc shr_m].
  exists p. split; [|exact Dp].
  replace (e + (d - 53)) with (d + e - 53) by lia.
  destruct (Z.leb_spec (d + e - 53) (emax - prec)) as [_|C];
    [reflexivity|].
  change (emax - prec) with 971 in C. lia.
Qed.

(** *** Aligning mantissas *)

Lemma iter_xO (m : positive) (k : positive) :
  Zpos (Pos.iter xO m k) = Zpos m * 2 ^ Zpos k
  /\ Zpos (digits2_pos (Pos.iter xO m k)) = Zpos (digits2_pos m) + Zpos k.
Proof.
  induction k as [|k IH] using Pos.peano_ind.
  - simpl. split; lia.
  - rewrite Pos.iter_succ. destruct IH as [IH1 IH2].
    cbn [digits2_pos]. rewrite !Pos2Z.inj_succ, Pos2Z.inj_xO, IH1, IH2.
    rewrite Z.pow_succ_r by lia. split; lia.
Qed.

Lemma shl_align_spec (m : positive) (e e' : Z) :
  let k := Z.max (e - e') 0 in
  Zpos (fst (shl_align m e e')) = Zpos m * 2 ^ k
  /\ Zpos (digits2_pos (fst (shl_align m e e')))
     = Zpos (digits2_pos m) + k
  /\ snd (shl_align m e e') = e - k.
Proof.
  intros k. unfold shl_align.
  destruct (e' - e) as [|p|p] eqn:E; cbn [fst snd].
  - replace k with 0 by (unfold k; lia). repeat split; lia.
  - replace k with 0 by (unfold k; lia). repeat split; lia.
  - replace k with (Zpos p) by (unfold k; lia).
    destruct (iter_xO m p) as [H1 H2]. repeat split; try assumption. lia.
Qed.

(** Rounding a positive integer mantissa: the shape of the result. *)
Lemma binary_round_shape (sx : bool) (m : positive) (e : Z) :
  exists m2 e2,
    binary_round prec emax sx m e
    = rounded sx m2 e2
    /\ 0 <= m2 < 2 ^ 53
    /\ (0 < m2 -> Zdigits2 m2 + e2 <= Zpos (digits2_pos m) + e + 1).
Proof.
  unfold binary_round.
  pose proof (shl_align_spec m e
                (fexp prec emax (Zpos (digits2_pos m) + e))) as (_ & D & S).
  destruct (shl_align m e _) as [mz ez]. cbn [fst snd] in D, S.
  destruct (round_aux_shape sx mz ez) as (m2 & e2 & E & B & G).
  exists m2, e2. split; [exact E|]. split; [exact B|].
  intros H. specialize (G H). lia.
Qed.

End Rounding.

(** *** Differences, squares and sums *)

Section Arithmetic.
Import Number.
#[local] Open Scope Z_scope.

Lemma rounded_nonneg (m2 e2 : Z) :
  0 <= m2 -> nonneg (rounded false m2 e2) = true.
Proof.
  intros H. unfold rounded. destruct m2 as [|p|p]; [reflexivity| |lia].
  destruct (e2 <=? 971); reflexivity.
Qed.

Lemma rounded_narrow (sx : bool) (m2 e2 : Z) :
  m2 < 2 ^ 53 -> narrow (rounded sx m2 e2).
Proof.
  intros H. unfold rounded. destruct m2 as [|p|p]; try exact I.
  destruct (e2 <=? 971); [|exact I]. cbn [narrow].
  apply digits2_le; lia.
Qed.

Lemma rounded_below (k m2 e2 : Z) :
  k <= 972 -> 0 <= m2 < 2 ^ 53 -> (0 < m2 -> Zdigits2 m2 + e2 <= k) ->
  below k (rounded false m2 e2).
Proof.
  intros Hk [H0 H1] G. unfold rounded. destruct m2 as [|p|p];
    [exact I| |lia].
  specialize (G (Pos2Z.is_pos p)). cbn [Zdigits2] in G.
  pose proof (Pos2Z.is_pos (digits2_pos p)).
  destruct (Z.leb_spec e2 971) as [_|C]; [|lia].
  cbn [below]. split; [apply digits2_le; lia|exact G].
Qed.

Lemma below_mono (k k' : Z) (x : number) :
  k <= k' -> below k x -> below k' x.
Proof.
  intros H. destruct x as [[|]|[|]| |[|] m e]; cbn [below]; try tauto. lia.
Qed.

Lemma below_nonneg (k : Z) (x : number) : below k x -> nonneg x = true.
Proof.
  destruct x as [[|]|[|]| |[|] m e]; cbn [below]; try tauto; reflexivity.
Qed.

Lemma below_lt_infinity (k : Z) (x : number) :
  below k x -> lt x infinity = true.
Proof.
  destruct x as [[|]|[|]| |[|] m e]; cbn [below]; try tauto; reflexivity.
Qed.

Lemma double_cases (x : number) :
  is_double x = true ->
  match x with
  | S754_zero _ => True
  | S754_finite _ m e => Zpos (digits2_pos m) <= 53
  | _ => False
  end.
Proof.
  unfold is_double. destruct x as [s|s| |s m e]; try exact (fun _ => I);
    try (rewrite andb_false_r; discriminate).
  rewrite andb_true_r. cbn [valid_binary]. unfold bounded, canonical_mantissa.
  intros H. apply andb_prop in H as [H _]. apply Z.eqb_eq in H.
  rewrite fexp_double in H. lia.
Qed.

(** *** Rounding does not look at the sign *)

Lemma abs_binary_round (s s' : bool) (m : positive) (e : Z) :
  abs (binary_round prec emax s m e) = abs (binary_round prec emax s' m e).
Proof.
  unfold binary_round. destruct (shl_align m e _) as [mz ez].
  unfold binary_round_aux. destruct (shr_fexp _ _ _ _ _) as [mrs1 e1].
  destruct (shr_fexp _ _ _ _ _) as [mrs2 e2].
  destruct (shr_m mrs2); [reflexivity| |reflexivity].
  destruct (e2 <=? emax - prec); reflexivity.
Qed.

Lemma abs_binary_normalize (z e : Z) :
  abs (binary_normalize prec emax (- z) e false)
  = abs (binary_normalize prec emax z e false).
Proof.
  destruct z as [|p|p]; cbn [Z.opp binary_normalize]; [reflexivity| |];
    apply abs_binary_round.
Qed.

Lemma normalize_cases (z e : Z) :
  nonneg (abs (binary_normalize prec emax z e false)) = true
  /\ narrow (abs (binary_normalize prec emax z e false)).
Proof.
  destruct z as [|p|p]; cbn [binary_normalize]; [split; [reflexivity|exact I]| |].
  - destruct (binary_round_shape false p e) as (m2 & e2 & E & B & _).
    rewrite E. unfold rounded. destruct m2 as [|q|q]; [split; [reflexivity|exact I]| |lia].
    destruct (e2 <=? 971); cbn [abs SFabs nonneg narrow];
      (split; [reflexivity|]); [apply digits2_le; lia|exact I].
  - destruct (binary_round_shape true p e) as (m2 & e2 & E & B & _).
    rewrite E. unfold rounded. destruct m2 as [|q|q]; [split; [reflexivity|exact I]| |lia].
    destruct (e2 <=? 971); cbn [abs SFabs nonneg narrow];
      (split; [reflexivity|]); [apply digits2_le; lia|exact I].
Qed.

(** *** The distance of two tempos *)

Lemma gap_shape (a b : number) :
  is_double a = true -> is_double b = true ->
  nonneg (abs (sub a b)) = true /\ narrow (abs (sub a b)).
Proof.
  intros Ha Hb. apply double_cases in Ha, Hb.
  destruct a as [sa|sa| |sa ma ea]; try contradiction;
    destruct b as [sb|sb| |sb mb eb]; try contradiction.
  - destruct sa, sb; split; first [reflexivity|exact I].
  - split; [reflexivity|exact Hb].
  - split; [reflexivity|exact Ha].
  - apply normalize_cases.
Qed.

Lemma gap_sym (a b : number) :
  is_double a = true -> is_double b = true ->
  abs (sub a b) = abs (sub b a).
Proof.
  intros Ha Hb. apply double_cases in Ha, Hb.
  destruct a as [sa|sa| |sa ma ea]; try contradiction;
    destruct b as [sb|sb| |sb mb eb]; try contradiction.
  - destruct sa, sb; reflexivity.
  - reflexivity.
  - reflexivity.
  - unfold sub, SFsub. rewrite (Z.min_comm eb ea).
    rewrite <- abs_binary_normalize. f_equal. f_equal. lia.
Qed.


Lemma of_Z_20 : of_Z 20 = S754_finite false 5629499534213120 (-48).
Proof. reflexivity. Qed.

(** A distance that is not above 20 is below [2 ^ 5]. *)
Lemma gap_small (g : number) :
  nonneg g = true -> narrow g -> lt (of_Z 20) g = false -> below 5 g.
Proof.
  rewrite of_Z_20.
  destruct g as [[|]|[|]| |[|] m e]; cbn [nonneg narrow below];
    try discriminate; try (intros; exact I).
  intros _ Hn. unfold lt, SFltb, SFcompare.
  destruct (Z.compare_spec (-48) e) as [E|E|E]; cbv beta iota;
    try discriminate; intros _; split; try assumption. all: lia.
Qed.

(** *** Squares *)

Lemma digits2_mul (m n : positive) :
  Zpos (digits2_pos (m * n))
  <= Zpos (digits2_pos m) + Zpos (digits2_pos n).
Proof.
  pose proof (digits2_bounds m) as [_ Hm].
  pose proof (digits2_bounds n) as [_ Hn].
  apply digits2_le.
  rewrite Pos2Z.inj_mul, Z.pow_add_r by lia.
  apply Z.mul_lt_mono_nonneg; lia.
Qed.

Lemma sq_nonneg (d : number) : nonneg d = true -> nonneg (mul d d) = true.
Proof.
  destruct d as [[|]|[|]| |[|] m e]; try discriminate; try reflexivity.
  intros _. unfold mul, SFmul. cbn [xorb].
  destruct (round_aux_shape false (m * m) (e + e)) as (m2 & e2 & E & B & _).
  rewrite E. apply rounded_nonneg. lia.
Qed.

Lemma sq_below (d : number) : below 5 d -> below 11 (mul d d).
Proof.
  destruct d as [[|]|[|]| |[|] m e]; cbn [below]; try tauto.
  intros [Hd He]. unfold mul, SFmul. cbn [xorb].
  destruct (round_aux_shape false (m * m) (e + e)) as (m2 & e2 & E & B & G).
  rewrite E. apply rounded_below; [lia|exact B|].
  intros H. specialize (G H). pose proof (digits2_mul m m). lia.
Qed.

(** *** Sums *)

Lemma add_nonneg (x y : number) :
  nonneg x = true -> nonneg y = true -> nonneg (add x y) = true.
Proof.
  destruct x as [[|]|[|]| |[|] mx ex]; try discriminate;
    destruct y as [[|]|[|]| |[|] my ey]; try discriminate;
    try reflexivity.
  intros _ _. unfold add, SFadd. cbn [cond_Zopp].
  rewrite <- Pos2Z.inj_add. cbn [binary_normalize].
  destruct (binary_round_shape false
              (fst (shl_align mx ex (Z.min ex ey))
               + fst (shl_align my ey (Z.min ex ey)))
              (Z.min ex ey)) as (m2 & e2 & E & B & _).
  rewrite E. apply rounded_nonneg. lia.
Qed.


Lemma digits2_eq (p : positive) (d : Z) :
  2 ^ (d - 1) <= Zpos p < 2 ^ d -> Zpos (digits2_pos p) = d.
Proof.
  intros [L U]. apply Z.le_antisymm; [now apply digits2_le|].
  destruct (Z.le_gt_cases d (Zpos (digits2_pos p))) as [|G]; [assumption|].
  assert (Zpos p < 2 ^ (d - 1)) by (apply digits2_lt; lia). lia.
Qed.

Lemma testbit_low (a b k i : Z) :
  0 <= i < k -> 0 <= b < 2 ^ k ->
  Z.testbit (a * 2 ^ k + b) i = Z.testbit b i.
Proof.
  intros Hi Hb.
  rewrite <- (Z.mod_pow2_bits_low (a * 2 ^ k + b) k i) by lia.
  rewrite Z.add_comm, Z.mod_add by (apply Z.pow_nonzero; lia).
  now rewrite Z.mod_small.
Qed.

(** Adding a term below [2 ^ 11] to a sum below [2 ^ 66] leaves the sum
    below [2 ^ 66]: once the sum has reached [2 ^ 64] the term is less
    than half a unit in its last place and is rounded away. *)
Lemma add_below (s q : number) :
  below 66 s -> below 11 q -> below 66 (add s q).
Proof.
  destruct s as [[|]|[|]| |[|] ms es]; cbn [below]; try tauto;
    destruct q as [[|]|[|]| |[|] mq eq]; cbn [below]; try tauto.
  - intros _ H. change (below 66 (S754_finite false mq eq)).
    cbn [below]. lia.
  - intros H _. exact H.
  - intros [Ds Ms] [Dq Mq]. unfold add, SFadd. cbn [cond_Zopp].
    rewrite <- Pos2Z.inj_add. cbn [binary_normalize].
    set (ez := Z.min es eq).
    pose proof (shl_align_spec ms es ez) as (As & Ad & _).
    pose proof (shl_align_spec mq eq ez) as (Bs & Bd & _).
    set (A := fst (shl_align ms es ez)) in *.
    set (B := fst (shl_align mq eq ez)) in *.
    cbv zeta in As, Ad, Bs, Bd.
    pose proof (Pos2Z.is_pos (digits2_pos ms)) as Ps.
    pose proof (Pos2Z.is_pos (digits2_pos mq)) as Pq.
    destruct (Z.le_gt_cases (Zpos (digits2_pos ms) + es) 64) as [Lo|Hi].
    + (* the sum is still small: one more digit at most *)
      assert (HA : Zpos A < 2 ^ (64 - ez))
        by (apply digits2_lt; unfold ez in *; lia).
      assert (HB : Zpos B < 2 ^ (64 - ez))
        by (apply digits2_lt; unfold ez in *; lia).
      assert (HS : Zpos (digits2_pos (A + B)) <= 65 - ez).
      { apply digits2_le. rewrite Pos2Z.inj_add.
        replace (65 - ez) with (Z.succ (64 - ez)) by lia.
        rewrite Z.pow_succ_r by (unfold ez in *; lia). lia. }
      destruct (binary_round_shape false (A + B) ez)
        as (m2 & e2 & E & Bm & G).
      rewrite E. apply rounded_below; [lia|exact Bm|].
      intros H. specialize (G H). lia.
    + (* the sum is large: the term is rounded away *)
      set (ks := es - eq).
      set (ds := Zpos (digits2_pos ms)) in *.
      assert (Ez : ez = eq) by (unfold ez; lia).
      assert (As' : Zpos A = Zpos ms * 2 ^ ks).
      { rewrite As. f_equal. f_equal. unfold ks. lia. }
      assert (Bs' : Zpos B = Zpos mq).
      { rewrite Bs. replace (Z.max (eq - ez) 0) with 0 by lia.
        rewrite Z.pow_0_r. lia. }
      clearbody A B. clear As Ad Bs Bd. rewrite Ez. clear Ez ez.
      pose proof (digits2_bounds ms) as [Ls Us]. fold ds in Ls, Us.
      assert (Uq : Zpos mq < 2 ^ (11 - eq)) by (apply digits2_lt; lia).
      assert (Pk : 2 ^ (11 - eq) <= 2 ^ ks)
        by (apply Z.pow_le_mono_r; unfold ks; lia).
      assert (P0 : 0 < 2 ^ ks) by (apply Z.pow_pos_nonneg; unfold ks; lia).
      assert (DM : Zpos (digits2_pos (A + B)) = ds + ks).
      { apply digits2_eq. rewrite Pos2Z.inj_add, As', Bs'.
        replace (ds + ks - 1) with (ds - 1 + ks) by lia.
        rewrite !Z.pow_add_r by (unfold ks; lia). nia. }
      unfold binary_round. rewrite DM, fexp_double.
      pose proof (shl_align_spec (A + B) eq
                    (Z.max (ds + ks + eq - 53) (-1074))) as (Ms' & _ & Es').
      destruct (shl_align (A + B) eq _) as [mz ez'].
      cbn [fst snd] in Ms', Es'.
      rewrite Z.max_r in Ms', Es' by (unfold ks; lia).
      rewrite Z.pow_0_r, Z.mul_1_r in Ms'. apply Pos2Z.inj in Ms'.
      rewrite Z.sub_0_r in Es'. subst mz ez'.
      destruct (round_aux_down false (A + B) eq) as (p & E & Dp).
      * rewrite DM. unfold ks. lia.
      * rewrite DM. unfold ks. lia.
      * rewrite DM. unfold ks. lia.
      * rewrite DM, Pos2Z.inj_add, As', Bs'.
        rewrite testbit_low by (unfold ks in *; lia).
        apply (testbit_above (Zpos mq) (11 - eq)); [lia|].
        unfold ks. lia.
      * rewrite E. cbn [below]. rewrite Dp, DM. unfold ks. lia.
Qed.

End Arithmetic.


(* ================================================================== *)
(** ** Key-label resolution *)
(* ================================================================== *)

Section ResolveFacts.
Import JsString Camelot Spec.

Lemma own_property_In (key : string) (m : list (string * CamelotKey))
      (v : CamelotKey) :
  own_property key m = Some v -> In (key, v) m.
Proof.
  induction m as [|[k w] m IH]; simpl; [discriminate|].
  destruct (String.eqb_spec k key) as [->|_].
  - intros [= ->]. now left.
  - intros H. right. now apply IH.
Qed.

Lemma scan_lower_find (lower : string) (m : list (string * CamelotKey)) :
  scan_lower lower m
  = option_map OwnKey
      (option_map snd
         (find (fun e => String.eqb (toLowerCase (fst e)) lower) m)).
Proof.
  induction m as [|[k w] m IH]; simpl; [reflexivity|].
  destruct (String.eqb (toLowerCase k) lower); [reflexivity | exact IH].
Qed.

(** Every label of the table is already trimmed and resolves to its own
    entry: no two labels of the table are equal up to case. *)
Lemma table_labels_resolve :
  Forall (fun e => trim (fst e) = fst e
                   /\ spec_resolve (fst e) = Some (snd e)) CAMELOT_MAP.
Proof.
  unfold CAMELOT_MAP.
  repeat (constructor; [vm_compute; split; reflexivity|]).
  constructor.
Qed.

Lemma prototype_keys_trimmed :
  Forall (fun p => trim p = p) Object_prototype_keys.
Proof.
  unfold Object_prototype_keys.
  repeat (constructor; [vm_compute; reflexivity|]).
  constructor.
Qed.

Lemma own_property_resolves (key : string) (v : CamelotKey) :
  own_property key CAMELOT_MAP = Some v ->
  trim key = key /\ spec_resolve key = Some v.
Proof.
  intros H. apply own_property_In in H.
  pose proof table_labels_resolve as T.
  rewrite Forall_forall in T. exact (T _ H).
Qed.

Lemma inherited_key_trimmed (key : string) :
  existsb (String.eqb key) Object_prototype_keys = true -> trim key = key.
Proof.
  intros H. apply existsb_exists in H as (p & Hp & E).
  apply String.eqb_eq in E. subst p.
  pose proof prototype_keys_trimmed as T.
  rewrite Forall_forall in T. exact (T _ Hp).
Qed.

Lemma spec_resolve_trim (label : string) :
  trim (trim label) = trim label ->
  spec_resolve (trim label) = spec_resolve label.
Proof. unfold spec_resolve. now intros ->. Qed.

(** Away from the property names of [Object.prototype], the function is
    the case-insensitive, trimmed lookup of the specification. *)
Lemma musicalKeyToCamelot_resolve (label : string) :
  existsb (String.eqb (trim label)) Object_prototype_keys = false ->
  musicalKeyToCamelot label = option_map OwnKey (spec_resolve label).
Proof.
  intros Hproto. unfold musicalKeyToCamelot, get_property.
  destruct (own_property label CAMELOT_MAP) as [v|] eqn:Hd.
  { apply own_property_resolves in Hd as [_ ->]. reflexivity. }
  destruct (existsb (String.eqb label) Object_prototype_keys) eqn:Hp.
  { pose proof (inherited_key_trimmed _ Hp) as Ht.
    rewrite Ht in Hproto. congruence. }
  destruct (own_property (trim label) CAMELOT_MAP) as [v|] eqn:Hn.
  { apply own_property_resolves in Hn as [Ht Hr].
    rewrite (spec_resolve_trim _ Ht) in Hr. now rewrite Hr. }
  rewrite Hproto. apply scan_lower_find.
Qed.

(** The scenarios of section 8. *)
Lemma musicalKeyToCamelot_scenarios :
  musicalKeyToCamelot "C major" = Some (OwnKey K8B)
  /\ musicalKeyToCamelot "A minor" = Some (OwnKey K8A)
  /\ musicalKeyToCamelot "F# major" = Some (OwnKey K2B)
  /\ musicalKeyToCamelot "invalid" = None
  /\ musicalKeyToCamelot "  c MAJOR " = Some (OwnKey K8B).
Proof. vm_compute. repeat split. Qed.

(** C7, at the label ["constructor"]: it is no own property of the table
    and the specification's lookup finds no mapping for it, yet
    [CAMELOT_MAP[key]] finds the inherited [Object.prototype.constructor],
    a truthy value, and [musicalKeyToCamelot] returns it instead of
    [null]. *)
Theorem musicalKeyToCamelot_inherited_property :
  own_property "constructor" CAMELOT_MAP = None
  /\ spec_resolve "constructor" = None
  /\ musicalKeyToCamelot "constructor" = Some (Inherited "constructor").
Proof. vm_compute. repeat split. Qed.

End ResolveFacts.

(* ================================================================== *)
(** ** Transitions *)
(* ================================================================== *)

Section TransitionFacts.
Import Camelot Ordering Spec Rounded.

Lemma isTrackAnalyzed_true (t : Track) :
  isTrackAnalyzed t = true <->
  exists b k, bpm t = Some b /\ camelotKey t = Some k.
Proof.
  unfold isTrackAnalyzed, not_null.
  destruct (bpm t) as [b|], (camelotKey t) as [k|]; simpl; split;
    try discriminate; try (intros (? & ? & ? & ?); discriminate).
  - intros _. now exists b, k.
  - reflexivity.
Qed.

Lemma isTrackAnalyzed_analyzed (t : Track) :
  isTrackAnalyzed t = true <-> analyzed t.
Proof.
  unfold isTrackAnalyzed, analyzed, not_null.
  destruct (bpm t), (camelotKey t); simpl; intuition congruence.
Qed.

(** *** The computed tempo difference *)

Lemma to_number_double (x : option Number.Double) :
  Number.is_double (to_number x) = true.
Proof. destruct x as [d|]; [apply Number.repr_double | reflexivity]. Qed.

Lemma distance_nonneg (x y : Number.number) :
  Number.is_double x = true -> Number.is_double y = true ->
  Number.nonneg (distance x y) = true.
Proof. intros Hx Hy. now apply gap_shape. Qed.

Lemma distance_not_nan (x y : Number.number) :
  Number.is_double x = true -> Number.is_double y = true ->
  Number.is_nan (distance x y) = false.
Proof. intros Hx Hy. now apply nonneg_not_nan, distance_nonneg. Qed.

Lemma bpm_abs_diff_distance (a b : Track) :
  bpm_abs_diff a b = distance (to_number (bpm a)) (to_number (bpm b)).
Proof. reflexivity. Qed.

Lemma bpm_abs_diff_tempo_diff (a b : Track) :
  bpm_abs_diff a b = tempo_diff a b.
Proof. reflexivity. Qed.

Lemma bpm_abs_diff_nonneg (a b : Track) :
  Number.nonneg (bpm_abs_diff a b) = true.
Proof. apply distance_nonneg; apply to_number_double. Qed.

Lemma bpm_abs_diff_not_nan (a b : Track) :
  Number.is_nan (bpm_abs_diff a b) = false.
Proof. apply nonneg_not_nan, bpm_abs_diff_nonneg. Qed.

Lemma bpm_abs_diff_comm (a b : Track) : bpm_abs_diff a b = bpm_abs_diff b a.
Proof. apply gap_sym; apply to_number_double. Qed.

(** [d > 20] is false exactly when [d <= 20]: a difference is no NaN. *)
Lemma within_limit (a b : Track) :
  Number.lt MAX_BPM_DIFFERENCE (bpm_abs_diff a b)
  = negb (Number.le (bpm_abs_diff a b) (Number.of_Z 20)).
Proof.
  rewrite number_le_lt by (apply bpm_abs_diff_not_nan || reflexivity).
  now rewrite negb_involutive.
Qed.

(** A difference within the limit is below [2 ^ 5]. *)
Lemma within_limit_below (a b : Track) :
  Number.lt MAX_BPM_DIFFERENCE (bpm_abs_diff a b) = false ->
  Number.below 5 (bpm_abs_diff a b).
Proof.
  intros H. apply gap_small; [apply bpm_abs_diff_nonneg| |exact H].
  apply gap_shape; apply to_number_double.
Qed.

Lemma isTransitionCompatible_true (X Y : Track) :
  isTransitionCompatible X Y = true <-> legal X Y.
Proof.
  unfold isTransitionCompatible, legal. rewrite within_limit.
  unfold bpm_abs_diff, isTrackAnalyzed, not_null.
  destruct (bpm X) as [bx|], (camelotKey X) as [kx|],
    (bpm Y) as [by_|], (camelotKey Y) as [ky|];
    cbn [negb orb andb to_number];
    try (split; [discriminate | intros (?&?&?&?&?&?&?&?&?&?); discriminate]).
  fold (distance (Number.repr bx) (Number.repr by_)).
  destruct (Number.le (distance (Number.repr bx) (Number.repr by_))
                      (Number.of_Z 20)) eqn:E; cbn [negb].
  - split.
    + intros H. exists bx, kx, by_, ky. repeat split; assumption.
    + intros (?&?&?&?&_&[= <-]&_&[= <-]&_&H). exact H.
  - split; [discriminate|].
    intros (?&?&?&?&[= <-]&_&[= <-]&_&L&_). congruence.
Qed.

Lemma legal_sym (X Y : Track) : legal X Y -> legal Y X.
Proof.
  intros (bx & kx & by_ & ky & H1 & H2 & H3 & H4 & L & C).
  exists by_, ky, bx, kx. repeat split; try assumption.
  - unfold distance in *.
    now rewrite gap_sym by apply Number.repr_double.
  - now rewrite isCamelotCompatible_sym.
Qed.

Lemma isTransitionCompatible_sym (X Y : Track) :
  isTransitionCompatible X Y = isTransitionCompatible Y X.
Proof.
  destruct (isTransitionCompatible X Y) eqn:E1,
    (isTransitionCompatible Y X) eqn:E2; try reflexivity.
  - apply isTransitionCompatible_true, legal_sym,
      isTransitionCompatible_true in E1. congruence.
  - apply isTransitionCompatible_true, legal_sym,
      isTransitionCompatible_true in E2. congruence.
Qed.

Lemma legal_analyzed (X Y : Track) :
  legal X Y -> isTrackAnalyzed X = true /\ isTrackAnalyzed Y = true.
Proof.
  intros (bx & kx & by_ & ky & H1 & H2 & H3 & H4 & _).
  split; apply isTrackAnalyzed_true; eauto.
Qed.

Lemma legalb_isTransitionCompatible (X Y : Track) :
  legalb X Y = isTransitionCompatible X Y.
Proof.
  unfold legalb, isTransitionCompatible. rewrite within_limit.
  unfold bpm_abs_diff, isTrackAnalyzed, not_null.
  destruct (bpm X) as [bx|], (camelotKey X) as [kx|],
    (bpm Y) as [by_|], (camelotKey Y) as [ky|];
    cbn [negb orb andb to_number]; try reflexivity.
  fold (distance (Number.repr bx) (Number.repr by_)).
  destruct (Number.le _ _); reflexivity.
Qed.

(** The real numbers [0.1] and [20.1] stand for are more than 20 apart:
    no legal transition in the real numbers. *)
Lemma slow_real_difference :
  (20 < Qabs (Spec.tempo Samples.slow - Spec.tempo Samples.slow20))%Q.
Proof.
  apply Qnot_le_lt. intros L. apply Qle_bool_iff in L.
  vm_compute in L. discriminate.
Qed.

Lemma slow_not_legal : ~ Spec.legal Samples.slow Samples.slow20.
Proof.
  intros (bx & kx & by_ & ky & H1 & _ & H3 & _ & L & _).
  pose proof slow_real_difference as G.
  assert (E1 : Spec.tempo Samples.slow = Spec.real bx)
    by (unfold Spec.tempo; now rewrite H1).
  assert (E3 : Spec.tempo Samples.slow20 = Spec.real by_)
    by (unfold Spec.tempo; now rewrite H3).
  rewrite E1, E3 in G. exact (Qlt_not_le _ _ G L).
Qed.

(** C4, with the tempo difference computed in binary64:
    [isTransitionCompatible] holds exactly when both tracks are analyzed,
    the difference that the subtraction gives is at most 20 and the keys
    are compatible; a computed difference of exactly 20 passes and one of
    21 does not; the value is symmetric. *)
Theorem isTransitionCompatible_exact (X Y : Track) :
  (isTransitionCompatible X Y = true <->
   exists bx kx by_ ky,
     bpm X = Some bx /\ camelotKey X = Some kx
     /\ bpm Y = Some by_ /\ camelotKey Y = Some ky
     /\ Number.le (Number.abs (Number.sub (Number.repr bx)
                                          (Number.repr by_)))
                  (Number.of_Z 20) = true
     /\ isCamelotCompatible kx ky = true)
  /\ isTransitionCompatible X Y = isTransitionCompatible Y X
  /\ (forall i j b b' k,
        (Number.abs (Number.sub (Number.repr b) (Number.repr b'))
         = Number.of_Z 20 ->
         isTransitionCompatible (mkTrack i (Some b) (Some k))
                                (mkTrack j (Some b') (Some k)) = true)
        /\ (Number.abs (Number.sub (Number.repr b) (Number.repr b'))
            = Number.of_Z 21 ->
            isTransitionCompatible (mkTrack i (Some b) (Some k))
                                   (mkTrack j (Some b') (Some k))
            = false)).
Proof.
  split; [exact (isTransitionCompatible_true X Y)|].
  split; [apply isTransitionCompatible_sym|].
  intros i j b b' k.
  assert (K : isCamelotCompatible k k = true).
  { unfold isCamelotCompatible. now rewrite getKeyCompatibilityType_refl. }
  split; intros E.
  - apply isTransitionCompatible_true.
    exists b, k, b', k. repeat split; try assumption.
    unfold distance. now rewrite E.
  - destruct (isTransitionCompatible _ _) eqn:C; [|reflexivity].
    apply isTransitionCompatible_true in C.
    destruct C as (?&?&?&?&[= <-]&_&[= <-]&_&L&_).
    unfold distance in L. rewrite E in L. discriminate.
Qed.

(** C4 with the real tempo difference does not hold.  At the tempos
    [0.1] and [20.1] with one key the real difference is above 20 and the
    transition is not legal, yet the subtraction gives exactly 20 and
    [isTransitionCompatible] is true. *)
Lemma isTransitionCompatible_real_difference :
  isTransitionCompatible Samples.slow Samples.slow20 = true
  /\ bpm_abs_diff Samples.slow Samples.slow20 = Number.of_Z 20
  /\ (20 < Qabs (Spec.tempo Samples.slow - Spec.tempo Samples.slow20))%Q
  /\ ~ Spec.legal Samples.slow Samples.slow20.
Proof.
  split; [vm_compute; reflexivity|].
  split; [vm_compute; reflexivity|].
  split; [exact slow_real_difference | exact slow_not_legal].
Qed.

(** *** Quality tiers *)

Lemma lt_of_Z_chain (d : Number.number) (lo hi : Z) :
  Number.lt (Number.of_Z hi) (Number.of_Z lo) = false ->
  Number.lt d (Number.of_Z lo) = true ->
  Number.lt (Number.of_Z hi) d = false.
Proof.
  intros H L. destruct (Number.lt (Number.of_Z hi) d) eqn:E;
    [|reflexivity].
  rewrite (number_lt_trans _ _ _ E L) in H. discriminate.
Qed.

(** C6, with the tempo difference computed in binary64: the quality tiers
    of a transition between analyzed tracks, by the difference [d] that
    the subtraction gives and the key classification [c]; and the record
    [createTransition] builds when an endpoint is unanalyzed. *)
Theorem calculateTransitionQuality_tiers (X Y : Track) :
  (forall bx kx by_ ky,
      bpm X = Some bx -> camelotKey X = Some kx ->
      bpm Y = Some by_ -> camelotKey Y = Some ky ->
      let d := Number.abs (Number.sub (Number.repr bx)
                                      (Number.repr by_)) in
      let c := getKeyCompatibilityType kx ky in
      (c = incompatible \/ Number.lt (Number.of_Z 20) d = true ->
       calculateTransitionQuality X Y = poor)
      /\ (c <> incompatible -> Number.lt d (Number.of_Z 5) = true ->
          calculateTransitionQuality X Y = excellent)
      /\ (c <> incompatible -> Number.le (Number.of_Z 5) d = true ->
          Number.lt d (Number.of_Z 10) = true ->
          calculateTransitionQuality X Y = good)
      /\ (c <> incompatible -> Number.le (Number.of_Z 10) d = true ->
          Number.le d (Number.of_Z 20) = true ->
          calculateTransitionQuality X Y = fair)
      /\ bpmDifference (createTransition X Y) = d
      /\ keyCompatibility (createTransition X Y) = c
      /\ quality (createTransition X Y) = calculateTransitionQuality X Y)
  /\ (isTrackAnalyzed X = false \/ isTrackAnalyzed Y = false ->
      calculateTransitionQuality X Y = poor
      /\ bpmDifference (createTransition X Y) = Number.infinity
      /\ keyCompatibility (createTransition X Y) = incompatible
      /\ quality (createTransition X Y) = poor).
Proof.
  split.
  - intros bx kx by_ ky Hbx Hkx Hby Hky d c.
    assert (Hd : Number.is_nan d = false)
      by (apply distance_not_nan; apply Number.repr_double).
    rewrite !(number_le_lt _ _) by (exact Hd || reflexivity).
    rewrite !negb_true_iff.
    unfold createTransition, calculateTransitionQuality, isTrackAnalyzed,
      bpm_abs_diff, MAX_BPM_DIFFERENCE, not_null.
    rewrite Hbx, Hkx, Hby, Hky. simpl.
    fold d. fold c.
    assert (C5 : Number.lt d (Number.of_Z 5) = true ->
                 Number.lt (Number.of_Z 20) d = false)
      by (apply lt_of_Z_chain; reflexivity).
    assert (C10 : Number.lt d (Number.of_Z 10) = true ->
                  Number.lt (Number.of_Z 20) d = false)
      by (apply lt_of_Z_chain; reflexivity).
    assert (C510 : Number.lt d (Number.of_Z 5) = true ->
                   Number.lt d (Number.of_Z 10) = true)
      by (intros L; apply (number_lt_trans _ _ _ L); reflexivity).
    destruct (Number.lt (Number.of_Z 20) d) eqn:E20;
      destruct (Number.lt d (Number.of_Z 5)) eqn:E5;
      destruct (Number.lt d (Number.of_Z 10)) eqn:E10;
      destruct c; repeat split; intros; try reflexivity;
      try congruence;
      try (specialize (C5 eq_refl); discriminate);
      try (specialize (C10 eq_refl); discriminate);
      try (specialize (C510 eq_refl); discriminate);
      try (match goal with H : _ \/ _ |- _ => destruct H end;
           discriminate).
  - intros H.
    unfold createTransition, calculateTransitionQuality.
    assert (E : negb (isTrackAnalyzed X) || negb (isTrackAnalyzed Y) = true).
    { destruct H as [-> | ->]; simpl; [reflexivity | apply orb_true_r]. }
    assert (F : isTrackAnalyzed X && isTrackAnalyzed Y = false).
    { destruct H as [-> | ->]; simpl; [reflexivity | apply andb_false_r]. }
    rewrite E, F. repeat split.
Qed.

(** C6 with the real tempo difference does not hold.  At the tempos
    [0.1] and [5.1] with one key the real difference is below 5, yet the
    subtraction gives exactly 5 and the quality is good, not excellent;
    at [0.1] and [20.1] the real difference is above 20, yet the quality
    is fair, not poor. *)
Lemma calculateTransitionQuality_real_difference :
  ((Qabs (Spec.tempo Samples.slow - Spec.tempo Samples.slow5) < 5)%Q
   /\ getKeyCompatibilityType K8A K8A = same
   /\ bpmDifference (createTransition Samples.slow Samples.slow5)
      = Number.of_Z 5
   /\ calculateTransitionQuality Samples.slow Samples.slow5 = good)
  /\ ((20 < Qabs (Spec.tempo Samples.slow - Spec.tempo Samples.slow20))%Q
      /\ calculateTransitionQuality Samples.slow Samples.slow20 = fair).
Proof.
  split; [split; [|vm_compute; repeat split]|].
  - apply Qnot_le_lt. intros L. apply Qle_bool_iff in L.
    vm_compute in L. discriminate.
  - split; [exact slow_real_difference | vm_compute; reflexivity].
Qed.

End TransitionFacts.

(* ================================================================== *)
(** ** Lists, and choosing the first best element *)
(* ================================================================== *)

Section ListFacts.
Context {A : Type}.
Local Open Scope nat_scope.

Lemma filter_and (f g : A -> bool) (l : list A) :
  filter g (filter f l) = filter (fun x => f x && g x) l.
Proof.
  induction l as [|x l IH]; simpl; [reflexivity|].
  destruct (f x); simpl; [destruct (g x)|]; now rewrite IH.
Qed.

Lemma filter_length_le (f : A -> bool) (l : list A) :
  length (filter f l) <= length l.
Proof.
  induction l as [|x l IH]; simpl; [lia|]. destruct (f x); simpl; lia.
Qed.

Lemma filter_length_lt (f : A -> bool) (l : list A) (x : A) :
  In x l -> f x = false -> length (filter f l) < length l.
Proof.
  induction l as [|y l IH]; simpl; [tauto|].
  intros [->|Hin] Hf.
  - rewrite Hf. pose proof (filter_length_le f l). lia.
  - specialize (IH Hin Hf). destruct (f y); simpl; lia.
Qed.

Lemma filter_split_length (f : A -> bool) (l : list A) :
  length (filter f l) + length (filter (fun x => negb (f x)) l) = length l.
Proof.
  induction l as [|x l IH]; simpl; [reflexivity|].
  destruct (f x); simpl; lia.
Qed.

Lemma filter_nil_negb (f : A -> bool) (l : list A) :
  filter f l = [] -> filter (fun x => negb (f x)) l = l.
Proof.
  induction l as [|x l IH]; simpl; [reflexivity|].
  destruct (f x); simpl; [discriminate|]. intros H. now rewrite IH.
Qed.

Lemma filter_length_weaken (f g : A -> bool) (l : list A) :
  (forall x, In x l -> g x = true -> f x = true) ->
  length (filter g l) <= length (filter f l).
Proof.
  induction l as [|x l IH]; simpl; [lia|]. intros H.
  assert (IH' : length (filter g l) <= length (filter f l)).
  { apply IH. intros y Hy. apply H. now right. }
  destruct (g x) eqn:Eg.
  - rewrite (H x (or_introl eq_refl) Eg). simpl. lia.
  - destruct (f x); simpl; lia.
Qed.

Lemma filter_length_strict (f g : A -> bool) (l : list A) (x : A) :
  (forall y, In y l -> g y = true -> f y = true) ->
  In x l -> f x = true -> g x = false ->
  length (filter g l) < length (filter f l).
Proof.
  induction l as [|y l IH]; simpl; [tauto|]. intros H [->|Hin] Hf Hg.
  - rewrite Hf, Hg. simpl.
    assert (length (filter g l) <= length (filter f l)).
    { apply filter_length_weaken. intros z Hz. apply H. now right. }
    lia.
  - assert (IH' : length (filter g l) < length (filter f l)).
    { apply IH; try assumption. intros z Hz. apply H. now right. }
    destruct (g y) eqn:Eg.
    + rewrite (H y (or_introl eq_refl) Eg). simpl. lia.
    + destruct (f y); simpl; lia.
Qed.

Section Best.
Import Spec Loops.
Variable leb : A -> A -> bool.
Hypothesis leb_total : forall x y, leb x y = true \/ leb y x = true.
Hypothesis leb_trans :
  forall x y z, leb x y = true -> leb y z = true -> leb x z = true.

Lemma first_best_In (x : A) (l : list A) : In (first_best leb x l) (x :: l).
Proof.
  revert x. induction l as [|y r IH]; intros x; simpl; [now left|].
  destruct (leb x (first_best leb y r)); [now left|].
  right. apply IH.
Qed.

Lemma first_best_head (x : A) (l : list A) :
  leb (first_best leb x l) x = true.
Proof.
  destruct l as [|y r]; simpl.
  - destruct (leb_total x x); assumption.
  - destruct (leb x (first_best leb y r)) eqn:E.
    + destruct (leb_total x x); assumption.
    + destruct (leb_total x (first_best leb y r)); congruence.
Qed.

Lemma first_best_keep (x y : A) (r : list A) :
  leb x y = true -> first_best leb x (y :: r) = first_best leb x r.
Proof.
  intros Hxy. destruct r as [|z r']; simpl.
  - now rewrite Hxy.
  - destruct (leb y (first_best leb z r')) eqn:E.
    + now rewrite Hxy, (leb_trans _ _ _ Hxy E).
    + reflexivity.
Qed.

Lemma first_best_replace (x y : A) (r : list A) :
  leb x y = false -> first_best leb x (y :: r) = first_best leb y r.
Proof.
  intros Hxy. simpl.
  destruct (leb x (first_best leb y r)) eqn:E; [|reflexivity].
  pose proof (first_best_head y r) as Hm.
  rewrite (leb_trans _ _ _ E Hm) in Hxy. discriminate.
Qed.

(** The loop that keeps the running best computes the first best. *)
Lemma keep_best_first_best (x : A) (l : list A) :
  keep_best leb x l = first_best leb x l.
Proof.
  unfold keep_best. revert x.
  induction l as [|y r IH]; intros x; [reflexivity|].
  cbn [fold_left]. destruct (leb x y) eqn:E.
  - rewrite IH. symmetry. now apply first_best_keep.
  - rewrite IH. symmetry. now apply first_best_replace.
Qed.

(** No element of the list beats the first best, and the first best
    beats every element before it. *)
Lemma first_best_optimal (x : A) (l : list A) (y : A) :
  In y (x :: l) -> leb (first_best leb x l) y = true.
Proof.
  revert x. induction l as [|z r IH]; intros x.
  - intros [<-|[]]. simpl. destruct (leb_total x x); assumption.
  - intros Hy. simpl.
    destruct (leb x (first_best leb z r)) eqn:E.
    + destruct Hy as [<-|Hy].
      * destruct (leb_total x x); assumption.
      * exact (leb_trans _ _ _ E (IH z Hy)).
    + destruct Hy as [<-|Hy].
      * destruct (leb_total x (first_best leb z r)); congruence.
      * exact (IH z Hy).
Qed.
End Best.

(** The first best is the first occurrence of a best element: everything
  before it is beaten by it. *)
Lemma first_best_first (leb : A -> A -> bool) (x : A) (l : list A) :
exists pre post,
  x :: l = (pre ++ Spec.first_best leb x l :: post)%list
  /\ forall y, In y pre -> leb y (Spec.first_best leb x l) = false.
Proof.
revert x. induction l as [|z r IH]; intros x.
- exists [], []. split; [reflexivity | intros y []].
- destruct (IH z) as (pre & post & E & H). simpl.
  destruct (leb x (Spec.first_best leb z r)) eqn:Ex.
  + exists [], (z :: r). split; [reflexivity | intros y []].
  + exists (x :: pre), post. split; [simpl; now rewrite E|].
    intros y [<-|Hy]; [exact Ex | now apply H].
Qed.

End ListFacts.

(* ================================================================== *)
(** ** greedyPath *)
(* ================================================================== *)

Section GreedyFacts.
Import Camelot Ordering Spec Rounded Loops.
Local Open Scope nat_scope.
Local Open Scope list_scope.

(** *** The same object *)

Lemma number_eqb_eq (x y : Number.number) :
  Number.eqb x y = true <-> x = y.
Proof.
  split.
  - destruct x as [s|s| |s m e], y as [s'|s'| |s' m' e']; simpl;
      try discriminate; try reflexivity.
    + intros H. apply Bool.eqb_prop in H. now subst.
    + intros H. apply Bool.eqb_prop in H. now subst.
    + intros H. apply andb_prop in H as [H He].
      apply andb_prop in H as [Hs Hm].
      apply Bool.eqb_prop in Hs. apply Pos.eqb_eq in Hm.
      apply Z.eqb_eq in He. now subst.
  - intros <-. destruct x as [s|s| |s m e]; simpl;
      rewrite ?Bool.eqb_reflx, ?Pos.eqb_refl, ?Z.eqb_refl; reflexivity.
Qed.

(** A tempo is its number: the proof that it is finite carries nothing. *)
Lemma double_ext (d d' : Number.Double) :
  Number.repr d = Number.repr d' -> d = d'.
Proof.
  destruct d as [x Hx], d' as [y Hy]. simpl. intros <-.
  f_equal. apply UIP_dec, bool_dec.
Qed.

Lemma camelot_string_inj (a b : CamelotKey) :
  camelot_string a = camelot_string b -> a = b.
Proof. destruct a, b; (reflexivity || discriminate). Qed.

Lemma same_object_eq (a b : Track) : same_object a b = true <-> a = b.
Proof.
  split.
  - destruct a as [i x k], b as [j y l].
    unfold same_object, same_track. cbn [id bpm camelotKey].
    intros H. apply andb_prop in H as [H Hk].
    apply andb_prop in H as [Hi Hx]. apply String.eqb_eq in Hi.
    assert (x = y) as ->.
    { destruct x as [d|], y as [d'|]; try discriminate; [|reflexivity].
      apply number_eqb_eq, double_ext in Hx. now subst. }
    assert (k = l) as ->.
    { destruct k as [p|], l as [q|]; try discriminate; [|reflexivity].
      apply String.eqb_eq, camelot_string_inj in Hk. now subst. }
    now subst.
  - intros <-. destruct a as [i x k].
    unfold same_object, same_track. cbn [id bpm camelotKey].
    rewrite String.eqb_refl.
    destruct x as [d|], k as [p|]; cbn [same_bpm same_key andb];
      rewrite ?String.eqb_refl; try reflexivity;
      try (rewrite andb_true_r); now apply number_eqb_eq.
Qed.

Lemma same_object_refl (a : Track) : same_object a a = true.
Proof. now apply same_object_eq. Qed.

Lemma distinct_ids_eq (l : list Track) (a b : Track) :
  NoDup (map id l) -> In a l -> In b l -> id a = id b -> a = b.
Proof.
  induction l as [|t l IH]; simpl; [tauto|].
  intros H Ha Hb E. inversion H as [|? ? Hn Hl]; subst.
  destruct Ha as [->|Ha], Hb as [->|Hb]; try reflexivity.
  - exfalso. apply Hn. rewrite E. now apply in_map.
  - exfalso. apply Hn. rewrite <- E. now apply in_map.
  - now apply IH.
Qed.

(** Among tracks with distinct ids, the same object is the same id. *)
Lemma same_object_same_track (l : list Track) (a b : Track) :
  NoDup (map id l) -> In a l -> In b l ->
  same_object a b = same_track a b.
Proof.
  intros H Ha Hb. unfold same_track.
  destruct (String.eqb_spec (id a) (id b)) as [E|E].
  - apply same_object_eq. now apply (distinct_ids_eq l).
  - destruct (same_object a b) eqn:S; [|reflexivity].
    apply same_object_eq in S. now subst.
Qed.

(** *** The candidate loop *)

Lemma closer_total (tail u v : Track) :
  closer tail u v = true \/ closer tail v u = true.
Proof. apply number_le_total; apply bpm_abs_diff_not_nan. Qed.

Lemma closer_trans (tail u v w : Track) :
  closer tail u v = true -> closer tail v w = true ->
  closer tail u w = true.
Proof. apply number_le_trans; apply bpm_abs_diff_not_nan. Qed.

Lemma pick_best_fold (current : Track) (rest : list Track) (b : Track) :
  fold_left (pick_step current) rest (b, bpm_abs_diff current b)
  = (keep_best (closer current) b rest,
     bpm_abs_diff current (keep_best (closer current) b rest)).
Proof.
  unfold keep_best. revert b.
  induction rest as [|c rest IH]; intros b; [reflexivity|].
  cbn [fold_left]. unfold pick_step at 2, closer at 2 4.
  change (tempo_diff current b) with (bpm_abs_diff current b).
  change (tempo_diff current c) with (bpm_abs_diff current c).
  rewrite number_le_lt by apply bpm_abs_diff_not_nan.
  destruct (Number.lt (bpm_abs_diff current c) (bpm_abs_diff current b));
    cbn [negb]; apply IH.
Qed.

(** The candidate loop picks the first candidate closest in tempo. *)
Lemma pick_best_first_best (current first : Track) (rest : list Track) :
  pick_best current first rest = first_best (closer current) first rest.
Proof.
  unfold pick_best. rewrite pick_best_fold. cbn [fst].
  apply keep_best_first_best.
  - apply closer_total.
  - apply closer_trans.
Qed.

Lemma pick_best_In (current first : Track) (rest : list Track) :
  In (pick_best current first rest) (first :: rest).
Proof. rewrite pick_best_first_best. apply first_best_In. Qed.

Lemma set_has_In (ids : list string) (x : string) :
  set_has ids x = true <-> In x ids.
Proof.
  unfold set_has. rewrite existsb_exists. split.
  - intros (y & Hy & E). apply String.eqb_eq in E. now subst.
  - intros H. exists x. split; [assumption | apply String.eqb_refl].
Qed.

Lemma used_In (path : list Track) (t : Track) :
  used path t = true <-> In (id t) (map id path).
Proof.
  unfold used. rewrite existsb_exists, in_map_iff. split.
  - intros (u & Hu & E). apply String.eqb_eq in E. eauto.
  - intros (u & E & Hu). exists u. split; [assumption|].
    now apply String.eqb_eq.
Qed.

Lemma used_set_has (path : list Track) (t : Track) :
  used path t = set_has (map id path) (id t).
Proof.
  destruct (used path t) eqn:E1, (set_has (map id path) (id t)) eqn:E2;
    try reflexivity.
  - apply used_In, set_has_In in E1. congruence.
  - apply set_has_In, used_In in E2. congruence.
Qed.

Lemma used_app (p q : list Track) (t : Track) :
  used (p ++ q) t = used p t || used q t.
Proof. unfold used. apply existsb_app. Qed.

(** With distinct ids, [new Set(list)] keeps the list as it is. *)
Lemma new_Set_fold (l acc : list Track) :
  NoDup (map id (acc ++ l)) -> fold_left track_set_add l acc = acc ++ l.
Proof.
  revert acc. induction l as [|t l IH]; intros acc H; simpl.
  - now rewrite app_nil_r.
  - assert (E : existsb (same_object t) acc = false).
    { destruct (existsb (same_object t) acc) eqn:E; [|reflexivity].
      apply existsb_exists in E as (u & Hu & Eu).
      apply same_object_eq in Eu.
      rewrite map_app in H. apply NoDup_remove_2 in H.
      exfalso. apply H. apply in_or_app. left.
      rewrite Eu. now apply in_map. }
    unfold track_set_add at 2. rewrite E.
    rewrite IH; rewrite <- app_assoc; [reflexivity | exact H].
Qed.

Lemma new_Set_NoDup (l : list Track) :
  NoDup (map id l) -> new_Set l = l.
Proof. intros H. unfold new_Set. now rewrite new_Set_fold. Qed.

Lemma NoDup_map_filter (f : Track -> bool) (l : list Track) :
  NoDup (map id l) -> NoDup (map id (filter f l)).
Proof.
  induction l as [|t l IH]; simpl; [trivial|].
  intros H. inversion H as [|? ? Hn Hl]; subst.
  destruct (f t); simpl; [|now apply IH].
  constructor; [|now apply IH].
  intros Hin. apply Hn. apply in_map_iff in Hin as (u & Eu & Hu).
  apply filter_In in Hu as [Hu _]. rewrite <- Eu. now apply in_map.
Qed.

(** *** The loop follows the reference construction *)

Lemma greedy_loop_ref (pool : list Track) (fuel : nat) :
  NoDup (map id pool) ->
  forall steps current remaining path,
    remaining = filter (fun t => negb (used path t)) pool ->
    length remaining <= fuel ->
    length remaining <= steps ->
    greedy_loop fuel current remaining path
    = path ++ ref_extend steps pool path current.
Proof.
  intros Hnd.
  induction fuel as [|fuel IH]; intros steps current remaining path Hr Hf Hs.
  - destruct remaining; [|simpl in Hf; lia].
    simpl. destruct steps; simpl; [now rewrite app_nil_r|].
    rewrite <- filter_and, <- Hr. simpl. now rewrite app_nil_r.
  - destruct remaining as [|r0 rs] eqn:Erem.
    { simpl. destruct steps; simpl; [now rewrite app_nil_r|].
      rewrite <- filter_and, <- Hr. simpl. now rewrite app_nil_r. }
    rewrite <- Erem in *. clear Erem r0 rs.
    destruct steps as [|steps].
    { destruct remaining; simpl in Hs; [|lia].
      simpl. now rewrite app_nil_r. }
    assert (Ecand :
      filter (isTransitionCompatible current) remaining
      = filter (fun t => negb (used path t) && legalb current t) pool).
    { rewrite Hr, filter_and. apply filter_ext. intros t.
      now rewrite legalb_isTransitionCompatible. }
    assert (Eloop :
      greedy_loop (S fuel) current remaining path
      = match filter (isTransitionCompatible current) remaining with
        | [] => path
        | first :: rest =>
            greedy_loop fuel (pick_best current first rest)
              (set_delete (pick_best current first rest) remaining)
              (path ++ [pick_best current first rest])
        end).
    { destruct remaining; [reflexivity|]. reflexivity. }
    rewrite Eloop. cbn [ref_extend]. rewrite <- Ecand.
    destruct (filter (isTransitionCompatible current) remaining)
      as [|first rest] eqn:Ec.
    { now rewrite app_nil_r. }
    fold (closer current). rewrite <- pick_best_first_best.
    set (best := pick_best current first rest).
    assert (Hbest : In best remaining).
    { pose proof (pick_best_In current first rest) as Hin.
      rewrite <- Ec in Hin. apply filter_In in Hin. tauto. }
    assert (Hlt : length (set_delete best remaining) < length remaining).
    { unfold set_delete. apply filter_length_lt with (x := best).
      - exact Hbest.
      - now rewrite same_object_refl. }
    assert (Hpool : In best pool).
    { rewrite Hr in Hbest. apply filter_In in Hbest. tauto. }
    rewrite (IH steps best (set_delete best remaining) (path ++ [best])).
    + now rewrite <- app_assoc.
    + unfold set_delete. rewrite Hr, filter_and. apply filter_ext_in.
      intros t Ht. rewrite used_app. unfold used at 2. simpl.
      rewrite (same_object_same_track pool) by assumption.
      unfold same_track. rewrite orb_false_r, negb_orb.
      now rewrite (String.eqb_sym (id best)).
    + lia.
    + lia.
Qed.

Lemma greedyPath_ref (pool : list Track) (seed : Track) :
  NoDup (map id pool) ->
  greedyPath seed pool = ref_greedy_path pool seed.
Proof.
  intros Hnd. unfold greedyPath, ref_greedy_path.
  rewrite new_Set_NoDup by now apply NoDup_map_filter.
  rewrite (greedy_loop_ref pool _ Hnd (length pool)); try reflexivity.
  - apply filter_ext. intros t. unfold used, same_track. simpl.
    now rewrite orb_false_r, String.eqb_sym.
  - apply filter_length_le.
Qed.

(** The fuel [greedyPath] passes is never exhausted: more fuel gives the
    same path. *)
Lemma greedy_loop_fuel (fuel fuel' : nat) (current : Track)
      (remaining path : list Track) :
  length remaining <= fuel -> length remaining <= fuel' ->
  greedy_loop fuel current remaining path
  = greedy_loop fuel' current remaining path.
Proof.
  revert fuel' current remaining path.
  induction fuel as [|fuel IH]; intros fuel' current remaining path H1 H2.
  - destruct remaining; [|simpl in H1; lia]. now destruct fuel'.
  - destruct fuel' as [|fuel'].
    { destruct remaining; [|simpl in H2; lia]. reflexivity. }
    destruct remaining as [|r0 rs] eqn:Er; [reflexivity|].
    rewrite <- Er in *.
    assert (E : forall n,
      greedy_loop (S n) current remaining path
      = match filter (isTransitionCompatible current) remaining with
        | [] => path
        | first :: rest =>
            greedy_loop n (pick_best current first rest)
              (set_delete (pick_best current first rest) remaining)
              (path ++ [pick_best current first rest])
        end).
    { intros n. rewrite Er. reflexivity. }
    rewrite !E.
    destruct (filter (isTransitionCompatible current) remaining)
      as [|first rest] eqn:Ec; [reflexivity|].
    assert (Hlt : length (set_delete (pick_best current first rest)
                                     remaining) < length remaining).
    { unfold set_delete.
      apply filter_length_lt with (x := pick_best current first rest).
      - pose proof (pick_best_In current first rest) as Hin.
        rewrite <- Ec in Hin. apply filter_In in Hin. tauto.
      - now rewrite same_object_refl. }
    apply IH; lia.
Qed.

End GreedyFacts.

(* ================================================================== *)
(** ** Shape of a greedy path *)
(* ================================================================== *)

Section PathFacts.
Import Camelot Ordering Spec Rounded Loops.
Local Open Scope nat_scope.
Local Open Scope list_scope.

Lemma neighbours_legal_snoc (pre : list Track) (cur b : Track) :
  neighbours_legal (pre ++ [cur]) -> legal cur b ->
  neighbours_legal ((pre ++ [cur]) ++ [b]).
Proof.
  intros H L p x y q E.
  destruct q as [|z q _] using rev_ind.
  - change (p ++ [x; y]) with (p ++ [x] ++ [y]) in E.
    rewrite app_assoc in E.
    apply app_inj_tail in E as [E <-].
    apply app_inj_tail in E as [_ <-]. exact L.
  - apply (H p x y q).
    change (p ++ x :: y :: q ++ [z]) with (p ++ (x :: y :: q) ++ [z]) in E.
    rewrite app_assoc in E.
    now apply app_inj_tail in E as [E _].
Qed.

Lemma neighbours_legal_single (t : Track) : neighbours_legal [t].
Proof.
  intros p x y q E. apply (f_equal (@length Track)) in E.
  rewrite length_app in E. simpl in E. lia.
Qed.

Lemma neighbours_legal_nil : neighbours_legal [].
Proof. intros p x y q E. now destruct p. Qed.

(** Every step of the loop appends a legal transition from the tail. *)
Lemma greedy_loop_legal (fuel : nat) :
  forall current remaining pre,
    neighbours_legal (pre ++ [current]) ->
    neighbours_legal (greedy_loop fuel current remaining (pre ++ [current])).
Proof.
  induction fuel as [|fuel IH]; intros current remaining pre H; [exact H|].
  destruct remaining as [|r0 rs] eqn:Er; [exact H|].
  rewrite <- Er. clear Er r0 rs.
  assert (E :
    greedy_loop (S fuel) current remaining (pre ++ [current])
    = match filter (isTransitionCompatible current) remaining with
      | [] => pre ++ [current]
      | first :: rest =>
          greedy_loop fuel (pick_best current first rest)
            (set_delete (pick_best current first rest) remaining)
            ((pre ++ [current]) ++ [pick_best current first rest])
      end).
  { destruct remaining; reflexivity. }
  rewrite E.
  destruct (filter (isTransitionCompatible current) remaining)
    as [|first rest] eqn:Ec; [exact H|].
  apply IH. apply neighbours_legal_snoc; [exact H|].
  apply isTransitionCompatible_true.
  pose proof (pick_best_In current first rest) as Hin.
  rewrite <- Ec in Hin. apply filter_In in Hin. tauto.
Qed.

Lemma greedyPath_legal (seed : Track) (pool : list Track) :
  neighbours_legal (greedyPath seed pool).
Proof.
  unfold greedyPath. apply (greedy_loop_legal _ seed _ []).
  apply neighbours_legal_single.
Qed.

(** A reference path picks unused tracks of the pool only. *)
Lemma ref_extend_fresh (pool : list Track) (steps : nat) :
  forall path tail,
    incl (ref_extend steps pool path tail) pool
    /\ NoDup (map id (ref_extend steps pool path tail))
    /\ (forall t, In t (ref_extend steps pool path tail) ->
                  used path t = false).
Proof.
  induction steps as [|steps IH]; intros path tail; simpl.
  - repeat split; [intros t [] | constructor | intros t []].
  - destruct (filter (fun t => negb (used path t) && legalb tail t) pool)
      as [|c cs] eqn:Ec.
    { repeat split; [intros t [] | constructor | intros t []]. }
    set (next := first_best _ c cs).
    assert (Hn : In next (c :: cs)) by apply first_best_In.
    rewrite <- Ec in Hn. apply filter_In in Hn as [Hpool Hn].
    apply andb_true_iff in Hn as [Hfresh _].
    apply negb_true_iff in Hfresh.
    destruct (IH (path ++ [next]) next) as (Hi & Hd & Hu).
    repeat split.
    + intros t [<-|Ht]; [exact Hpool | now apply Hi].
    + simpl. constructor; [|exact Hd].
      intros Hin. apply in_map_iff in Hin as (u & Eu & Hin).
      specialize (Hu u Hin). rewrite used_app in Hu.
      apply orb_false_iff in Hu as [_ Hu].
      unfold used in Hu. simpl in Hu. rewrite orb_false_r in Hu.
      apply String.eqb_neq in Hu. congruence.
    + intros t [<-|Ht]; [exact Hfresh|].
      specialize (Hu t Ht). rewrite used_app in Hu.
      now apply orb_false_iff in Hu as [Hu _].
Qed.

Lemma ref_greedy_path_fresh (pool : list Track) (seed : Track) :
  In seed pool ->
  incl (ref_greedy_path pool seed) pool
  /\ NoDup (map id (ref_greedy_path pool seed)).
Proof.
  intros Hs. unfold ref_greedy_path.
  destruct (ref_extend_fresh pool (length pool) [seed] seed)
    as (Hi & Hd & Hu).
  split.
  - intros t [<-|Ht]; [exact Hs | now apply Hi].
  - simpl. constructor; [|exact Hd].
    intros Hin. apply in_map_iff in Hin as (u & Eu & Hin).
    specialize (Hu u Hin). unfold used in Hu. simpl in Hu.
    rewrite orb_false_r in Hu. apply String.eqb_neq in Hu. congruence.
Qed.

Lemma incl_map_id (p q : list Track) :
  incl p q -> incl (map id p) (map id q).
Proof.
  intros H x Hx. apply in_map_iff in Hx as (t & <- & Ht).
  apply in_map, H, Ht.
Qed.

Lemma covers_incl (pool path : list Track) :
  covers pool path = true <-> incl (map id pool) (map id path).
Proof.
  unfold covers. rewrite forallb_forall. split.
  - intros H x Hx. apply in_map_iff in Hx as (t & <- & Ht).
    apply used_In, H, Ht.
  - intros H t Ht. apply used_In, H, in_map, Ht.
Qed.

(** With distinct ids, a path of distinct tracks of the pool covers the
    pool exactly when it is as long as the pool. *)
Lemma covers_length (pool path : list Track) :
  NoDup (map id pool) -> NoDup (map id path) -> incl path pool ->
  (covers pool path = true <-> length path = length pool).
Proof.
  intros Hp Hq Hi. rewrite covers_incl.
  apply incl_map_id in Hi.
  rewrite <- (length_map id path), <- (length_map id pool).
  split.
  - intros Hc. apply Nat.le_antisymm; now apply NoDup_incl_length.
  - intros E. apply NoDup_length_incl; [assumption | lia | assumption].
Qed.

Lemma path_length_le (pool path : list Track) :
  NoDup (map id path) -> incl path pool -> length path <= length pool.
Proof.
  intros Hq Hi. apply incl_map_id in Hi.
  rewrite <- (length_map id path), <- (length_map id pool).
  now apply NoDup_incl_length.
Qed.

End PathFacts.

(* ================================================================== *)
(** ** The multi-seed search *)
(* ================================================================== *)

Section SearchFacts.
Import Camelot Ordering Spec Rounded Loops.
Local Open Scope nat_scope.
Local Open Scope list_scope.

Lemma score_loop_fold (l : list Track) :
  forall acc, score_loop l acc = fold_left Number.add (squares l) acc.
Proof.
  induction l as [|a l IH]; intros acc; [reflexivity|].
  destruct l as [|b l']; [reflexivity|].
  change (score_loop (a :: b :: l') acc)
    with (score_loop (b :: l')
            (Number.add acc (Number.mul (bpm_abs_diff a b)
                                        (bpm_abs_diff a b)))).
  now rewrite IH.
Qed.

(** The score of the code is the sum of squared tempo differences, taken
    from the left. *)
Lemma calculatePathScore_sum (p : list Track) :
  calculatePathScore p = path_score p.
Proof.
  unfold calculatePathScore, path_score. destruct p as [|a [|b l]].
  - reflexivity.
  - reflexivity.
  - change (length (a :: b :: l) <? 2) with false. cbv iota.
    apply score_loop_fold.
Qed.

(** A score is never NaN and never negative. *)
Lemma score_loop_nonneg (l : list Track) :
  forall acc, Number.nonneg acc = true ->
              Number.nonneg (score_loop l acc) = true.
Proof.
  induction l as [|a l IH]; intros acc H; [exact H|].
  destruct l as [|b l']; [exact H|].
  change (score_loop (a :: b :: l') acc)
    with (score_loop (b :: l')
            (Number.add acc (Number.mul (bpm_abs_diff a b)
                                        (bpm_abs_diff a b)))).
  apply IH, add_nonneg; [exact H|].
  apply sq_nonneg, bpm_abs_diff_nonneg.
Qed.

Lemma calculatePathScore_not_nan (p : list Track) :
  Number.is_nan (calculatePathScore p) = false.
Proof.
  apply nonneg_not_nan. unfold calculatePathScore.
  destruct (length p <? 2); [reflexivity|].
  now apply score_loop_nonneg.
Qed.

Lemma legal_within_limit (a b : Track) :
  legal a b -> Number.lt MAX_BPM_DIFFERENCE (bpm_abs_diff a b) = false.
Proof.
  intros L. apply isTransitionCompatible_true in L.
  unfold isTransitionCompatible in L.
  destruct (negb _ || negb _); [discriminate|].
  destruct (Number.lt _ _); [discriminate | reflexivity].
Qed.

Lemma neighbours_legal_tail (a : Track) (l : list Track) :
  neighbours_legal (a :: l) -> neighbours_legal l.
Proof.
  intros H pre x y post E. apply (H (a :: pre) x y post).
  simpl. now rewrite E.
Qed.

(** The score of a path of legal transitions stays below [2 ^ 66]. *)
Lemma score_loop_below (l : list Track) :
  neighbours_legal l ->
  forall acc, Number.below 66 acc -> Number.below 66 (score_loop l acc).
Proof.
  induction l as [|a l IH]; intros H acc Hacc; [exact Hacc|].
  destruct l as [|b l']; [exact Hacc|].
  change (score_loop (a :: b :: l') acc)
    with (score_loop (b :: l')
            (Number.add acc (Number.mul (bpm_abs_diff a b)
                                        (bpm_abs_diff a b)))).
  apply IH; [now apply neighbours_legal_tail in H|].
  apply add_below; [exact Hacc|].
  apply sq_below, within_limit_below, legal_within_limit.
  now apply (H [] a b l').
Qed.

(** So it is finite: it is less than [Infinity]. *)
Lemma calculatePathScore_finite (p : list Track) :
  neighbours_legal p ->
  Number.lt (calculatePathScore p) Number.infinity = true.
Proof.
  intros H. apply (below_lt_infinity 66). unfold calculatePathScore.
  destruct (length p <? 2); [exact I|].
  now apply score_loop_below.
Qed.

Lemma lt_score (p b : list Track) :
  Number.lt (calculatePathScore p) (calculatePathScore b)
  = negb (lower_score b p).
Proof.
  unfold lower_score. rewrite <- !calculatePathScore_sum.
  rewrite number_le_lt by apply calculatePathScore_not_nan.
  now rewrite negb_involutive.
Qed.

Lemma lower_score_total (p q : list Track) :
  lower_score p q = true \/ lower_score q p = true.
Proof.
  unfold lower_score. rewrite <- !calculatePathScore_sum.
  apply number_le_total; apply calculatePathScore_not_nan.
Qed.

Lemma lower_score_trans (p q r : list Track) :
  lower_score p q = true -> lower_score q r = true ->
  lower_score p r = true.
Proof.
  unfold lower_score. rewrite <- !calculatePathScore_sum.
  apply number_le_trans; apply calculatePathScore_not_nan.
Qed.

Lemma longer_then_lower_score_total (p q : list Track) :
  longer_then_lower_score p q = true \/ longer_then_lower_score q p = true.
Proof.
  unfold longer_then_lower_score.
  destruct (Nat.lt_trichotomy (length p) (length q)) as [H|[H|H]].
  - right. apply orb_true_iff. left. now apply Nat.ltb_lt.
  - destruct (lower_score_total p q) as [L|L]; [left | right];
      apply orb_true_iff; right; rewrite L, andb_true_r;
      apply Nat.eqb_eq; congruence.
  - left. apply orb_true_iff. left. now apply Nat.ltb_lt.
Qed.

Lemma longer_then_lower_score_trans (p q r : list Track) :
  longer_then_lower_score p q = true ->
  longer_then_lower_score q r = true ->
  longer_then_lower_score p r = true.
Proof.
  unfold longer_then_lower_score.
  rewrite !orb_true_iff, !andb_true_iff, !Nat.ltb_lt, !Nat.eqb_eq.
  intros [H1|[H1 L1]] [H2|[H2 L2]].
  - left. lia.
  - left. lia.
  - left. lia.
  - right. split; [lia|]. eapply lower_score_trans; eassumption.
Qed.

Lemma search_step_cases (pool : list Track) (st : Search) (s : Track) :
  bestCompleteScore st = score_of (bestCompletePath st) ->
  search_step pool st s
  = if length (greedyPath s pool) =? length pool
    then {| bestCompletePath :=
              complete_step (bestCompletePath st) (greedyPath s pool);
            bestCompleteScore :=
              score_of (complete_step (bestCompletePath st)
                                      (greedyPath s pool));
            bestPartialPath := bestPartialPath st |}
    else {| bestCompletePath := bestCompletePath st;
            bestCompleteScore := bestCompleteScore st;
            bestPartialPath :=
              partial_step (bestPartialPath st) (greedyPath s pool) |}.
Proof.
  destruct st as [bc bcs bp]. simpl. intros ->.
  unfold search_step. simpl.
  destruct (length (greedyPath s pool) =? length pool).
  - destruct bc as [b|]; simpl.
    + destruct (Number.lt _ _); reflexivity.
    + now rewrite calculatePathScore_finite by apply greedyPath_legal.
  - unfold partial_step.
    destruct (length bp <? length (greedyPath s pool)); [reflexivity|].
    destruct (_ && _); [|reflexivity].
    destruct (Number.lt _ _); reflexivity.
Qed.

(** The loop over the seeds treats complete and partial paths apart. *)
Lemma search_fold (pool seeds : list Track) :
  forall st,
    bestCompleteScore st = score_of (bestCompletePath st) ->
    fold_left (search_step pool) seeds st
    = {| bestCompletePath :=
           fold_left complete_step
             (filter (fun p => length p =? length pool)
                     (map (fun s => greedyPath s pool) seeds))
             (bestCompletePath st);
         bestCompleteScore :=
           score_of
             (fold_left complete_step
                (filter (fun p => length p =? length pool)
                        (map (fun s => greedyPath s pool) seeds))
                (bestCompletePath st));
         bestPartialPath :=
           fold_left partial_step
             (filter (fun p => negb (length p =? length pool))
                     (map (fun s => greedyPath s pool) seeds))
             (bestPartialPath st) |}.
Proof.
  induction seeds as [|s seeds IH]; intros st Hst.
  - destruct st as [bc bcs bp]. simpl in *. now subst.
  - cbn [fold_left map filter].
    rewrite search_step_cases by assumption.
    destruct (length (greedyPath s pool) =? length pool) eqn:E;
      cbn [negb];
      rewrite IH by (simpl; first [reflexivity | exact Hst]); reflexivity.
Qed.

Lemma fold_complete_some (cs : list (list Track)) :
  forall b, fold_left complete_step cs (Some b)
            = Some (keep_best lower_score b cs).
Proof.
  unfold keep_best.
  induction cs as [|c cs IH]; intros b; [reflexivity|].
  cbn [fold_left]. unfold complete_step at 2. rewrite lt_score.
  destruct (lower_score b c); cbn [negb]; apply IH.
Qed.

Lemma fold_complete (cs : list (list Track)) :
  fold_left complete_step cs None
  = match cs with
    | [] => None
    | c :: cs' => Some (first_best lower_score c cs')
    end.
Proof.
  destruct cs as [|c cs']; [reflexivity|].
  cbn [fold_left complete_step]. rewrite fold_complete_some.
  f_equal. apply keep_best_first_best.
  - apply lower_score_total.
  - apply lower_score_trans.
Qed.

Lemma partial_step_preference (b p : list Track) :
  p <> [] ->
  partial_step b p = if longer_then_lower_score b p then b else p.
Proof.
  intros Hp. assert (0 < length p) by (destruct p; simpl; [easy | lia]).
  unfold partial_step, longer_then_lower_score.
  rewrite lt_score.
  destruct (Nat.ltb_spec (length b) (length p)) as [H1|H1].
  - destruct (Nat.ltb_spec (length p) (length b)); [lia|].
    destruct (Nat.eqb_spec (length b) (length p)); [lia|]. reflexivity.
  - destruct (Nat.eqb_spec (length p) (length b)) as [H2|H2].
    + destruct (Nat.ltb_spec 0 (length p)); [|lia].
      destruct (Nat.ltb_spec (length p) (length b)); [lia|].
      destruct (Nat.eqb_spec (length b) (length p)); [|lia].
      cbn [andb orb]. now destruct (lower_score b p).
    + destruct (Nat.ltb_spec (length p) (length b)); [|lia].
      reflexivity.
Qed.

Lemma fold_partial_keep (ps : list (list Track)) :
  forall b, Forall (fun p => p <> []) ps ->
            fold_left partial_step ps b
            = keep_best longer_then_lower_score b ps.
Proof.
  unfold keep_best.
  induction ps as [|p ps IH]; intros b H; [reflexivity|].
  inversion H; subst. cbn [fold_left].
  rewrite partial_step_preference by assumption. now apply IH.
Qed.

Lemma fold_partial (ps : list (list Track)) :
  Forall (fun p => p <> []) ps ->
  fold_left partial_step ps []
  = match ps with
    | [] => []
    | p :: ps' => first_best longer_then_lower_score p ps'
    end.
Proof.
  intros H. destruct ps as [|p ps']; [reflexivity|].
  inversion H; subst. cbn [fold_left].
  rewrite partial_step_preference by assumption.
  assert (E : longer_then_lower_score [] p = false).
  { unfold longer_then_lower_score. destruct p; [congruence|]. reflexivity. }
  rewrite E, fold_partial_keep by assumption.
  apply keep_best_first_best.
  - apply longer_then_lower_score_total.
  - apply longer_then_lower_score_trans.
Qed.

Lemma greedy_loop_extends (fuel : nat) :
  forall current remaining path,
  exists ext, greedy_loop fuel current remaining path = path ++ ext.
Proof.
  induction fuel as [|fuel IH]; intros current remaining path.
  - exists []. simpl. now rewrite app_nil_r.
  - destruct remaining as [|r0 rs].
    { exists []. simpl. now rewrite app_nil_r. }
    cbn [greedy_loop].
    destruct (filter _ _) as [|first rest].
    { exists []. now rewrite app_nil_r. }
    destruct (IH (pick_best current first rest)
                 (set_delete (pick_best current first rest) (r0 :: rs))
                 (path ++ [pick_best current first rest])) as [ext E].
    exists (pick_best current first rest :: ext).
    rewrite E. now rewrite <- app_assoc.
Qed.

Lemma greedyPath_head (seed : Track) (pool : list Track) :
  exists ext, greedyPath seed pool = seed :: ext.
Proof. unfold greedyPath. apply (greedy_loop_extends _ _ _ [seed]). Qed.

Lemma greedy_paths_nonempty (pool seeds : list Track) :
  Forall (fun p => p <> []) (map (fun s => greedyPath s pool) seeds).
Proof.
  apply Forall_forall. intros p Hp.
  apply in_map_iff in Hp as (s & <- & _).
  destruct (greedyPath_head s pool) as [ext ->]. discriminate.
Qed.

Lemma Forall_filter {A : Type} (P : A -> Prop) (f : A -> bool)
      (l : list A) :
  Forall P l -> Forall P (filter f l).
Proof.
  rewrite !Forall_forall. intros H x Hx.
  apply filter_In in Hx. now apply H.
Qed.

(** What the search leaves in its three variables. *)
Lemma search_shape (pool : list Track) :
  let paths := map (fun s => greedyPath s pool) pool in
  let complete := filter (fun p => length p =? length pool) paths in
  let partial := filter (fun p => negb (length p =? length pool)) paths in
  bestCompletePath (search pool)
  = match complete with
    | [] => None
    | c :: cs => Some (first_best lower_score c cs)
    end
  /\ bestPartialPath (search pool)
     = match partial with
       | [] => []
       | p :: ps => first_best longer_then_lower_score p ps
       end.
Proof.
  intros paths complete partial. unfold search.
  rewrite search_fold by reflexivity. cbn [bestCompletePath bestPartialPath].
  split.
  - apply fold_complete.
  - apply fold_partial, Forall_filter, greedy_paths_nonempty.
Qed.

End SearchFacts.

(* ================================================================== *)
(** ** findOptimalOrder *)
(* ================================================================== *)

Section OrderFacts.
Import Camelot Ordering Spec Rounded Loops.
Local Open Scope nat_scope.
Local Open Scope list_scope.

Lemma findOptimalOrder_search (tracks : list Track) :
  2 <= length (filter isTrackAnalyzed tracks) ->
  findOptimalOrder tracks
  = let pool := filter isTrackAnalyzed tracks in
    let rest := filter (fun t => negb (isTrackAnalyzed t)) tracks in
    {| orderedTracks := chosen pool;
       orphanTracks :=
         filter (fun t => negb (set_has (map id (chosen pool)) (id t))) pool
         ++ rest;
       transitions := build_transitions (chosen pool);
       isComplete := not_null (bestCompletePath (search pool))
                     && (length rest =? 0) |}.
Proof.
  intros H. unfold findOptimalOrder.
  destruct (length (filter isTrackAnalyzed tracks)) as [|[|n]] eqn:E;
    [lia | lia | reflexivity].
Qed.

Lemma findOptimalOrder_small (tracks : list Track) :
  length (filter isTrackAnalyzed tracks) <= 1 ->
  findOptimalOrder tracks
  = {| orderedTracks := filter isTrackAnalyzed tracks;
       orphanTracks := filter (fun t => negb (isTrackAnalyzed t)) tracks;
       transitions := [];
       isComplete :=
         (length (filter (fun t => negb (isTrackAnalyzed t)) tracks) =? 0) |}.
Proof.
  intros H. unfold findOptimalOrder.
  destruct (filter isTrackAnalyzed tracks) as [|t [|u l]] eqn:E;
    try reflexivity.
  simpl in H. lia.
Qed.

(** The search settles on the path of one of the seeds: a complete one if
    [bestCompletePath] is set, and otherwise no seed has a complete path. *)
Lemma chosen_cases (pool : list Track) :
  pool <> [] ->
  exists seed,
    In seed pool /\ chosen pool = greedyPath seed pool
    /\ ((bestCompletePath (search pool) = Some (chosen pool)
         /\ length (chosen pool) = length pool)
        \/ (bestCompletePath (search pool) = None
            /\ forall s, In s pool ->
                         length (greedyPath s pool) <> length pool)).
Proof.
  intros Hne. unfold chosen.
  destruct (search_shape pool) as [Hc Hp]. rewrite Hc, Hp. clear Hc Hp.
  remember (map (fun s => greedyPath s pool) pool) as paths eqn:Epaths.
  destruct (filter (fun p => length p =? length pool) paths)
    as [|c cs] eqn:Ec.
  - rewrite (filter_nil_negb _ _ Ec).
    destruct paths as [|p ps].
    { destruct pool; [congruence | discriminate]. }
    assert (Hin : In (first_best longer_then_lower_score p ps) (p :: ps))
      by apply first_best_In.
    rewrite Epaths in Hin.
    apply in_map_iff in Hin as (seed & Es & Hs).
    exists seed. split; [exact Hs|]. split; [now symmetry|].
    right. split; [reflexivity|].
    intros s Hin E.
    assert (H : In (greedyPath s pool)
                   (filter (fun p => length p =? length pool) (p :: ps))).
    { apply filter_In. split; [|now apply Nat.eqb_eq].
      rewrite Epaths.
      exact (in_map (fun s => greedyPath s pool) pool s Hin). }
    rewrite Ec in H. destruct H.
  - assert (Hin : In (first_best lower_score c cs) (c :: cs))
      by apply first_best_In.
    rewrite <- Ec in Hin. apply filter_In in Hin as [Hin Hlen].
    rewrite Epaths in Hin.
    apply in_map_iff in Hin as (seed & Es & Hs).
    exists seed. split; [exact Hs|]. split; [now symmetry|].
    left. split; [reflexivity | now apply Nat.eqb_eq].
Qed.

Lemma chosen_fresh (pool : list Track) :
  NoDup (map id pool) -> pool <> [] ->
  incl (chosen pool) pool /\ NoDup (map id (chosen pool)).
Proof.
  intros Hnd Hne.
  destruct (chosen_cases pool Hne) as (seed & Hs & -> & _).
  rewrite greedyPath_ref by assumption.
  now apply ref_greedy_path_fresh.
Qed.

Lemma NoDup_map_eq {A B : Type} (f : A -> B) (l : list A) (x y : A) :
  NoDup (map f l) -> In x l -> In y l -> f x = f y -> x = y.
Proof.
  induction l as [|a l IH]; simpl; [tauto|].
  intros H. inversion H as [|? ? Hn Hl]; subst.
  intros [->|Hx] [->|Hy] E; try reflexivity.
  - exfalso. apply Hn. rewrite E. now apply in_map.
  - exfalso. apply Hn. rewrite <- E. now apply in_map.
  - now apply IH.
Qed.

(** The tracks of the pool whose id is on the path are as many as the
    path is long. *)
Lemma placed_length (pool path : list Track) :
  NoDup (map id pool) -> NoDup (map id path) -> incl path pool ->
  length (filter (fun t => set_has (map id path) (id t)) pool)
  = length path.
Proof.
  intros Hp Hq Hi.
  rewrite <- (length_map id (filter _ _)), <- (length_map id path).
  apply Permutation_length, NoDup_Permutation.
  - now apply NoDup_map_filter.
  - exact Hq.
  - intros x. rewrite !in_map_iff. split.
    + intros (t & <- & Ht). apply filter_In in Ht as [_ Ht].
      apply set_has_In in Ht. now apply in_map_iff in Ht.
    + intros (u & <- & Hu). exists u. split; [reflexivity|].
      apply filter_In. split; [now apply Hi|].
      apply set_has_In. now apply in_map.
Qed.

Lemma build_transitions_length (l : list Track) :
  length (build_transitions l) = length l - 1.
Proof.
  induction l as [|a l IH]; [reflexivity|].
  destruct l as [|b l']; [reflexivity|].
  change (build_transitions (a :: b :: l'))
    with (createTransition a b :: build_transitions (b :: l')).
  simpl length in *. lia.
Qed.

Lemma no_unanalyzed (tracks : list Track) :
  (length (filter (fun t => negb (isTrackAnalyzed t)) tracks) =? 0) = true
  <-> forall t, In t tracks -> isTrackAnalyzed t = true.
Proof.
  rewrite Nat.eqb_eq, length_zero_iff_nil. split.
  - intros H t Ht. destruct (isTrackAnalyzed t) eqn:E; [reflexivity|].
    assert (In t (filter (fun t => negb (isTrackAnalyzed t)) tracks)).
    { apply filter_In. now rewrite E. }
    rewrite H in H0. destruct H0.
  - intros H.
    destruct (filter (fun t => negb (isTrackAnalyzed t)) tracks)
      as [|t l] eqn:E; [reflexivity|].
    assert (Hin : In t (filter (fun t => negb (isTrackAnalyzed t)) tracks))
      by (rewrite E; now left).
    apply filter_In in Hin as [Hin Hn].
    rewrite (H t Hin) in Hn. discriminate.
Qed.

(** C5, with the tempo difference computed in binary64: in every result,
    complete or not, each pair of neighbours of [orderedTracks] is a
    legal transition: both tracks analyzed, the difference that the
    subtraction gives at most 20, keys compatible. *)
Theorem findOptimalOrder_neighbours_legal
        (tracks pre : list Track) (a b : Track) (post : list Track) :
  orderedTracks (findOptimalOrder tracks) = pre ++ a :: b :: post ->
  isTransitionCompatible a b = true
  /\ exists ba ka bb kb,
       bpm a = Some ba /\ camelotKey a = Some ka
       /\ bpm b = Some bb /\ camelotKey b = Some kb
       /\ Number.le (Number.abs (Number.sub (Number.repr ba)
                                            (Number.repr bb)))
                    (Number.of_Z 20) = true
       /\ isCamelotCompatible ka kb = true.
Proof.
  intros E.
  assert (L : legal a b).
  { destruct (le_lt_dec (length (filter isTrackAnalyzed tracks)) 1)
      as [Hs|Hl].
    - rewrite (findOptimalOrder_small tracks Hs) in E. simpl in E.
      apply (f_equal (@length Track)) in E.
      rewrite length_app in E. simpl in E. lia.
    - rewrite (findOptimalOrder_search tracks Hl) in E. simpl in E.
      assert (Hne : filter isTrackAnalyzed tracks <> []).
      { intros Hnil. rewrite Hnil in Hl. simpl in Hl. lia. }
      destruct (chosen_cases _ Hne) as (seed & _ & Hc & _).
      rewrite Hc in E.
      exact (greedyPath_legal seed _ pre a b post E). }
  split; [now apply isTransitionCompatible_true | exact L].
Qed.

(** C5 with the real tempo difference does not hold.  The tracks of
    tempos [0.1] and [20.1] and one key are ordered as neighbours, and
    their real tempo difference is above 20: they are no legal
    transition. *)
Lemma findOptimalOrder_neighbours_real_difference :
  orderedTracks (findOptimalOrder [Samples.slow; Samples.slow20])
  = [Samples.slow; Samples.slow20]
  /\ (20 < Qabs (Spec.tempo Samples.slow - Spec.tempo Samples.slow20))%Q
  /\ ~ Spec.legal Samples.slow Samples.slow20.
Proof.
  split; [vm_compute; reflexivity|].
  split; [exact slow_real_difference | exact slow_not_legal].
Qed.

(** C2, for a batch of tracks with distinct ids: the result accounts for
    every input track once, and has one transition per pair of
    neighbours.  The embedding has no failing operation: the function is
    total. *)
Theorem findOptimalOrder_total_lengths (tracks : list Track) :
  NoDup (map id tracks) ->
  length (orderedTracks (findOptimalOrder tracks))
    + length (orphanTracks (findOptimalOrder tracks))
  = length tracks
  /\ Z.of_nat (length (transitions (findOptimalOrder tracks)))
     = Z.max (Z.of_nat (length (orderedTracks (findOptimalOrder tracks))) - 1)
             0.
Proof.
  intros Hnd.
  pose proof (filter_split_length isTrackAnalyzed tracks) as Hsplit.
  destruct (le_lt_dec (length (filter isTrackAnalyzed tracks)) 1)
    as [Hs|Hl].
  - rewrite (findOptimalOrder_small tracks Hs). simpl. split; lia.
  - rewrite (findOptimalOrder_search tracks Hl). simpl.
    set (pool := filter isTrackAnalyzed tracks) in *.
    assert (Hne : pool <> []).
    { intros Hnil. rewrite Hnil in Hl. simpl in Hl. lia. }
    assert (Hpool : NoDup (map id pool)) by now apply NoDup_map_filter.
    destruct (chosen_fresh pool Hpool Hne) as [Hi Hd].
    rewrite length_app, build_transitions_length.
    pose proof (filter_split_length
                  (fun t => set_has (map id (chosen pool)) (id t)) pool)
      as Hplaced.
    rewrite (placed_length pool (chosen pool) Hpool Hd Hi) in Hplaced.
    split; lia.
Qed.

(** C2 does not hold of an input that lists one track twice: the track
    is ordered once and there is no orphan, so that the lengths add up to
    1 for an input of length 2. *)
Lemma findOptimalOrder_lengths_repeated :
  length Samples.twice = 2
  /\ length (orderedTracks (findOptimalOrder Samples.twice)) = 1
  /\ length (orphanTracks (findOptimalOrder Samples.twice)) = 0.
Proof. vm_compute. repeat split. Qed.

Lemma greedyPath_fresh (pool : list Track) (seed : Track) :
  NoDup (map id pool) -> In seed pool ->
  incl (greedyPath seed pool) pool
  /\ NoDup (map id (greedyPath seed pool)).
Proof.
  intros Hnd Hs. rewrite greedyPath_ref by assumption.
  now apply ref_greedy_path_fresh.
Qed.

Lemma greedyPath_covers (pool : list Track) (seed : Track) :
  NoDup (map id pool) -> In seed pool ->
  covers pool (greedyPath seed pool)
  = (length (greedyPath seed pool) =? length pool).
Proof.
  intros Hnd Hs.
  destruct (greedyPath_fresh pool seed Hnd Hs) as [Hi Hd].
  pose proof (covers_length pool _ Hnd Hd Hi) as H.
  destruct (Nat.eqb_spec (length (greedyPath seed pool)) (length pool))
    as [E|E].
  - now apply H.
  - destruct (covers pool (greedyPath seed pool)); [|reflexivity].
    exfalso. apply E. now apply H.
Qed.

(** [bestCompletePath] is set exactly when some seed has a path that
    covers the pool. *)
Lemma bestCompletePath_set (pool : list Track) :
  NoDup (map id pool) -> pool <> [] ->
  (not_null (bestCompletePath (search pool)) = true <->
   exists seed, In seed pool /\ covers pool (greedyPath seed pool) = true).
Proof.
  intros Hnd Hne.
  destruct (chosen_cases pool Hne) as (seed & Hs & Hc & [[Hb Hl]|[Hb Hn]]).
  - rewrite Hb. simpl. split; [intros _ | reflexivity].
    exists seed. split; [exact Hs|].
    rewrite greedyPath_covers by assumption.
    apply Nat.eqb_eq. now rewrite <- Hc.
  - rewrite Hb. simpl. split; [discriminate|].
    intros (s & Hin & Hcov).
    rewrite greedyPath_covers in Hcov by assumption.
    apply Nat.eqb_eq in Hcov. exfalso. exact (Hn s Hin Hcov).
Qed.

Lemma chosen_covers (pool : list Track) :
  NoDup (map id pool) -> pool <> [] ->
  (not_null (bestCompletePath (search pool)) = true <->
   forall t, In t pool -> In t (chosen pool)).
Proof.
  intros Hnd Hne.
  destruct (chosen_fresh pool Hnd Hne) as [Hi Hd].
  destruct (chosen_cases pool Hne) as (seed & Hs & Hc & [[Hb Hl]|[Hb Hn]]).
  - rewrite Hb. simpl. split; [intros _ | reflexivity].
    intros t Ht.
    assert (Hcov : covers pool (chosen pool) = true)
      by now apply covers_length.
    apply covers_incl in Hcov.
    specialize (Hcov (id t) (in_map id pool t Ht)).
    apply in_map_iff in Hcov as (u & Eu & Hu).
    assert (u = t) as <-; [|exact Hu].
    apply (NoDup_map_eq id pool); auto.
  - rewrite Hb. simpl. split; [discriminate|].
    intros Hall. exfalso. apply (Hn seed Hs). rewrite <- Hc.
    apply Nat.le_antisymm.
    + now apply path_length_le.
    + apply NoDup_incl_length; [|exact Hall].
      now apply NoDup_map_inv in Hnd.
Qed.

(** C3, for a batch of tracks with distinct ids: [isComplete] is true
    exactly when every input track is analyzed and is in [orderedTracks];
    equivalently, on a non-empty input, when some seed has a path that
    covers all analyzed tracks and no input track is unanalyzed; and it
    is true on the empty input. *)
Theorem findOptimalOrder_isComplete (tracks : list Track) :
  NoDup (map id tracks) ->
  (isComplete (findOptimalOrder tracks) = true <->
   forall t, In t tracks ->
             analyzed t /\ In t (orderedTracks (findOptimalOrder tracks)))
  /\ (tracks <> [] ->
      (isComplete (findOptimalOrder tracks) = true <->
       (exists seed,
           In seed (filter isTrackAnalyzed tracks)
           /\ covers (filter isTrackAnalyzed tracks)
                     (greedyPath seed (filter isTrackAnalyzed tracks))
              = true)
       /\ forall t, In t tracks -> analyzed t))
  /\ isComplete (findOptimalOrder []) = true.
Proof.
  intros Hnd.
  assert (Hall : (forall t, In t tracks -> isTrackAnalyzed t = true)
                 <-> forall t, In t tracks -> analyzed t).
  { split; intros H t Ht; apply isTrackAnalyzed_analyzed; auto. }
  assert (Hpool : NoDup (map id (filter isTrackAnalyzed tracks)))
    by now apply NoDup_map_filter.
  split; [|split; [|reflexivity]].
  - destruct (le_lt_dec (length (filter isTrackAnalyzed tracks)) 1)
      as [Hs|Hl].
    + rewrite (findOptimalOrder_small tracks Hs). simpl.
      rewrite no_unanalyzed. split.
      * intros H t Ht. split; [now apply isTrackAnalyzed_analyzed, H|].
        apply filter_In. auto.
      * intros H t Ht. apply isTrackAnalyzed_analyzed. now apply H.
    + rewrite (findOptimalOrder_search tracks Hl). simpl.
      set (pool := filter isTrackAnalyzed tracks) in *.
      assert (Hne : pool <> []).
      { intros Hnil. rewrite Hnil in Hl. simpl in Hl. lia. }
      rewrite andb_true_iff, no_unanalyzed,
        (chosen_covers pool Hpool Hne).
      split.
      * intros [Hin Han] t Ht. split.
        -- now apply isTrackAnalyzed_analyzed, Han.
        -- apply Hin. apply filter_In. auto.
      * intros H. split.
        -- intros t Ht. apply filter_In in Ht as [Ht _]. now apply H.
        -- intros t Ht. apply isTrackAnalyzed_analyzed. now apply H.
  - intros Hne. rewrite <- Hall.
    destruct (filter isTrackAnalyzed tracks) as [|t0 [|t1 pool']] eqn:Ep.
    + assert (Hs : length (filter isTrackAnalyzed tracks) <= 1)
        by (rewrite Ep; simpl; lia).
      rewrite (findOptimalOrder_small tracks Hs). simpl.
      rewrite (filter_nil_negb _ _ Ep). split.
      * intros H. apply Nat.eqb_eq, length_zero_iff_nil in H. congruence.
      * intros [(seed & [] & _) _].
    + assert (Hs : length (filter isTrackAnalyzed tracks) <= 1)
        by (rewrite Ep; simpl; lia).
      rewrite (findOptimalOrder_small tracks Hs). simpl.
      rewrite no_unanalyzed. split; [|tauto].
      intros H. split; [|exact H].
      exists t0. split; [now left|].
      destruct (greedyPath_head t0 [t0]) as [ext ->].
      unfold covers, used. simpl. now rewrite String.eqb_refl.
    + assert (Hl : 2 <= length (filter isTrackAnalyzed tracks))
        by (rewrite Ep; simpl; lia).
      rewrite (findOptimalOrder_search tracks Hl). simpl.
      rewrite Ep in *.
      rewrite andb_true_iff, no_unanalyzed.
      rewrite (bestCompletePath_set _ Hpool) by discriminate.
      reflexivity.
Qed.

(** C3 does not hold of every input.  On an input that lists one analyzed
    track twice, every input track is analyzed and is in [orderedTracks],
    yet [isComplete] is false; and on the empty input [isComplete] is
    true although there is no seed. *)
Lemma findOptimalOrder_isComplete_repeated :
  (isComplete (findOptimalOrder Samples.twice) = false
   /\ forall t, In t Samples.twice ->
                analyzed t
                /\ In t (orderedTracks (findOptimalOrder Samples.twice)))
  /\ (isComplete (findOptimalOrder []) = true
      /\ ~ exists seed : Track, In seed (filter isTrackAnalyzed [])).
Proof.
  split; split.
  - vm_compute. reflexivity.
  - intros t [<-|[<-|[]]]; (split; [split; discriminate|]);
      vm_compute; now left.
  - reflexivity.
  - intros (seed & []).
Qed.

Lemma reference_paths (pool : list Track) :
  NoDup (map id pool) ->
  map (ref_greedy_path pool) pool = map (fun s => greedyPath s pool) pool
  /\ filter (covers pool) (map (fun s => greedyPath s pool) pool)
     = filter (fun p => length p =? length pool)
              (map (fun s => greedyPath s pool) pool).
Proof.
  intros Hnd. split.
  - apply map_ext. intros s. symmetry. now apply greedyPath_ref.
  - apply filter_ext_in. intros p Hp.
    apply in_map_iff in Hp as (s & <- & Hs).
    now apply greedyPath_covers.
Qed.

(** C1, in binary64 arithmetic and for distinct ids: with at least two
    analyzed tracks, [orderedTracks] is the path of the reference
    algorithm: one greedy path per analyzed track, each step
    taking the legal unused track closest in tempo (first in input order
    on ties); then the complete path of lowest score (first on ties), or
    else the longest path, of lowest score among the longest.  Tempo
    differences are those binary64 subtraction gives, and a score is the
    sum of their squares taken from the first transition on, every
    square and every addition rounded. *)
Theorem findOptimalOrder_reference (tracks : list Track) :
  NoDup (map id tracks) ->
  2 <= length (filter isTrackAnalyzed tracks) ->
  orderedTracks (findOptimalOrder tracks) = Rounded.reference_order tracks.
Proof.
  intros Hnd Hl.
  rewrite (findOptimalOrder_search tracks Hl). simpl.
  unfold reference_order.
  change (filter (fun t => not_null (bpm t) && not_null (camelotKey t))
                 tracks)
    with (filter isTrackAnalyzed tracks).
  set (pool := filter isTrackAnalyzed tracks) in *.
  assert (Hpool : NoDup (map id pool)) by now apply NoDup_map_filter.
  destruct (reference_paths pool Hpool) as [-> ->].
  unfold chosen. destruct (search_shape pool) as [-> ->].
  destruct (filter (fun p => length p =? length pool)
                   (map (fun s => greedyPath s pool) pool)) eqn:Ec.
  - now rewrite (filter_nil_negb _ _ Ec).
  - reflexivity.
Qed.

(** C1 does not hold in the real numbers, nor of tracks that share an
    id.  On four tracks of one key with the tempos [133.1], [135.4],
    [143.1] and [140.4], the paths from the first and from the third
    track have the same score in the real numbers, so that the reference
    algorithm keeps the first; the binary64 sums differ in their last
    digit and [findOptimalOrder] returns the second.  And of two tracks
    that share an id [findOptimalOrder] orders both, which the reference
    algorithm does not, in either arithmetic. *)
Lemma findOptimalOrder_reference_fails :
  (map id (orderedTracks (findOptimalOrder Samples.tied))
   = ["c"; "d"; "b"; "a"]
   /\ map id (Spec.reference_order Samples.tied) = ["a"; "b"; "d"; "c"])
  /\ (map id (orderedTracks (findOptimalOrder Samples.shared_id))
      = ["y"; "x"; "x"]
      /\ map id (Spec.reference_order Samples.shared_id) = ["y"; "x"]
      /\ map id (Rounded.reference_order Samples.shared_id)
         = ["y"; "x"]).
Proof. vm_compute. repeat split. Qed.

End OrderFacts.

(* ================================================================== *)
(** ** findCompatibleGroups *)
(* ================================================================== *)

Section SortFacts.
Import Ordering Spec Loops.
Local Open Scope nat_scope.
Local Open Scope list_scope.
Context {A : Type} (cmp : A -> A -> Z).

Lemma sort_insert_perm (x : A) (l : list A) :
  Permutation (sort_insert cmp x l) (x :: l).
Proof.
  induction l as [|h t IH]; simpl; [reflexivity|].
  destruct (cmp x h <=? 0)%Z; [reflexivity|].
  rewrite IH. apply perm_swap.
Qed.

Lemma Array_sort_perm (l : list A) : Permutation (Array_sort cmp l) l.
Proof.
  induction l as [|x l IH]; simpl; [reflexivity|].
  rewrite sort_insert_perm. now constructor.
Qed.

Hypothesis cmp_total : forall x y, (cmp x y <= 0)%Z \/ (cmp y x <= 0)%Z.

Lemma sort_insert_sorted (x : A) (l : list A) :
  Sorted (ordered_by cmp) l -> Sorted (ordered_by cmp) (sort_insert cmp x l).
Proof.
  induction l as [|h t IH]; intros H; simpl.
  - repeat constructor.
  - destruct (Z.leb_spec (cmp x h) 0) as [L|L].
    + constructor; [exact H | constructor; exact L].
    + apply Sorted_inv in H as [Ht Hh].
      constructor; [now apply IH|].
      assert (Hhx : ordered_by cmp h x).
      { unfold ordered_by. destruct (cmp_total x h); [lia | assumption]. }
      destruct t as [|h' t']; simpl.
      * now constructor.
      * destruct (cmp x h' <=? 0)%Z; constructor; [exact Hhx|].
        now apply HdRel_inv in Hh.
Qed.

Lemma Array_sort_sorted (l : list A) :
  Sorted (ordered_by cmp) (Array_sort cmp l).
Proof.
  induction l as [|x l IH]; simpl; [constructor|].
  now apply sort_insert_sorted.
Qed.

Lemma Sorted_neighbours (l pre : list A) (g h : A) (post : list A) :
  Sorted (ordered_by cmp) l -> l = pre ++ g :: h :: post ->
  ordered_by cmp g h.
Proof.
  revert l. induction pre as [|p pre IH]; intros l H E; subst l.
  - apply Sorted_inv in H as [_ H]. now apply HdRel_inv in H.
  - apply Sorted_inv in H as [H _]. now apply (IH _ H).
Qed.

End SortFacts.

Section GroupFacts.
Import Camelot Ordering Spec Rounded Loops.
Local Open Scope nat_scope.
Local Open Scope list_scope.

Variable tracks : list Track.
Hypothesis tracks_distinct : NoDup (map id tracks).

Local Abbreviation pool := (filter isTrackAnalyzed tracks).

Lemma pool_distinct : NoDup (map id pool).
Proof. now apply NoDup_map_filter. Qed.

Lemma pool_same_id (x y : Track) :
  In x pool -> In y pool -> id x = id y -> x = y.
Proof. apply NoDup_map_eq, pool_distinct. Qed.

Lemma linked_pool (x y : Track) :
  linked tracks x y -> In x pool /\ In y pool.
Proof.
  intros (Hx & Hy & L). apply legal_analyzed in L as [Ax Ay].
  split; apply filter_In; auto.
Qed.

Lemma linked_sym (x y : Track) : linked tracks x y -> linked tracks y x.
Proof.
  intros (Hx & Hy & L). split; [|split]; try assumption.
  now apply legal_sym.
Qed.

Lemma connected_sym (x y : Track) :
  connected tracks x y -> connected tracks y x.
Proof.
  induction 1 as [x y L | x | x y z _ IH1 _ IH2].
  - apply rt_step. now apply linked_sym.
  - apply rt_refl.
  - eapply rt_trans; eassumption.
Qed.

Lemma existsb_false {B : Type} (f : B -> bool) (l : list B) :
  existsb f l = false <-> forall x, In x l -> f x = false.
Proof.
  induction l as [|y l IH]; simpl.
  - split; [intros _ x [] | reflexivity].
  - rewrite orb_false_iff, IH. split.
    + intros [Hy Hl] x [<-|Hx]; auto.
    + intros H. split; [apply H; now left|]. intros x Hx. apply H. now right.
Qed.

(** *** One candidate *)

Lemma candidate_step_cases (st : Grouping) (c : Track) :
  (candidate_step st c = st
   /\ (In (id c) (assigned st)
       \/ forall x, In x (group st) -> isTransitionCompatible x c = false))
  \/ (~ In (id c) (assigned st)
      /\ (exists x, In x (group st) /\ isTransitionCompatible x c = true)
      /\ candidate_step st c
         = {| group := group st ++ [c];
              assigned := id c :: assigned st;
              changed := true |}).
Proof.
  unfold candidate_step.
  destruct (set_has (assigned st) (id c)) eqn:Ea.
  { left. split; [reflexivity|]. left. now apply set_has_In. }
  destruct (existsb _ (group st)) eqn:Ec.
  - right. split; [|split; [|reflexivity]].
    + intros H. apply set_has_In in H. congruence.
    + apply existsb_exists in Ec. exact Ec.
  - left. split; [reflexivity|]. right.
    exact (proj1 (existsb_false _ _) Ec).
Qed.

Lemma unassigned_cons_le (i : string) (a : list string) :
  unassigned pool (i :: a) <= unassigned pool a.
Proof.
  unfold unassigned. apply filter_length_weaken.
  intros t _. unfold set_has. simpl.
  destruct (String.eqb (id t) i); simpl; [discriminate | trivial].
Qed.

Lemma unassigned_cons_lt (c : Track) (a : list string) :
  In c pool -> ~ In (id c) a ->
  unassigned pool (id c :: a) < unassigned pool a.
Proof.
  intros Hc Ha. unfold unassigned.
  apply filter_length_strict with (x := c).
  - intros t _. unfold set_has. simpl.
    destruct (String.eqb (id t) (id c)); simpl; [discriminate | trivial].
  - exact Hc.
  - destruct (set_has a (id c)) eqn:E; [|reflexivity].
    apply set_has_In in E. contradiction.
  - unfold set_has. simpl. now rewrite String.eqb_refl.
Qed.

Lemma candidate_step_changed (st : Grouping) (c : Track) :
  changed st = true -> changed (candidate_step st c) = true.
Proof.
  intros H. destruct (candidate_step_cases st c) as [[-> _]|(_ & _ & ->)];
    [exact H | reflexivity].
Qed.

Lemma fold_candidate_changed (cands : list Track) :
  forall st, changed st = true ->
             changed (fold_left candidate_step cands st) = true.
Proof.
  induction cands as [|c cands IH]; intros st H; [exact H|].
  simpl. apply IH. now apply candidate_step_changed.
Qed.

Lemma candidate_step_growing (a0 : list string) (seed : Track)
      (st : Grouping) (c : Track) :
  In c pool ->
  growing tracks a0 seed (group st) (assigned st) ->
  growing tracks a0 seed (group (candidate_step st c))
          (assigned (candidate_step st c)).
Proof.
  intros Hc G.
  destruct (candidate_step_cases st c)
    as [[-> _]|(Hna & (x & Hx & Hxc) & ->)]; [exact G|].
  destruct G as [Gs Gp Gi Gf Gn Gc]. cbn [group assigned].
  assert (Hng : ~ In (id c) (map id (group st))).
  { intros H. apply Hna. apply Gi. now right. }
  constructor.
  - apply in_or_app. now left.
  - intros y Hy. apply in_app_or in Hy as [Hy|[<-|[]]]; auto.
  - intros i. rewrite map_app, in_app_iff. simpl. rewrite Gi.
    clear. tauto.
  - intros y Hy. apply in_app_or in Hy as [Hy|[<-|[]]]; [auto|].
    intros H. apply Hna. apply Gi. now left.
  - rewrite map_app. simpl. apply NoDup_app; [exact Gn | | ].
    + constructor; [intros [] | constructor].
    + intros i Hi [<-|[]]. contradiction.
  - intros y Hy. apply in_app_or in Hy as [Hy|[<-|[]]]; [auto|].
    apply rt_trans with (y := x); [exact (Gc x Hx)|].
    apply rt_step. split; [|split].
    + specialize (Gp x Hx). apply filter_In in Gp. tauto.
    + apply filter_In in Hc. tauto.
    + now apply isTransitionCompatible_true.
Qed.

(** *** One sweep over the candidates *)

Lemma sweep_fold (a0 : list string) (seed : Track) (cands : list Track) :
  incl cands pool ->
  forall st,
    growing tracks a0 seed (group st) (assigned st) ->
    let st' := fold_left candidate_step cands st in
    growing tracks a0 seed (group st') (assigned st')
    /\ unassigned pool (assigned st') <= unassigned pool (assigned st)
    /\ (changed st' = true ->
        changed st = true
        \/ unassigned pool (assigned st') < unassigned pool (assigned st))
    /\ (changed st' = false ->
        group st' = group st /\ assigned st' = assigned st
        /\ forall c, In c cands ->
             In (id c) (assigned st)
             \/ forall x, In x (group st) ->
                          isTransitionCompatible x c = false).
Proof.
  induction cands as [|c cands IH]; intros Hincl st G; cbn [fold_left].
  - cbv zeta. split; [exact G|]. split; [lia|]. split; [auto|].
    intros _. split; [reflexivity|]. split; [reflexivity|]. intros c [].
  - assert (Hc : In c pool) by (apply Hincl; now left).
    assert (Hincl' : incl cands pool).
    { intros y Hy. apply Hincl. now right. }
    specialize (IH Hincl' (candidate_step st c)
                  (candidate_step_growing a0 seed st c Hc G)).
    cbv zeta in IH. destruct IH as (G' & Hle & Htrue & Hfalse).
    cbv zeta.
    destruct (candidate_step_cases st c)
      as [[E Hskip]|(Hna & _ & E)]; rewrite E in *.
    + split; [exact G'|]. split; [exact Hle|]. split; [exact Htrue|].
      intros H. destruct (Hfalse H) as (Eg & Ea & Hall).
      split; [exact Eg|]. split; [exact Ea|].
      intros y [<-|Hy]; [exact Hskip | now apply Hall].
    + cbn [group assigned changed] in *.
      pose proof (unassigned_cons_lt c (assigned st) Hc Hna) as Hlt.
      split; [exact G'|]. split; [lia|]. split; [intros _; right; lia|].
      intros H.
      rewrite fold_candidate_changed in H by reflexivity. discriminate.
Qed.

(** *** The [while (changed)] loop *)

Lemma grow_group_saturates (a0 : list string) (seed : Track) (fuel : nat) :
  forall g a,
    growing tracks a0 seed g a ->
    unassigned pool a < fuel ->
    growing tracks a0 seed (fst (grow_group fuel pool g a))
            (snd (grow_group fuel pool g a))
    /\ saturated pool (fst (grow_group fuel pool g a))
                 (snd (grow_group fuel pool g a)).
Proof.
  induction fuel as [|fuel IH]; intros g a G Hfuel; [lia|].
  cbn [grow_group]. unfold sweep.
  destruct (sweep_fold a0 seed pool (incl_refl _)
              {| group := g; assigned := a; changed := false |} G)
    as (G' & Hle & Htrue & Hfalse).
  cbn [group assigned changed] in *.
  destruct (changed (fold_left candidate_step pool _)) eqn:Ech.
  - apply IH; [exact G'|].
    destruct (Htrue eq_refl) as [?|?]; [discriminate | lia].
  - destruct (Hfalse eq_refl) as (Eg & Ea & Hall).
    cbn [fst snd]. split; [exact G'|].
    rewrite Eg, Ea. exact Hall.
Qed.

(** The fuel [group_step] passes is never exhausted: more fuel gives the
    same group. *)
Lemma grow_group_fuel (a0 : list string) (seed : Track) (fuel : nat) :
  forall fuel' g a,
    growing tracks a0 seed g a ->
    unassigned pool a < fuel -> unassigned pool a < fuel' ->
    grow_group fuel pool g a = grow_group fuel' pool g a.
Proof.
  induction fuel as [|fuel IH]; intros fuel' g a G H1 H2; [lia|].
  destruct fuel' as [|fuel']; [lia|].
  cbn [grow_group]. unfold sweep.
  destruct (sweep_fold a0 seed pool (incl_refl _)
              {| group := g; assigned := a; changed := false |} G)
    as (G' & Hle & Htrue & _).
  cbn [group assigned changed] in *.
  destruct (changed (fold_left candidate_step pool _)) eqn:Ech;
    [|reflexivity].
  destruct (Htrue eq_refl) as [?|?]; [discriminate|].
  apply IH; [exact G' | lia | lia].
Qed.

(** *** A saturated group is closed under the links *)

Lemma saturated_step (groups : list (list Track)) (a0 : list string)
      (seed : Track) (g : list Track) (a : list string) (x y : Track) :
  grouped tracks groups a0 ->
  growing tracks a0 seed g a ->
  saturated pool g a ->
  linked tracks x y -> In x g -> In y g.
Proof.
  intros O G Hsat L Hx.
  destruct (linked_pool x y L) as [Hxp Hyp].
  destruct L as (_ & _ & L).
  destruct (Hsat y Hyp) as [Ha|Hn].
  - apply (grow_ids _ _ _ _ _ G) in Ha as [Ha|Ha].
    + exfalso. apply (grow_fresh _ _ _ _ _ G x Hx).
      apply (grouped_ids _ _ _ O) in Ha.
      apply in_map_iff in Ha as (u & Eu & Hu).
      apply in_concat in Hu as (h & Hh & Hu).
      assert (u = y) as ->.
      { apply pool_same_id; try assumption.
        exact (grouped_pool _ _ _ O h u Hh Hu). }
      apply (grouped_ids _ _ _ O). apply in_map. apply in_concat.
      exists h. split; [exact Hh|].
      apply (grouped_component _ _ _ O h y x Hh Hu).
      apply rt_step. split; [|split].
      * apply filter_In in Hyp. tauto.
      * apply filter_In in Hxp. tauto.
      * now apply legal_sym.
    + apply in_map_iff in Ha as (u & Eu & Hu).
      assert (u = y) as ->; [|exact Hu].
      apply pool_same_id; try assumption.
      exact (grow_pool _ _ _ _ _ G u Hu).
  - apply isTransitionCompatible_true in L.
    rewrite (Hn x Hx) in L. discriminate.
Qed.

Lemma saturated_closed (groups : list (list Track)) (a0 : list string)
      (seed : Track) (g : list Track) (a : list string) :
  grouped tracks groups a0 ->
  growing tracks a0 seed g a ->
  saturated pool g a ->
  forall x y, connected tracks x y -> In x g -> In y g.
Proof.
  intros O G Hsat x y C.
  induction C as [x y L | x | x y z _ IH1 _ IH2]; intros Hx.
  - exact (saturated_step groups a0 seed g a x y O G Hsat L Hx).
  - exact Hx.
  - auto.
Qed.

(** *** One iteration of the outer loop *)

Lemma group_step_grouped (groups : list (list Track)) (a : list string)
      (t : Track) :
  In t pool ->
  grouped tracks groups a ->
  grouped tracks (fst (group_step pool (groups, a) t))
          (snd (group_step pool (groups, a) t))
  /\ (forall i, In i a -> In i (snd (group_step pool (groups, a) t)))
  /\ In (id t) (snd (group_step pool (groups, a) t)).
Proof.
  intros Ht O. cbn [group_step].
  destruct (set_has a (id t)) eqn:Ea.
  { cbn [fst snd]. split; [exact O|]. split; [auto|].
    now apply set_has_In. }
  assert (Hna : ~ In (id t) a).
  { intros H. apply set_has_In in H. congruence. }
  assert (G0 : growing tracks a t [t] (id t :: a)).
  { constructor.
    - now left.
    - intros x [<-|[]]. exact Ht.
    - intros i. simpl. tauto.
    - intros x [<-|[]]. exact Hna.
    - simpl. constructor; [intros [] | constructor].
    - intros x [<-|[]]. apply rt_refl. }
  assert (Hfuel : unassigned pool (id t :: a) < S (length pool)).
  { unfold unassigned.
    pose proof (filter_length_le
                  (fun u => negb (set_has (id t :: a) (id u))) pool).
    lia. }
  destruct (grow_group_saturates a t _ _ _ G0 Hfuel) as [G Hsat].
  destruct (grow_group (S (length pool)) pool [t] (id t :: a))
    as [g a'] eqn:Eg.
  cbn [fst snd] in *.
  split; [|split].
  - constructor.
    + intros i. rewrite concat_app, map_app, in_app_iff. simpl.
      rewrite app_nil_r, (grow_ids _ _ _ _ _ G i),
        (grouped_ids _ _ _ O i). tauto.
    + rewrite concat_app, map_app. simpl. rewrite app_nil_r.
      apply NoDup_app.
      * exact (grouped_nodup _ _ _ O).
      * exact (grow_nodup _ _ _ _ _ G).
      * intros i Hi Hg. apply in_map_iff in Hg as (x & <- & Hx).
        apply (grow_fresh _ _ _ _ _ G x Hx).
        now apply (grouped_ids _ _ _ O).
    + intros h x Hh Hx. apply in_app_or in Hh as [Hh|[<-|[]]].
      * exact (grouped_pool _ _ _ O h x Hh Hx).
      * exact (grow_pool _ _ _ _ _ G x Hx).
    + intros h Hh. apply in_app_or in Hh as [Hh|[<-|[]]].
      * exact (grouped_nonempty _ _ _ O h Hh).
      * intros E. pose proof (grow_seed _ _ _ _ _ G) as Hs.
        rewrite E in Hs. destruct Hs.
    + intros h x y Hh Hx. apply in_app_or in Hh as [Hh|[<-|[]]].
      * exact (grouped_component _ _ _ O h x y Hh Hx).
      * split.
        -- intros Hy. apply rt_trans with (y := t).
           ++ apply connected_sym. exact (grow_connected _ _ _ _ _ G x Hx).
           ++ exact (grow_connected _ _ _ _ _ G y Hy).
        -- intros C.
           exact (saturated_closed groups a t g a' O G Hsat x y C Hx).
  - intros i Hi. apply (grow_ids _ _ _ _ _ G). now left.
  - apply (grow_ids _ _ _ _ _ G). right.
    apply in_map. exact (grow_seed _ _ _ _ _ G).
Qed.

Lemma group_fold_grouped (seeds : list Track) :
  incl seeds pool ->
  forall st,
    grouped tracks (fst st) (snd st) ->
    grouped tracks (fst (fold_left (group_step pool) seeds st))
            (snd (fold_left (group_step pool) seeds st))
    /\ (forall i, In i (snd st) ->
                  In i (snd (fold_left (group_step pool) seeds st)))
    /\ (forall t, In t seeds ->
                  In (id t) (snd (fold_left (group_step pool) seeds st))).
Proof.
  induction seeds as [|t seeds IH]; intros Hincl [groups a] O.
  - simpl. split; [exact O|]. split; [auto | intros t []].
  - cbn [fold_left].
    assert (Ht : In t pool) by (apply Hincl; now left).
    assert (Hincl' : incl seeds pool).
    { intros y Hy. apply Hincl. now right. }
    destruct (group_step_grouped groups a t Ht O) as (O1 & M1 & T1).
    destruct (IH Hincl' _ O1) as (O2 & M2 & T2).
    split; [exact O2|]. split.
    + intros i Hi. apply M2, M1, Hi.
    + intros u [<-|Hu]; [apply M2, T1 | now apply T2].
Qed.

Lemma grouped_nil : grouped tracks [] [].
Proof.
  constructor; simpl.
  - intros i. tauto.
  - constructor.
  - intros g x [].
  - intros g [].
  - intros g x y [].
Qed.

Lemma Permutation_concat {B : Type} (l l' : list (list B)) :
  Permutation l l' -> Permutation (concat l) (concat l').
Proof.
  induction 1 as [|x l l' _ IH|x y l|l l' l'' _ IH1 _ IH2]; simpl.
  - reflexivity.
  - now apply Permutation_app_head.
  - rewrite !app_assoc. apply Permutation_app_tail, Permutation_app_comm.
  - now transitivity (concat l').
Qed.

(** The groups before sorting: a partition of the analyzed tracks into
    the classes of [connected]. *)
Lemma groups_partition :
  let groups := fst (fold_left (group_step pool) pool ([], [])) in
  let a := snd (fold_left (group_step pool) pool ([], [])) in
  grouped tracks groups a /\ Permutation (concat groups) pool.
Proof.
  destruct (group_fold_grouped pool (incl_refl _) ([], []) grouped_nil)
    as (O & _ & T).
  cbv zeta. split; [exact O|].
  apply NoDup_Permutation.
  - exact (NoDup_map_inv _ _ (grouped_nodup _ _ _ O)).
  - exact (NoDup_map_inv _ _ pool_distinct).
  - intros x. split.
    + intros Hx. apply in_concat in Hx as (g & Hg & Hx).
      exact (grouped_pool _ _ _ O g x Hg Hx).
    + intros Hx. specialize (T x Hx).
      apply (grouped_ids _ _ _ O) in T.
      apply in_map_iff in T as (u & Eu & Hu).
      assert (u = x) as <-; [|exact Hu].
      apply pool_same_id; try assumption.
      apply in_concat in Hu as (g & Hg & Hu).
      exact (grouped_pool _ _ _ O g u Hg Hu).
Qed.

Lemma findCompatibleGroups_sort :
  findCompatibleGroups tracks
  = Array_sort by_size_desc
      (fst (fold_left (group_step pool) pool ([], []))).
Proof.
  unfold findCompatibleGroups.
  destruct (filter isTrackAnalyzed tracks); reflexivity.
Qed.

(** C10, in binary64 arithmetic and for distinct ids: the groups are
    exactly the connected components of the analyzed tracks under the
    legal-transition relation taken with the tempo differences that the
    subtraction gives: each group is the class of each of its tracks, the
    groups hold every analyzed track once and no unanalyzed track, none
    is empty, and they come by descending size. *)
Theorem findCompatibleGroups_components :
  (forall g, In g (findCompatibleGroups tracks) -> g <> [])
  /\ (forall g t, In g (findCompatibleGroups tracks) -> In t g ->
                  In t tracks /\ analyzed t)
  /\ Permutation (concat (findCompatibleGroups tracks))
                 (filter isTrackAnalyzed tracks)
  /\ (forall g x y, In g (findCompatibleGroups tracks) -> In x g ->
                    (In y g <-> Rounded.connected tracks x y))
  /\ descending_size (findCompatibleGroups tracks).
Proof.
  rewrite findCompatibleGroups_sort.
  destruct groups_partition as [O P].
  set (groups := fst (fold_left (group_step pool) pool ([], []))) in *.
  pose proof (Array_sort_perm by_size_desc groups) as Hperm.
  assert (Hin : forall g, In g (Array_sort by_size_desc groups) ->
                          In g groups).
  { intros g. apply Permutation_in. exact Hperm. }
  split; [|split; [|split; [|split]]].
  - intros g Hg. exact (grouped_nonempty _ _ _ O g (Hin g Hg)).
  - intros g t Hg Ht.
    pose proof (grouped_pool _ _ _ O g t (Hin g Hg) Ht) as Hp.
    apply filter_In in Hp as [Hp Ha].
    split; [exact Hp | now apply isTrackAnalyzed_analyzed].
  - rewrite (Permutation_concat _ _ Hperm). exact P.
  - intros g x y Hg Hx.
    exact (grouped_component _ _ _ O g x y (Hin g Hg) Hx).
  - intros pre g h post E.
    assert (H : ordered_by by_size_desc g h).
    { apply (Sorted_neighbours by_size_desc
               (Array_sort by_size_desc groups) pre g h post); [|exact E].
      apply Array_sort_sorted. intros x y. unfold by_size_desc. lia. }
    unfold ordered_by, by_size_desc in H. lia.
Qed.

End GroupFacts.

Section GroupSamples.
Import Camelot Ordering Samples.
Local Open Scope nat_scope.
Local Open Scope list_scope.

Lemma slow_alone (x y : Track) :
  Spec.connected [slow; slow20] x y -> x = slow -> y = slow.
Proof.
  induction 1 as [x y (_ & Hy & L) | x | x y z _ IH1 _ IH2].
  - intros ->. destruct Hy as [<-|[<-|[]]]; [reflexivity|].
    exfalso. exact (slow_not_legal L).
  - trivial.
  - auto.
Qed.

(** C10 does not hold in the real numbers, nor of tracks that share an
    id.  The tracks of tempos [0.1] and [20.1] and one key are put in one
    group, although their real tempo difference is above 20 and nothing
    else links them.  And of three analyzed tracks of which two share an
    id, the groups hold two only. *)
Lemma findCompatibleGroups_components_fail :
  (findCompatibleGroups [slow; slow20] = [[slow; slow20]]
   /\ ~ Spec.connected [slow; slow20] slow slow20)
  /\ (length (filter isTrackAnalyzed shared_id) = 3
      /\ map (map id) (findCompatibleGroups shared_id) = [["y"; "x"]]).
Proof.
  split; split; try (vm_compute; reflexivity).
  intros C. apply slow_alone in C; [|reflexivity].
  apply (f_equal id) in C. discriminate.
Qed.

End GroupSamples.

(* ================================================================== *)
(** ** The theorems at the sample batch *)
(* ================================================================== *)

Section SampleFacts.
Import Camelot Ordering Spec Rounded Loops Samples.
Local Open Scope nat_scope.
Local Open Scope list_scope.

Lemma batch_distinct : NoDup (map id batch).
Proof.
  unfold batch. simpl.
  repeat constructor; simpl; intuition discriminate.
Defined.

(** The scenarios of section 8 of the specification. *)
Example findOptimalOrder_empty :
  findOptimalOrder []
  = {| orderedTracks := []; orphanTracks := [];
       transitions := []; isComplete := true |}.
Proof. reflexivity. Qed.

Example findOptimalOrder_single :
  findOptimalOrder [track1]
  = {| orderedTracks := [track1]; orphanTracks := [];
       transitions := []; isComplete := true |}.
Proof. reflexivity. Qed.

Example findOptimalOrder_three :
  orderedTracks (findOptimalOrder [track1; track2; track3])
  = [track1; track2; track3]
  /\ orphanTracks (findOptimalOrder [track1; track2; track3]) = []
  /\ length (transitions (findOptimalOrder [track1; track2; track3])) = 2
  /\ isComplete (findOptimalOrder [track1; track2; track3]) = true.
Proof. vm_compute. repeat split. Qed.

Example findOptimalOrder_tempo_gap :
  let fast := mkTrack "2" (whole 150) (Some K8B) in
  orderedTracks (findOptimalOrder [track1; fast]) = [track1]
  /\ orphanTracks (findOptimalOrder [track1; fast]) = [fast]
  /\ isComplete (findOptimalOrder [track1; fast]) = false.
Proof. vm_compute. repeat split. Qed.

Example findCompatibleGroups_batch :
  findCompatibleGroups batch = [[track1; track2; track3]; [track4]].
Proof. reflexivity. Qed.

(** Why the batch must have distinct ids: a greedy path leaves out every
    track with the id of its seed, so a track listed twice is placed once
    and is no orphan either. *)
Remark findOptimalOrder_repeated_id :
  orderedTracks (findOptimalOrder [track1; track1]) = [track1]
  /\ orphanTracks (findOptimalOrder [track1; track1]) = []
  /\ isComplete (findOptimalOrder [track1; track1]) = false.
Proof. vm_compute. repeat split. Qed.

Lemma calculateTransitionQuality_tiers_witness :
  calculateTransitionQuality track1 track2 = excellent
  /\ bpmDifference (createTransition track1 track2) = Number.of_Z 2
  /\ quality (createTransition track5 track1) = poor.
Proof.
  destruct (calculateTransitionQuality_tiers track1 track2) as [T _].
  destruct (T _ K8B _ K9B eq_refl eq_refl eq_refl eq_refl)
    as (_ & E & _ & _ & D & _).
  destruct (calculateTransitionQuality_tiers track5 track1) as [_ U].
  destruct (U (or_introl eq_refl)) as (_ & _ & _ & P).
  split; [|split; [exact D | exact P]].
  apply E; [discriminate | reflexivity].
Defined.

Lemma isTransitionCompatible_exact_witness :
  Number.abs (Number.sub (Number.of_Z 128) (Number.of_Z 148))
  = Number.of_Z 20
  /\ isTransitionCompatible (mkTrack "1" (whole 128) (Some K8B))
                            (mkTrack "2" (whole 148) (Some K8B)) = true.
Proof.
  split; [reflexivity|].
  destruct (isTransitionCompatible_exact track1 track2) as (_ & _ & T).
  exact (proj1 (T "1" "2" (Number.mkDouble (Number.of_Z 128) eq_refl)
                  (Number.mkDouble (Number.of_Z 148) eq_refl) K8B)
               eq_refl).
Defined.

Lemma findOptimalOrder_reference_witness :
  NoDup (map id batch)
  /\ 2 <= length (filter isTrackAnalyzed batch)
  /\ orderedTracks (findOptimalOrder batch)
     = Rounded.reference_order batch.
Proof.
  split; [exact batch_distinct|].
  split; [vm_compute; lia|].
  apply (findOptimalOrder_reference batch batch_distinct).
  vm_compute. lia.
Defined.

Lemma findOptimalOrder_total_lengths_witness :
  NoDup (map id batch)
  /\ length (orderedTracks (findOptimalOrder batch))
       + length (orphanTracks (findOptimalOrder batch))
     = length batch
  /\ Z.of_nat (length (transitions (findOptimalOrder batch)))
     = Z.max (Z.of_nat (length (orderedTracks (findOptimalOrder batch))) - 1)
             0.
Proof.
  split; [exact batch_distinct|].
  apply (findOptimalOrder_total_lengths batch batch_distinct).
Defined.

Lemma findOptimalOrder_isComplete_witness :
  NoDup (map id batch)
  /\ (isComplete (findOptimalOrder batch) = true <->
      forall t, In t batch ->
                analyzed t /\ In t (orderedTracks (findOptimalOrder batch))).
Proof.
  split; [exact batch_distinct|].
  exact (proj1 (findOptimalOrder_isComplete batch batch_distinct)).
Defined.

Lemma findOptimalOrder_neighbours_legal_witness :
  orderedTracks (findOptimalOrder batch) = [] ++ track1 :: track2 :: [track3]
  /\ isTransitionCompatible track1 track2 = true.
Proof.
  assert (E : orderedTracks (findOptimalOrder batch)
              = [] ++ track1 :: track2 :: [track3])
    by (vm_compute; reflexivity).
  split; [exact E|].
  exact (proj1 (findOptimalOrder_neighbours_legal
                  batch [] track1 track2 [track3] E)).
Defined.

Lemma findCompatibleGroups_components_witness :
  NoDup (map id batch)
  /\ Permutation (concat (findCompatibleGroups batch))
                 (filter isTrackAnalyzed batch)
  /\ descending_size (findCompatibleGroups batch).
Proof.
  split; [exact batch_distinct|].
  pose proof (findCompatibleGroups_components batch batch_distinct)
    as (_ & _ & P & _ & D).
  split; assumption.
Defined.

End SampleFacts.

(* ================================================================== *)
(** ** More on the Camelot wheel *)
(* ================================================================== *)

Section WheelFacts.
Import JsString Camelot Spec.
Local Open Scope Z_scope.

(** X1: [getCamelotDistance] is a metric on the 24 keys: symmetric, zero
    exactly between a key and itself, and with the triangle inequality. *)
Theorem getCamelotDistance_metric (A B C : CamelotKey) :
  getCamelotDistance A B = getCamelotDistance B A
  /\ (getCamelotDistance A B = 0 <-> A = B)
  /\ getCamelotDistance A C
     <= getCamelotDistance A B + getCamelotDistance B C.
Proof.
  split; [|split].
  - apply Z.eqb_eq.
    apply (for_all_key_pairs
             (fun a b => getCamelotDistance a b =? getCamelotDistance b a)).
    vm_compute. reflexivity.
  - destruct A, B; vm_compute; split; intros H;
      first [reflexivity | discriminate H].
  - assert (H : forallb (fun c => getCamelotDistance A c
                                  <=? getCamelotDistance A B
                                      + getCamelotDistance B c)
                        VALID_CAMELOT_KEYS = true).
    { apply (for_all_key_pairs
               (fun a b =>
                  forallb (fun c => getCamelotDistance a c
                                    <=? getCamelotDistance a b
                                        + getCamelotDistance b c)
                          VALID_CAMELOT_KEYS)).
      vm_compute. reflexivity. }
    rewrite forallb_forall in H.
    apply Z.leb_le. exact (H C (all_keys_valid C)).
Qed.

(** X2: Two keys are compatible for mixing exactly when their distance on the
    wheel is at most 1. *)
Theorem isCamelotCompatible_distance (A B : CamelotKey) :
  isCamelotCompatible A B = (getCamelotDistance A B <=? 1).
Proof.
  apply eqb_prop.
  apply (for_all_key_pairs
           (fun a b => Bool.eqb (isCamelotCompatible a b)
                                (getCamelotDistance a b <=? 1))).
  vm_compute. reflexivity.
Qed.

(** X3: From any position of the wheel there are exactly four compatible
    keys: the key itself, its relative and its two neighbours. *)
Theorem isCamelotCompatible_four (A : CamelotKey) :
  length (filter (isCamelotCompatible A) VALID_CAMELOT_KEYS) = 4%nat
  /\ length (filter (fun B => match getKeyCompatibilityType A B with
                              | adjacent => true | _ => false end)
                    VALID_CAMELOT_KEYS) = 2%nat
  /\ length (filter (fun B => match getKeyCompatibilityType A B with
                              | relative => true | _ => false end)
                    VALID_CAMELOT_KEYS) = 1%nat.
Proof. destruct A; vm_compute; repeat split. Qed.

(** X4: [VALID_CAMELOT_KEYS] lists every key once, and every key is the value
    of a label of the table, which [musicalKeyToCamelot] returns for it. *)
Theorem CAMELOT_MAP_covers_wheel (k : CamelotKey) :
  NoDup VALID_CAMELOT_KEYS
  /\ In k VALID_CAMELOT_KEYS
  /\ exists label,
       In (label, k) CAMELOT_MAP
       /\ musicalKeyToCamelot label = Some (OwnKey k).
Proof.
  split; [|split].
  - unfold VALID_CAMELOT_KEYS.
    repeat (constructor; [simpl; intuition discriminate|]). constructor.
  - apply all_keys_valid.
  - destruct (find (fun e => match musicalKeyToCamelot (fst e) with
                             | Some (OwnKey k') =>
                                 Z.eqb (key_number k') (key_number k)
                                 && letter_eqb (key_letter k') (key_letter k)
                             | _ => false
                             end
                             && Z.eqb (key_number (snd e)) (key_number k)
                             && letter_eqb (key_letter (snd e))
                                           (key_letter k))
                   CAMELOT_MAP) as [[label k']|] eqn:E.
    + apply find_some in E as [Hin E]. cbn [fst snd] in E.
      exists label.
      assert (Ek : k' = k).
      { apply andb_true_iff in E as [E El].
        apply andb_true_iff in E as [_ En].
        apply Z.eqb_eq in En. apply letter_eqb_eq in El.
        destruct k', k; simpl in *; congruence. }
      subst k'. split; [exact Hin|].
      apply andb_true_iff in E as [E _].
      apply andb_true_iff in E as [E _].
      destruct (musicalKeyToCamelot label) as [[k''|?]|]; try discriminate.
      apply andb_true_iff in E as [En El].
      apply Z.eqb_eq in En. apply letter_eqb_eq in El.
      do 2 f_equal. destruct k'', k; simpl in *; congruence.
    + destruct k; vm_compute in E; discriminate.
Qed.

End WheelFacts.

(* ================================================================== *)
(** ** More on label resolution and transitions *)
(* ================================================================== *)

Section ResolveMore.
Import JsString Camelot Spec.

Lemma spec_resolve_entry (label : string) (k : CamelotKey) :
  spec_resolve label = Some k <->
  exists name, In (name, k) CAMELOT_MAP
               /\ toLowerCase name = toLowerCase (trim label).
Proof.
  unfold spec_resolve. split.
  - destruct (find _ CAMELOT_MAP) as [[name k']|] eqn:E; [|discriminate].
    intros [= ->]. apply find_some in E as [Hin E]. cbn [fst] in E.
    apply String.eqb_eq in E. eauto.
  - intros (name & Hin & E).
    pose proof table_labels_resolve as T. rewrite Forall_forall in T.
    destruct (T _ Hin) as [Ht Hr]. cbn [fst snd] in Ht, Hr.
    unfold spec_resolve in Hr. rewrite Ht, E in Hr. exact Hr.
Qed.

(** X5: Away from the property names of [Object.prototype], a label resolves
    to the key of the table entry that equals it up to case and
    surrounding white space, and to [null] when there is none; the value
    is never an inherited one. *)
Theorem musicalKeyToCamelot_own_entry (label : string) :
  existsb (String.eqb (trim label)) Object_prototype_keys = false ->
  (forall k, musicalKeyToCamelot label = Some (OwnKey k) <->
             exists name, In (name, k) CAMELOT_MAP
                          /\ toLowerCase name = toLowerCase (trim label))
  /\ (musicalKeyToCamelot label = None <->
      forall name k, In (name, k) CAMELOT_MAP ->
                     toLowerCase name <> toLowerCase (trim label))
  /\ (forall n, musicalKeyToCamelot label <> Some (Inherited n)).
Proof.
  intros H. rewrite (musicalKeyToCamelot_resolve label H).
  split; [|split].
  - intros k. rewrite <- spec_resolve_entry.
    destruct (spec_resolve label); simpl; split; congruence.
  - destruct (spec_resolve label) as [k|] eqn:E; simpl.
    + split; [discriminate|]. intros Hn.
      apply spec_resolve_entry in E as (name & Hin & El).
      exfalso. exact (Hn name k Hin El).
    + split; [|reflexivity]. intros _ name k Hin El.
      assert (Hk : spec_resolve label = Some k).
      { apply (proj2 (spec_resolve_entry label k)).
        exists name. split; assumption. }
      congruence.
  - intros n. destruct (spec_resolve label); simpl; congruence.
Qed.

Lemma musicalKeyToCamelot_own_entry_witness :
  existsb (String.eqb (trim "  c MAJOR ")) Object_prototype_keys = false
  /\ musicalKeyToCamelot "  c MAJOR " = Some (OwnKey K8B).
Proof.
  assert (H : existsb (String.eqb (trim "  c MAJOR "))
                      Object_prototype_keys = false) by reflexivity.
  split; [exact H|].
  apply (proj1 (musicalKeyToCamelot_own_entry "  c MAJOR " H)).
  exists "C major". split; [|reflexivity].
  unfold CAMELOT_MAP. simpl. tauto.
Defined.

End ResolveMore.

Section QualityFacts.
Import Camelot Ordering Spec Rounded.

Lemma bpm_abs_diff_sym (X Y : Track) : bpm_abs_diff X Y = bpm_abs_diff Y X.
Proof. apply bpm_abs_diff_comm. Qed.

(** X6: A transition is rated [poor] exactly when it is not a compatible
    transition, and the rating does not depend on the direction. *)
Theorem calculateTransitionQuality_poor_iff (X Y : Track) :
  (calculateTransitionQuality X Y = poor <->
   isTransitionCompatible X Y = false)
  /\ calculateTransitionQuality X Y = calculateTransitionQuality Y X.
Proof.
  split.
  - unfold calculateTransitionQuality, isTransitionCompatible,
      isCamelotCompatible.
    destruct (negb (isTrackAnalyzed X) || negb (isTrackAnalyzed Y)) eqn:E;
      [tauto|].
    destruct (camelotKey X) as [ka|], (camelotKey Y) as [kb|];
      try (destruct (Number.lt MAX_BPM_DIFFERENCE (bpm_abs_diff X Y));
           tauto).
    destruct (getKeyCompatibilityType ka kb),
      (Number.lt MAX_BPM_DIFFERENCE (bpm_abs_diff X Y)),
      (Number.lt (bpm_abs_diff X Y) (Number.of_Z 5)),
      (Number.lt (bpm_abs_diff X Y) (Number.of_Z 10));
      split; intros; try reflexivity; try discriminate.
  - unfold calculateTransitionQuality.
    rewrite (bpm_abs_diff_sym Y X), (orb_comm (negb (isTrackAnalyzed Y))).
    destruct (negb (isTrackAnalyzed X) || negb (isTrackAnalyzed Y));
      [reflexivity|].
    destruct (camelotKey X) as [ka|], (camelotKey Y) as [kb|];
      try reflexivity.
    now rewrite (getKeyCompatibilityType_sym kb ka).
Qed.

Lemma createTransition_legal (a b : Track) :
  legal a b ->
  fromTrack (createTransition a b) = a
  /\ toTrack (createTransition a b) = b
  /\ quality (createTransition a b) <> poor
  /\ keyCompatibility (createTransition a b) <> incompatible
  /\ Number.le (bpmDifference (createTransition a b)) (Number.of_Z 20)
     = true.
Proof.
  intros L. pose proof L as C. apply isTransitionCompatible_true in C.
  destruct L as (ba & ka & bb & kb & Hba & Hka & Hbb & Hkb & Hd & Hc).
  unfold createTransition. cbn [fromTrack toTrack quality keyCompatibility
                                bpmDifference].
  assert (Ha : isTrackAnalyzed a && isTrackAnalyzed b = true).
  { unfold isTrackAnalyzed. now rewrite Hba, Hka, Hbb, Hkb. }
  rewrite Ha, Hka, Hkb.
  split; [reflexivity|]. split; [reflexivity|]. split; [|split].
  - unfold calculateTransitionQuality, isTransitionCompatible in *.
    destruct (negb (isTrackAnalyzed a) || negb (isTrackAnalyzed b));
      [discriminate|].
    rewrite Hka, Hkb in *. unfold isCamelotCompatible in Hc.
    destruct (Number.lt MAX_BPM_DIFFERENCE (bpm_abs_diff a b));
      [discriminate|].
    destruct (getKeyCompatibilityType ka kb),
      (Number.lt (bpm_abs_diff a b) (Number.of_Z 5)),
      (Number.lt (bpm_abs_diff a b) (Number.of_Z 10));
      discriminate.
  - unfold isCamelotCompatible in Hc.
    destruct (getKeyCompatibilityType ka kb); congruence.
  - unfold bpm_abs_diff. rewrite Hba, Hbb. exact Hd.
Qed.

End QualityFacts.

(* ================================================================== *)
(** ** More on findOptimalOrder *)
(* ================================================================== *)

Section OrderMore.
Import Camelot Ordering Spec Rounded Loops.
Local Open Scope nat_scope.
Local Open Scope list_scope.

Lemma ordered_neighbours_legal (tracks : list Track) :
  neighbours_legal (orderedTracks (findOptimalOrder tracks)).
Proof.
  destruct (le_lt_dec (length (filter isTrackAnalyzed tracks)) 1)
    as [Hs|Hl].
  - rewrite (findOptimalOrder_small tracks Hs). simpl.
    intros pre a b post E. apply (f_equal (@length Track)) in E.
    rewrite length_app in E. simpl in E. lia.
  - rewrite (findOptimalOrder_search tracks Hl). simpl.
    assert (Hne : filter isTrackAnalyzed tracks <> []).
    { intros Hnil. rewrite Hnil in Hl. simpl in Hl. lia. }
    destruct (chosen_cases _ Hne) as (seed & _ & -> & _).
    apply greedyPath_legal.
Qed.

Lemma findOptimalOrder_transitions (tracks : list Track) :
  transitions (findOptimalOrder tracks)
  = build_transitions (orderedTracks (findOptimalOrder tracks)).
Proof.
  destruct (le_lt_dec (length (filter isTrackAnalyzed tracks)) 1)
    as [Hs|Hl].
  - rewrite (findOptimalOrder_small tracks Hs). simpl.
    destruct (filter isTrackAnalyzed tracks) as [|a [|b l]];
      try reflexivity.
    simpl in Hs. lia.
  - now rewrite (findOptimalOrder_search tracks Hl).
Qed.

Lemma build_transitions_In (l : list Track) (tr : Transition) :
  In tr (build_transitions l) ->
  exists pre a b post,
    l = pre ++ a :: b :: post /\ tr = createTransition a b.
Proof.
  induction l as [|a l IH]; [intros []|].
  destruct l as [|b l']; [intros []|].
  change (build_transitions (a :: b :: l'))
    with (createTransition a b :: build_transitions (b :: l')).
  intros [<-|H].
  - exists [], a, b, l'. split; reflexivity.
  - destruct (IH H) as (pre & x & y & post & E & Et).
    exists (a :: pre), x, y, post. split; [|exact Et].
    simpl. now rewrite E.
Qed.

(** X7: Every transition of a result joins two neighbours of [orderedTracks],
    is never rated [poor], has compatible keys and a tempo difference of
    at most 20. *)
Theorem findOptimalOrder_transitions_sound
        (tracks : list Track) (tr : Transition) :
  In tr (transitions (findOptimalOrder tracks)) ->
  (exists pre post,
      orderedTracks (findOptimalOrder tracks)
      = pre ++ fromTrack tr :: toTrack tr :: post)
  /\ quality tr <> poor
  /\ keyCompatibility tr <> incompatible
  /\ Number.le (bpmDifference tr) (Number.of_Z 20) = true.
Proof.
  rewrite findOptimalOrder_transitions. intros H.
  apply build_transitions_In in H as (pre & a & b & post & E & ->).
  pose proof (ordered_neighbours_legal tracks pre a b post E) as L.
  destruct (createTransition_legal a b L) as (Ef & Et & Hq & Hk & Hd).
  split; [|split; [exact Hq | split; [exact Hk | exact Hd]]].
  exists pre, post. now rewrite Ef, Et.
Qed.

Lemma filter_partition_perm {A : Type} (f : A -> bool) (l : list A) :
  Permutation (filter f l ++ filter (fun x => negb (f x)) l) l.
Proof.
  induction l as [|x l IH]; simpl; [reflexivity|].
  destruct (f x); simpl.
  - now constructor.
  - rewrite <- Permutation_middle. now constructor.
Qed.

Lemma placed_perm (pool path : list Track) :
  NoDup (map id pool) -> NoDup (map id path) -> incl path pool ->
  Permutation path
    (filter (fun t => set_has (map id path) (id t)) pool).
Proof.
  intros Hp Hq Hi. apply NoDup_Permutation.
  - exact (NoDup_map_inv _ _ Hq).
  - apply NoDup_filter. exact (NoDup_map_inv _ _ Hp).
  - intros x. rewrite filter_In, set_has_In. split.
    + intros Hx. split; [now apply Hi | now apply in_map].
    + intros [Hx Hid]. apply in_map_iff in Hid as (u & Eu & Hu).
      assert (u = x) as <-; [|exact Hu].
      apply (NoDup_map_eq id pool); auto.
Qed.

Lemma ordered_fresh (tracks : list Track) :
  NoDup (map id tracks) ->
  incl (orderedTracks (findOptimalOrder tracks))
       (filter isTrackAnalyzed tracks)
  /\ NoDup (map id (orderedTracks (findOptimalOrder tracks))).
Proof.
  intros Hnd.
  assert (Hpool : NoDup (map id (filter isTrackAnalyzed tracks)))
    by now apply NoDup_map_filter.
  destruct (le_lt_dec (length (filter isTrackAnalyzed tracks)) 1)
    as [Hs|Hl].
  - rewrite (findOptimalOrder_small tracks Hs). simpl.
    split; [apply incl_refl | exact Hpool].
  - rewrite (findOptimalOrder_search tracks Hl). simpl.
    apply chosen_fresh; [exact Hpool|].
    intros Hnil. rewrite Hnil in Hl. simpl in Hl. lia.
Qed.

Lemma orphans_split (tracks : list Track) :
  NoDup (map id tracks) ->
  orphanTracks (findOptimalOrder tracks)
  = filter (fun t => negb (set_has
              (map id (orderedTracks (findOptimalOrder tracks))) (id t)))
           (filter isTrackAnalyzed tracks)
    ++ filter (fun t => negb (isTrackAnalyzed t)) tracks.
Proof.
  intros Hnd.
  destruct (le_lt_dec (length (filter isTrackAnalyzed tracks)) 1)
    as [Hs|Hl].
  - rewrite (findOptimalOrder_small tracks Hs). simpl.
    replace (filter _ (filter isTrackAnalyzed tracks)) with (@nil Track);
      [reflexivity|].
    symmetry.
    destruct (filter isTrackAnalyzed tracks) as [|a [|b l]]; simpl.
    + reflexivity.
    + unfold set_has. simpl. now rewrite String.eqb_refl.
    + simpl in Hs. lia.
  - now rewrite (findOptimalOrder_search tracks Hl).
Qed.

Lemma ordered_orphans_perm (tracks : list Track) :
  NoDup (map id tracks) ->
  Permutation (orderedTracks (findOptimalOrder tracks)
               ++ orphanTracks (findOptimalOrder tracks)) tracks.
Proof.
  intros Hnd.
  assert (Hpool : NoDup (map id (filter isTrackAnalyzed tracks)))
    by now apply NoDup_map_filter.
  destruct (ordered_fresh tracks Hnd) as [Hi Hd].
  rewrite (orphans_split tracks Hnd), app_assoc.
  transitivity (filter isTrackAnalyzed tracks
                ++ filter (fun t => negb (isTrackAnalyzed t)) tracks);
    [|apply filter_partition_perm].
  apply Permutation_app_tail.
  transitivity
    (filter (fun t => set_has
               (map id (orderedTracks (findOptimalOrder tracks))) (id t))
            (filter isTrackAnalyzed tracks)
     ++ filter (fun t => negb (set_has
               (map id (orderedTracks (findOptimalOrder tracks))) (id t)))
            (filter isTrackAnalyzed tracks)).
  - apply Permutation_app_tail. now apply placed_perm.
  - apply (filter_partition_perm
             (fun t => set_has
                (map id (orderedTracks (findOptimalOrder tracks))) (id t))).
Qed.

(** X8: On a batch of tracks (distinct ids), the ordered tracks followed by
    the orphans are a rearrangement of the input: no track is lost,
    invented or listed twice. *)
Theorem findOptimalOrder_permutation (tracks : list Track) :
  NoDup (map id tracks) ->
  Permutation (orderedTracks (findOptimalOrder tracks)
               ++ orphanTracks (findOptimalOrder tracks)) tracks
  /\ NoDup (map id (orderedTracks (findOptimalOrder tracks)
                    ++ orphanTracks (findOptimalOrder tracks))).
Proof.
  intros Hnd. pose proof (ordered_orphans_perm tracks Hnd) as P.
  split; [exact P|].
  apply (Permutation_NoDup (l := map id tracks)); [|exact Hnd].
  symmetry. now apply Permutation_map.
Qed.

(** *** The path stops at a dead end only *)

Lemma greedy_loop_dead_end (fuel : nat) :
  forall current remaining pre d,
    length remaining <= fuel ->
    forall t, In t remaining ->
      In (id t)
         (map id (greedy_loop fuel current remaining (pre ++ [current])))
      \/ isTransitionCompatible
           (last (greedy_loop fuel current remaining (pre ++ [current])) d)
           t = false.
Proof.
  induction fuel as [|fuel IH]; intros current remaining pre d Hf t Ht.
  - destruct remaining; [destruct Ht | simpl in Hf; lia].
  - destruct remaining as [|r0 rs] eqn:Er; [destruct Ht|].
    rewrite <- Er in *. clear Er r0 rs.
    assert (E :
      greedy_loop (S fuel) current remaining (pre ++ [current])
      = match filter (isTransitionCompatible current) remaining with
        | [] => pre ++ [current]
        | first :: rest =>
            greedy_loop fuel (pick_best current first rest)
              (set_delete (pick_best current first rest) remaining)
              ((pre ++ [current]) ++ [pick_best current first rest])
        end).
    { destruct remaining; [destruct Ht | reflexivity]. }
    rewrite E.
    destruct (filter (isTransitionCompatible current) remaining)
      as [|first rest] eqn:Ec.
    + right. rewrite last_last.
      destruct (isTransitionCompatible current t) eqn:Et; [|reflexivity].
      assert (Hin : In t (filter (isTransitionCompatible current)
                                 remaining)) by now apply filter_In.
      rewrite Ec in Hin. destruct Hin.
    + set (best := pick_best current first rest) in *.
      assert (Hbest : In best remaining).
      { pose proof (pick_best_In current first rest) as Hin.
        rewrite <- Ec in Hin. apply filter_In in Hin. tauto. }
      assert (Hlt : length (set_delete best remaining) < length remaining).
      { unfold set_delete. apply filter_length_lt with (x := best).
        - exact Hbest.
        - now rewrite same_object_refl. }
      destruct (same_track t best) eqn:Es.
      * left. unfold same_track in Es. apply String.eqb_eq in Es.
        rewrite Es.
        destruct (greedy_loop_extends fuel best
                    (set_delete best remaining)
                    ((pre ++ [current]) ++ [best])) as [ext ->].
        apply in_map. apply in_or_app. left.
        apply in_or_app. right. now left.
      * apply IH; [lia|].
        unfold set_delete. apply filter_In. split; [exact Ht|].
        unfold same_object. now rewrite Es.
Qed.

Lemma greedyPath_dead_end (pool : list Track) (seed t d : Track) :
  NoDup (map id pool) -> In t pool ->
  In (id t) (map id (greedyPath seed pool))
  \/ isTransitionCompatible (last (greedyPath seed pool) d) t = false.
Proof.
  intros Hnd Ht.
  destruct (same_track t seed) eqn:Es.
  - left. unfold same_track in Es. apply String.eqb_eq in Es.
    destruct (greedyPath_head seed pool) as [ext ->].
    rewrite Es. now left.
  - unfold greedyPath.
    rewrite new_Set_NoDup by now apply NoDup_map_filter.
    apply (greedy_loop_dead_end _ seed _ [] d); [lia|].
    apply filter_In. split; [exact Ht | now rewrite Es].
Qed.

Lemma unanalyzed_incompatible (a o : Track) :
  isTrackAnalyzed o = false -> isTransitionCompatible a o = false.
Proof.
  intros H. unfold isTransitionCompatible. rewrite H. simpl.
  now rewrite orb_true_r.
Qed.

Lemma ordered_is_greedy (tracks : list Track) :
  2 <= length (filter isTrackAnalyzed tracks) ->
  exists seed,
    In seed (filter isTrackAnalyzed tracks)
    /\ orderedTracks (findOptimalOrder tracks)
       = greedyPath seed (filter isTrackAnalyzed tracks).
Proof.
  intros Hl. rewrite (findOptimalOrder_search tracks Hl). simpl.
  assert (Hne : filter isTrackAnalyzed tracks <> []).
  { intros Hnil. rewrite Hnil in Hl. simpl in Hl. lia. }
  destruct (chosen_cases _ Hne) as (seed & Hs & Hc & _). eauto.
Qed.

Lemma orphan_dead_end (tracks : list Track) (d o : Track) :
  NoDup (map id tracks) ->
  In o (orphanTracks (findOptimalOrder tracks)) ->
  isTransitionCompatible
    (last (orderedTracks (findOptimalOrder tracks)) d) o = false.
Proof.
  intros Hnd Ho.
  rewrite (orphans_split tracks Hnd) in Ho.
  apply in_app_or in Ho as [Ho|Ho].
  - apply filter_In in Ho as [Hpool Hout].
    apply negb_true_iff in Hout.
    destruct (le_lt_dec (length (filter isTrackAnalyzed tracks)) 1)
      as [Hs|Hl].
    + exfalso. rewrite (findOptimalOrder_small tracks Hs) in Hout.
      simpl in Hout.
      assert (set_has (map id (filter isTrackAnalyzed tracks)) (id o)
              = true) by (apply set_has_In; now apply in_map).
      congruence.
    + destruct (ordered_is_greedy tracks Hl) as (seed & Hs & E).
      rewrite E in *.
      destruct (greedyPath_dead_end _ seed o d
                  (NoDup_map_filter isTrackAnalyzed tracks Hnd) Hpool)
        as [Hin|Hc]; [|exact Hc].
      apply set_has_In in Hin. congruence.
  - apply filter_In in Ho as [_ Ho]. apply negb_true_iff in Ho.
    now apply unanalyzed_incompatible.
Qed.

(** X9: On a batch of tracks (distinct ids), the ordering stops at a dead
    end: no orphan is a compatible transition from the last ordered
    track. *)
Theorem findOptimalOrder_dead_end (tracks : list Track) (o : Track) :
  NoDup (map id tracks) ->
  In o (orphanTracks (findOptimalOrder tracks)) ->
  forall d,
    isTransitionCompatible
      (last (orderedTracks (findOptimalOrder tracks)) d) o = false.
Proof. intros Hnd Ho d. now apply orphan_dead_end. Qed.

End OrderMore.

(* ================================================================== *)
(** ** Orderings and groups together *)
(* ================================================================== *)

Section OrderGroups.
Import Camelot Ordering Spec Rounded Loops.
Local Open Scope nat_scope.
Local Open Scope list_scope.

Lemma last_In {A : Type} (l : list A) (d : A) : l <> [] -> In (last l d) l.
Proof.
  induction l as [|x l IH]; [congruence|]. intros _.
  destruct l as [|y l']; [now left|].
  right. apply IH. discriminate.
Qed.

Lemma compatible_analyzed (x y : Track) :
  isTransitionCompatible x y = true ->
  isTrackAnalyzed x = true /\ isTrackAnalyzed y = true.
Proof. intros H. now apply legal_analyzed, isTransitionCompatible_true. Qed.

Lemma filter_all {A : Type} (f : A -> bool) (l : list A) :
  (forall x, In x l -> f x = true) ->
  filter f l = l /\ filter (fun x => negb (f x)) l = [].
Proof.
  induction l as [|x l IH]; intros H; [split; reflexivity|].
  simpl. rewrite (H x (or_introl eq_refl)). simpl.
  destruct IH as [-> ->]; [|split; reflexivity].
  intros y Hy. apply H. now right.
Qed.

(** X10: On a batch of tracks (distinct ids) in which every two tracks are a
    compatible transition, the ordering is complete: it places every
    track and leaves no orphan. *)
Theorem findOptimalOrder_all_compatible (tracks : list Track) :
  NoDup (map id tracks) ->
  (forall x y, In x tracks -> In y tracks ->
               isTransitionCompatible x y = true) ->
  isComplete (findOptimalOrder tracks) = true
  /\ orphanTracks (findOptimalOrder tracks) = []
  /\ Permutation (orderedTracks (findOptimalOrder tracks)) tracks.
Proof.
  intros Hnd Hall.
  assert (Han : forall t, In t tracks -> isTrackAnalyzed t = true).
  { intros t Ht. now apply (compatible_analyzed t t), Hall. }
  destruct (filter_all isTrackAnalyzed tracks Han) as [Epool Erest].
  pose proof (ordered_orphans_perm tracks Hnd) as P.
  destruct (ordered_fresh tracks Hnd) as [Hi Hd].
  rewrite Epool in Hi.
  assert (Eo : orphanTracks (findOptimalOrder tracks) = []).
  { destruct (orphanTracks (findOptimalOrder tracks)) as [|o os] eqn:Eo;
      [reflexivity|].
    exfalso.
    assert (Ho : In o (orphanTracks (findOptimalOrder tracks)))
      by (rewrite Eo; now left).
    assert (Hot : In o tracks).
    { apply (Permutation_in _ P). apply in_or_app. right. now left. }
    pose proof (orphan_dead_end tracks o o Hnd Ho) as Hdead.
    destruct (orderedTracks (findOptimalOrder tracks)) as [|a l] eqn:Eord.
    - simpl in Hdead. rewrite (Hall o o Hot Hot) in Hdead. discriminate.
    - rewrite Hall in Hdead; [discriminate | | exact Hot].
      apply Hi. apply last_In. discriminate. }
  rewrite Eo, app_nil_r in P.
  split; [|split; [exact Eo | exact P]].
  destruct (le_lt_dec (length (filter isTrackAnalyzed tracks)) 1)
    as [Hs|Hl].
  - rewrite (findOptimalOrder_small tracks Hs). simpl. now rewrite Erest.
  - pose proof P as P'.
    rewrite (findOptimalOrder_search tracks Hl) in P' |- *. simpl in *.
    rewrite Erest, Epool in *. simpl. rewrite andb_true_r.
    apply chosen_covers; [exact Hnd | | ].
    + intros Hnil. rewrite Hnil in Hl. simpl in Hl. lia.
    + intros t Ht. apply (Permutation_in _ (Permutation_sym P')), Ht.
Qed.

(** *** The groups, sorted *)

Lemma sorted_groups (tracks : list Track) :
  NoDup (map id tracks) ->
  (forall g, In g (findCompatibleGroups tracks) -> g <> [])
  /\ Permutation (concat (findCompatibleGroups tracks))
                 (filter isTrackAnalyzed tracks)
  /\ (forall g x y, In g (findCompatibleGroups tracks) -> In x g ->
                    (In y g <-> connected tracks x y))
  /\ Sorted (ordered_by by_size_desc) (findCompatibleGroups tracks).
Proof.
  intros Hnd. rewrite (findCompatibleGroups_sort tracks).
  destruct (groups_partition tracks Hnd) as [O P].
  set (groups := fst (fold_left
                        (group_step (filter isTrackAnalyzed tracks))
                        (filter isTrackAnalyzed tracks) ([], []))) in *.
  pose proof (Array_sort_perm by_size_desc groups) as Hperm.
  split; [|split; [|split]].
  - intros g Hg. apply (grouped_nonempty _ _ _ O).
    exact (Permutation_in _ Hperm Hg).
  - rewrite (Permutation_concat _ _ Hperm). exact P.
  - intros g x y Hg Hx. apply (grouped_component _ _ _ O); [|exact Hx].
    exact (Permutation_in _ Hperm Hg).
  - apply Array_sort_sorted. intros x y. unfold by_size_desc. lia.
Qed.

(** A sequence of legal transitions stays in the class of its head. *)
Lemma path_connected (tracks l : list Track) :
  forall x, neighbours_legal (x :: l) -> incl (x :: l) tracks ->
            forall y, In y (x :: l) -> connected tracks x y.
Proof.
  induction l as [|z l IH]; intros x H Hi y Hy.
  - destruct Hy as [<-|[]]. apply rt_refl.
  - destruct Hy as [<-|Hy]; [apply rt_refl|].
    apply rt_trans with (y := z).
    + apply rt_step. split; [|split].
      * apply Hi. now left.
      * apply Hi. right. now left.
      * exact (H [] x z l eq_refl).
    + apply IH; [now apply neighbours_legal_tail in H | | exact Hy].
      intros u Hu. apply Hi. now right.
Qed.

Lemma ordered_in_group (tracks : list Track) :
  NoDup (map id tracks) ->
  orderedTracks (findOptimalOrder tracks) <> [] ->
  exists g, In g (findCompatibleGroups tracks)
            /\ incl (orderedTracks (findOptimalOrder tracks)) g.
Proof.
  intros Hnd Hne.
  destruct (sorted_groups tracks Hnd) as (_ & P & C & _).
  destruct (ordered_fresh tracks Hnd) as [Hi _].
  pose proof (ordered_neighbours_legal tracks) as L.
  destruct (orderedTracks (findOptimalOrder tracks)) as [|x l] eqn:E;
    [congruence|].
  assert (Hx : In x (concat (findCompatibleGroups tracks))).
  { apply (Permutation_in _ (Permutation_sym P)). apply Hi. now left. }
  apply in_concat in Hx as (g & Hg & Hx).
  exists g. split; [exact Hg|].
  intros y Hy. apply (C g x y Hg Hx).
  apply (path_connected tracks l x L); [|exact Hy].
  intros u Hu. specialize (Hi u Hu). apply filter_In in Hi. tauto.
Qed.

Lemma sorted_head_largest (first : list Track) (rest : list (list Track))
      (g : list Track) :
  Sorted (ordered_by by_size_desc) (first :: rest) ->
  In g (first :: rest) -> length g <= length first.
Proof.
  intros S Hg. apply Sorted_StronglySorted in S.
  - apply StronglySorted_inv in S as [_ F].
    destruct Hg as [<-|Hg]; [lia|].
    rewrite Forall_forall in F. specialize (F g Hg).
    unfold ordered_by, by_size_desc in F. lia.
  - intros a b c. unfold ordered_by, by_size_desc. lia.
Qed.

(** X11: On a batch of tracks (distinct ids), the ordered tracks all belong to
    one of the compatible groups, so the ordering is never longer than
    the first (largest) group. *)
Theorem findOptimalOrder_within_group (tracks : list Track) :
  NoDup (map id tracks) ->
  (orderedTracks (findOptimalOrder tracks) <> [] ->
   exists g, In g (findCompatibleGroups tracks)
             /\ incl (orderedTracks (findOptimalOrder tracks)) g)
  /\ (forall first rest,
         findCompatibleGroups tracks = first :: rest ->
         length (orderedTracks (findOptimalOrder tracks))
         <= length first).
Proof.
  intros Hnd. split; [now apply ordered_in_group|].
  intros first rest E.
  destruct (orderedTracks (findOptimalOrder tracks)) as [|x l] eqn:Eo;
    [simpl; lia|].
  rewrite <- Eo.
  destruct (ordered_in_group tracks Hnd) as (g & Hg & Hi);
    [rewrite Eo; discriminate|].
  destruct (ordered_fresh tracks Hnd) as [_ Hd].
  destruct (sorted_groups tracks Hnd) as (_ & _ & _ & S).
  rewrite E in S, Hg.
  pose proof (sorted_head_largest first rest g S Hg).
  pose proof (NoDup_incl_length (NoDup_map_inv _ _ Hd) Hi).
  lia.
Qed.

Lemma concat_nonempty_length (l : list (list Track)) :
  (forall g, In g l -> g <> []) -> length l <= length (concat l).
Proof.
  induction l as [|g l IH]; intros H; [simpl; lia|].
  simpl. rewrite length_app.
  assert (g <> []) by (apply H; now left).
  assert (length l <= length (concat l)).
  { apply IH. intros h Hh. apply H. now right. }
  destruct g; [congruence | simpl; lia].
Qed.

(** X12: On a batch of tracks (distinct ids), a complete ordering is possible
    only when all tracks form a single compatible group: as soon as
    [findCompatibleGroups] returns two groups, [isComplete] is false. *)
Theorem findOptimalOrder_complete_single_group (tracks : list Track) :
  NoDup (map id tracks) ->
  isComplete (findOptimalOrder tracks) = true ->
  (tracks = [] /\ findCompatibleGroups tracks = [])
  \/ exists g, findCompatibleGroups tracks = [g] /\ Permutation g tracks.
Proof.
  intros Hnd Hc.
  assert (Hpool : NoDup (map id (filter isTrackAnalyzed tracks)))
    by now apply NoDup_map_filter.
  assert (Hall : (forall t, In t tracks -> isTrackAnalyzed t = true)
                 /\ incl tracks (orderedTracks (findOptimalOrder tracks))).
  { destruct (le_lt_dec (length (filter isTrackAnalyzed tracks)) 1)
      as [Hs|Hl].
    - rewrite (findOptimalOrder_small tracks Hs) in Hc |- *. simpl in *.
      split; [exact (proj1 (no_unanalyzed tracks) Hc)|].
      intros t Ht. apply filter_In. split; [exact Ht|].
      exact (proj1 (no_unanalyzed tracks) Hc t Ht).
    - rewrite (findOptimalOrder_search tracks Hl) in Hc |- *. simpl in *.
      apply andb_true_iff in Hc as [Hb Hu].
      pose proof (proj1 (no_unanalyzed tracks) Hu) as Hu'.
      split; [exact Hu'|].
      assert (Hne : filter isTrackAnalyzed tracks <> []).
      { intros Hnil. rewrite Hnil in Hl. simpl in Hl. lia. }
      intros t Ht. apply (chosen_covers _ Hpool Hne); [exact Hb|].
      apply filter_In. split; [exact Ht | exact (Hu' t Ht)]. }
  destruct Hall as [Han Hin].
  destruct (filter_all isTrackAnalyzed tracks Han) as [Epool _].
  destruct tracks as [|t0 ts] eqn:Et; [left; split; reflexivity|].
  rewrite <- Et in *. right.
  destruct (ordered_in_group tracks Hnd) as (g & Hg & Hi).
  { intros Hnil. rewrite Hnil in Hin.
    apply (Hin t0). rewrite Et. now left. }
  destruct (sorted_groups tracks Hnd) as (Hne & P & _ & _).
  rewrite Epool in P.
  assert (Hlen : length tracks <= length g).
  { apply NoDup_incl_length; [exact (NoDup_map_inv _ _ Hnd)|].
    intros u Hu. apply Hi, Hin, Hu. }
  apply in_split in Hg as (l1 & l2 & Eg).
  pose proof (Permutation_length P) as Hl.
  rewrite Eg, concat_app in Hl. simpl in Hl.
  rewrite !length_app in Hl.
  assert (H1 : length l1 <= length (concat l1)).
  { apply concat_nonempty_length. intros h Hh. apply Hne.
    rewrite Eg. apply in_or_app. now left. }
  assert (H2 : length l2 <= length (concat l2)).
  { apply concat_nonempty_length. intros h Hh. apply Hne.
    rewrite Eg. apply in_or_app. right. now right. }
  assert (E1 : l1 = []) by (apply length_zero_iff_nil; lia).
  assert (E2 : l2 = []) by (apply length_zero_iff_nil; lia).
  subst l1 l2. exists g. split; [exact Eg|].
  rewrite Eg in P. simpl in P. now rewrite app_nil_r in P.
Qed.

End OrderGroups.

(* ================================================================== *)
(** ** File validation (formats.ts) *)
(* ================================================================== *)

Section FormatFacts.
Import JsString Formats.
Local Open Scope string_scope.

Lemma string_length_app (s r : string) :
  String.length (s ++ r) = (String.length s + String.length r)%nat.
Proof.
  induction s as [|a s IH]; simpl; [reflexivity | now rewrite IH].
Qed.

Lemma lastIndexOf_absent (c : ascii) (s : string) :
  ~ In c (list_ascii_of_string s) -> lastIndexOf c s = (-1)%Z.
Proof.
  induction s as [|a s IH]; simpl; intros H; [reflexivity|].
  rewrite IH by tauto. simpl.
  destruct (Ascii.eqb_spec a c) as [E|E]; [|reflexivity].
  exfalso. apply H. now left.
Qed.

Lemma lastIndexOf_app (c : ascii) (stem ext : string) :
  ~ In c (list_ascii_of_string ext) ->
  lastIndexOf c (stem ++ String c ext) = Z.of_nat (String.length stem).
Proof.
  intros H. induction stem as [|a stem IH].
  - simpl. rewrite (lastIndexOf_absent c ext H). simpl.
    now rewrite Ascii.eqb_refl.
  - cbn [append lastIndexOf String.length]. rewrite IH.
    destruct (Z.eqb_spec (Z.of_nat (String.length stem)) (-1)); lia.
Qed.

Lemma lastIndexOf_ge (c : ascii) (s : string) : (-1 <= lastIndexOf c s)%Z.
Proof.
  induction s as [|a s IH]; simpl; [lia|].
  destruct (Z.eqb_spec (lastIndexOf c s) (-1)); [|lia].
  destruct (Ascii.eqb a c); lia.
Qed.

Lemma lastIndexOf_present (c : ascii) (s : string) :
  In c (list_ascii_of_string s) -> lastIndexOf c s <> (-1)%Z.
Proof.
  induction s as [|a s IH]; simpl; [tauto|].
  pose proof (lastIndexOf_ge c s) as Hge.
  destruct (Z.eqb_spec (lastIndexOf c s) (-1)) as [E|E]; [|lia].
  destruct (Ascii.eqb_spec a c) as [Ea|Ea]; [lia|].
  intros [Ha|Hin]; [congruence | now apply IH in Hin].
Qed.

(** A string with an occurrence of [c] splits at the last one. *)
Lemma lastIndexOf_split (c : ascii) (s : string) :
  lastIndexOf c s <> (-1)%Z ->
  exists stem ext, s = stem ++ String c ext
                   /\ ~ In c (list_ascii_of_string ext).
Proof.
  induction s as [|a s IH]; simpl; intros H; [congruence|].
  destruct (Z.eqb_spec (lastIndexOf c s) (-1)) as [E|E].
  - destruct (Ascii.eqb_spec a c) as [->|Ea]; [|congruence].
    exists "", s. split; [reflexivity|].
    intros Hin. now apply lastIndexOf_present in Hin.
  - destruct (IH E) as (stem & ext & -> & Hext).
    exists (String a stem), ext. now split.
Qed.

Lemma slice_from_app (stem r : string) :
  slice_from (String.length stem) (stem ++ r) = r.
Proof.
  induction stem as [|a stem IH]; simpl; [now destruct r | exact IH].
Qed.

Lemma lower_char_idem (c : ascii) : lower_char (lower_char c) = lower_char c.
Proof.
  destruct c as [[] [] [] [] [] [] [] []]; vm_compute; reflexivity.
Qed.

Lemma toLowerCase_idem (s : string) :
  toLowerCase (toLowerCase s) = toLowerCase s.
Proof.
  induction s as [|a s IH]; simpl; [reflexivity|].
  now rewrite lower_char_idem, IH.
Qed.

Lemma toLowerCase_dot (s : string) :
  In "."%char (list_ascii_of_string s) ->
  In "."%char (list_ascii_of_string (toLowerCase s)).
Proof.
  induction s as [|a s IH]; simpl; [tauto|].
  intros [->|H]; [left; reflexivity | right; auto].
Qed.

Lemma includes_In (l : list string) (x : string) :
  includes l x = true <-> In x l.
Proof.
  unfold includes. rewrite existsb_exists. split.
  - intros (y & Hy & E). apply String.eqb_eq in E. now subst.
  - intros H. exists x. split; [assumption | apply String.eqb_refl].
Qed.

(** The extension of [stem.ext]. *)
Lemma getExtension_app (stem ext : string) :
  ~ In "."%char (list_ascii_of_string ext) ->
  getExtension (stem ++ "." ++ ext)
  = if String.eqb ext "" then "" else "." ++ toLowerCase ext.
Proof.
  intros H. unfold getExtension.
  change (stem ++ "." ++ ext) with (stem ++ String "." ext).
  rewrite lastIndexOf_app by assumption.
  rewrite string_length_app. cbn [String.length].
  destruct (Z.eqb_spec (Z.of_nat (String.length stem)) (-1)) as [E|_];
    [lia|].
  cbn [orb]. rewrite Nat2Z.id, slice_from_app.
  destruct ext as [|a ext].
  - cbn [String.length String.eqb].
    destruct (Z.eqb_spec (Z.of_nat (String.length stem))
                         (Z.of_nat (String.length stem + 1) - 1));
      [reflexivity | lia].
  - cbn [String.length String.eqb].
    destruct (Z.eqb_spec (Z.of_nat (String.length stem))
                         (Z.of_nat (String.length stem
                                    + S (S (String.length ext))) - 1));
      [lia | reflexivity].
Qed.

Lemma getExtension_no_dot (s : string) :
  ~ In "."%char (list_ascii_of_string s) -> getExtension s = "".
Proof.
  intros H. unfold getExtension.
  now rewrite (lastIndexOf_absent _ _ H).
Qed.

(** Every name has no dot or splits at its last dot. *)
Lemma last_dot_split (s : string) :
  ~ In "."%char (list_ascii_of_string s)
  \/ exists stem ext,
      s = stem ++ "." ++ ext /\ ~ In "."%char (list_ascii_of_string ext).
Proof.
  destruct (Z.eq_dec (lastIndexOf "." s) (-1)) as [E|E].
  - left. intros Hin. now apply lastIndexOf_present in Hin.
  - right. exact (lastIndexOf_split _ _ E).
Qed.

(** X13: The extension of a file name is empty when the name has no dot or
    ends with its last dot; otherwise it is the part from the last dot on,
    in lower case.  Every name is of one of the two forms. *)
Theorem getExtension_last_dot :
  (forall s, ~ In "."%char (list_ascii_of_string s) -> getExtension s = "")
  /\ (forall stem ext,
         ~ In "."%char (list_ascii_of_string ext) ->
         getExtension (stem ++ "." ++ ext)
         = if String.eqb ext "" then "" else "." ++ toLowerCase ext)
  /\ (forall s,
         ~ In "."%char (list_ascii_of_string s)
         \/ exists stem ext,
             s = stem ++ "." ++ ext
             /\ ~ In "."%char (list_ascii_of_string ext)).
Proof.
  split; [exact getExtension_no_dot | split; [exact getExtension_app|]].
  exact last_dot_split.
Qed.

(** *** isSupported and validateFile *)

Import FormatSpec.

Lemma includes_lower_ext (ext : string) :
  In ("." ++ toLowerCase ext) SUPPORTED_EXTENSIONS ->
  ext <> "" /\ ~ In "."%char (list_ascii_of_string ext).
Proof.
  intros H. split.
  - intros ->. vm_compute in H. intuition discriminate.
  - intros Hd. apply toLowerCase_dot in Hd.
    simpl in H.
    repeat (destruct H as [H|H]; [injection H as H; rewrite <- H in Hd;
                                  simpl in Hd; intuition discriminate|]).
    contradiction.
Qed.

Lemma extension_supported (s : string) :
  isExtensionSupported (getExtension s) = true
  <-> exists stem ext,
      s = stem ++ "." ++ ext
      /\ In ("." ++ toLowerCase ext) SUPPORTED_EXTENSIONS.
Proof.
  split.
  - intros H.
    destruct (last_dot_split s) as [Hn|(stem & ext & -> & Hext)].
    + rewrite (getExtension_no_dot s Hn) in H. discriminate H.
    + exists stem, ext. split; [reflexivity|].
      rewrite (getExtension_app stem ext Hext) in H.
      destruct (String.eqb ext ""); [discriminate H|].
      unfold isExtensionSupported in H. apply includes_In in H.
      change (toLowerCase ("." ++ toLowerCase ext))
        with ("." ++ toLowerCase (toLowerCase ext)) in H.
      now rewrite toLowerCase_idem in H.
  - intros (stem & ext & -> & H).
    destruct (includes_lower_ext ext H) as [Hne Hnd].
    rewrite (getExtension_app stem ext Hnd).
    apply String.eqb_neq in Hne. rewrite Hne.
    unfold isExtensionSupported. apply includes_In.
    change (toLowerCase ("." ++ toLowerCase ext))
      with ("." ++ toLowerCase (toLowerCase ext)).
    now rewrite toLowerCase_idem.
Qed.

(** The tests for an empty extension and an empty type change nothing. *)
Lemma isSupported_audio (f : File) : isSupported f = true <-> audio f.
Proof.
  unfold isSupported, audio, named_as_audio, typed_as_audio.
  rewrite <- extension_supported.
  assert (Ht : isMimeTypeSupported (type f) = true
               <-> In (toLowerCase (type f)) SUPPORTED_MIME_TYPES)
    by apply includes_In.
  rewrite <- Ht. clear Ht.
  assert (He : truthy (getExtension (name f))
               && isExtensionSupported (getExtension (name f))
               = isExtensionSupported (getExtension (name f))).
  { unfold truthy. destruct (String.eqb_spec (getExtension (name f)) "")
      as [->|]; reflexivity. }
  assert (Hm : truthy (type f) && isMimeTypeSupported (type f)
               = isMimeTypeSupported (type f)).
  { unfold truthy. destruct (String.eqb_spec (type f) "")
      as [->|]; reflexivity. }
  rewrite He, Hm.
  destruct (isExtensionSupported (getExtension (name f))),
    (isMimeTypeSupported (type f)); intuition discriminate.
Qed.

Lemma validateFile_error (f : File) :
  valid (validateFile f) = true <-> error (validateFile f) = None.
Proof.
  unfold validateFile.
  destruct (isSupported f); cbn [negb];
    [destruct (N.ltb MAX_FILE_SIZE (size f))|]; cbn;
    split; intros; congruence.
Qed.

(** X14: A file is accepted exactly when it is an audio file by name or by
    type and has at most 100 MiB.  A file that is not an audio file is
    refused as such whatever its size; only an audio file is refused as
    too large.  An error message is given exactly on refusal. *)
Theorem validateFile_verdict (f : File) :
  (valid (validateFile f) = true
   <-> audio f /\ (size f <= MAX_FILE_SIZE)%N)
  /\ (errorCode (validateFile f) = Some UNSUPPORTED_FORMAT <-> ~ audio f)
  /\ (errorCode (validateFile f) = Some FILE_TOO_LARGE
      <-> audio f /\ (MAX_FILE_SIZE < size f)%N)
  /\ (valid (validateFile f) = true <-> error (validateFile f) = None)
  /\ (valid (validateFile f) = true <-> errorCode (validateFile f) = None).
Proof.
  pose proof (isSupported_audio f) as Hs.
  pose proof (validateFile_error f) as He.
  split; [|split; [|split; [|split; [exact He|]]]]; clear He;
    unfold validateFile;
    (destruct (isSupported f) eqn:E; cbn [negb];
     [assert (Ha : audio f) by (now apply Hs);
      destruct (N.ltb_spec MAX_FILE_SIZE (size f)) as [Hl|Hl]; cbn
     |assert (Ha : ~ audio f) by (intros H; apply Hs in H; discriminate);
      cbn]);
    split; intros H; try discriminate H; try tauto;
    change MAX_FILE_SIZE with 104857600%N in *;
    try (destruct H as [_ H]; lia); try (split; [assumption | lia]).
Qed.

(** *** validateFiles *)

Lemma validate_fold (l : list File) (a : list File)
      (e : list (File * option string)) :
  fold_left validate_step l (a, e)
  = ((a ++ filter accepted l)%list,
     (e ++ map (fun f => (f, error (validateFile f)))
               (filter (fun f => negb (accepted f)) l))%list).
Proof.
  revert a e. induction l as [|f l IH]; intros a e; simpl.
  - now rewrite !app_nil_r.
  - unfold validate_step at 2. cbn [fst snd].
    change (valid (validateFile f)) with (accepted f).
    destruct (accepted f); cbn [negb]; rewrite IH;
      simpl; now rewrite <- !app_assoc.
Qed.

Lemma filter_negb_length {A : Type} (p : A -> bool) (l : list A) :
  (length (filter p l) + length (filter (fun x => negb (p x)) l)
   = length l)%nat.
Proof.
  induction l as [|x l IH]; simpl; [reflexivity|].
  destruct (p x); simpl; lia.
Qed.

(** X15: Of a batch, the first 50 files are checked one by one and the others
    are dropped: the valid files are the accepted ones among the first 50,
    in their order; the errors are the refused ones among them, in their
    order, each with the message of its refusal; and [tooManyFiles] tells
    whether something was dropped. *)
Theorem validateFiles_partition (files : list File) :
  let checked := firstn MAX_FILES files in
  validFiles (validateFiles files) = filter accepted checked
  /\ map fst (errors (validateFiles files))
     = filter (fun f => negb (accepted f)) checked
  /\ (forall f e, In (f, e) (errors (validateFiles files)) ->
                  e = error (validateFile f) /\ e <> None)
  /\ (length (validFiles (validateFiles files))
      + length (errors (validateFiles files))
      = Nat.min MAX_FILES (length files))%nat
  /\ (tooManyFiles (validateFiles files) = true
      <-> (MAX_FILES < length files)%nat).
Proof.
  intros checked. unfold validateFiles. fold checked.
  rewrite validate_fold. cbn [validFiles errors tooManyFiles fst snd app].
  split; [reflexivity|]. split; [|split; [|split]].
  - rewrite map_map. cbn [fst]. apply map_id.
  - intros f e Hin. apply in_map_iff in Hin.
    destruct Hin as (g & Hg & Hin). injection Hg as -> <-.
    split; [reflexivity|].
    apply filter_In in Hin. destruct Hin as [_ Hr].
    unfold accepted in Hr.
    intros Hn.
    apply (proj2 (validateFile_error f)) in Hn.
    rewrite Hn in Hr. discriminate Hr.
  - rewrite length_map, filter_negb_length.
    unfold checked. apply length_firstn.
  - apply Nat.ltb_lt.
Qed.

(** *** formatFileSize *)

(** The tenths printed for [a / 1024], as an integer division. *)
Lemma tenths_of_KB (a : Z) :
  Qfloor (inject_Z a / inject_Z 1024 * 10 + (1 # 2))
  = ((20 * a + 1024) / 2048)%Z.
Proof.
  rewrite Zdiv_Qdiv. apply Qfloor_comp.
  rewrite inject_Z_plus, inject_Z_mult. field.
Qed.

(** X16: Rounding to one decimal is done after the unit is chosen: the sizes
    from 1048525 bytes up to one byte below 1 MiB are printed as
    1024.0 KB. *)
Theorem formatFileSize_1024_KB (bytes : N) :
  (1048525 <= bytes)%N -> (bytes < 1024 * 1024)%N ->
  formatFileSize bytes = "1024.0 KB".
Proof.
  intros Hlo Hhi. unfold formatFileSize.
  destruct (N.ltb_spec bytes 1024) as [H|_]; [lia|].
  destruct (N.ltb_spec bytes (1024 * 1024)) as [_|H]; [|lia].
  unfold toFixed1. rewrite tenths_of_KB.
  assert (E : ((20 * Z.of_N bytes + 1024) / 2048 = 10240)%Z).
  { symmetry. apply Z.div_unique with
      (r := (20 * Z.of_N bytes + 1024 - 2048 * 10240)%Z); lia. }
  rewrite E. reflexivity.
Qed.

Lemma formatFileSize_1024_KB_witness :
  formatFileSize 1048575 = "1024.0 KB".
Proof.
  apply (formatFileSize_1024_KB 1048575); vm_compute; congruence.
Defined.

End FormatFacts.

(* ================================================================== *)
(** ** Tempo normalisation (key-worker.ts) *)
(* ================================================================== *)

Section WorkerFacts.
Import Worker.
Local Open Scope Q_scope.

Lemma Qlt_bool_iff (x y : Q) : Qlt_bool x y = true <-> x < y.
Proof.
  unfold Qlt_bool. rewrite negb_true_iff.
  split.
  - intros H. apply Qnot_le_lt. intros L.
    apply Qle_bool_iff in L. congruence.
  - intros H. destruct (Qle_bool y x) eqn:E; [|reflexivity].
    apply Qle_bool_iff in E. exfalso. exact (Qlt_not_le _ _ H E).
Qed.

Lemma Qlt_bool_false_iff (x y : Q) : Qlt_bool x y = false <-> y <= x.
Proof.
  unfold Qlt_bool. rewrite negb_false_iff. apply Qle_bool_iff.
Qed.

Lemma inject_pow2_S (k : nat) :
  inject_Z (2 ^ Z.of_nat (S k)) == inject_Z (2 ^ Z.of_nat k) * 2.
Proof.
  rewrite Nat2Z.inj_succ, Z.pow_succ_r by lia.
  rewrite inject_Z_mult. ring.
Qed.

Lemma inject_pow2_pos (k : nat) : 0 < inject_Z (2 ^ Z.of_nat k).
Proof.
  change 0 with (inject_Z 0). rewrite <- Zlt_Qlt. lia.
Qed.

(** More fuel does not change the result of a loop that has ended. *)
Lemma doubling_fuel (f f' : nat) (bpm r : Q) :
  (f <= f')%nat -> doubling f bpm = Some r -> doubling f' bpm = Some r.
Proof.
  revert f' bpm. induction f as [|f IH]; intros f' bpm Hle H.
  - simpl in H. destruct f'; simpl;
      destruct (Qlt_bool bpm MIN_BPM && Qlt_bool 0 bpm);
      first [discriminate H | exact H].
  - destruct f' as [|f']; [lia|]. simpl in *.
    destruct (Qlt_bool bpm MIN_BPM && Qlt_bool 0 bpm); [|exact H].
    apply IH; [lia | exact H].
Qed.

Lemma halving_fuel (f f' : nat) (bpm r : Q) :
  (f <= f')%nat -> halving f bpm = Some r -> halving f' bpm = Some r.
Proof.
  revert f' bpm. induction f as [|f IH]; intros f' bpm Hle H.
  - simpl in H. destruct f'; simpl;
      destruct (Qlt_bool MAX_BPM bpm);
      first [discriminate H | exact H].
  - destruct f' as [|f']; [lia|]. simpl in *.
    destruct (Qlt_bool MAX_BPM bpm); [|exact H].
    apply IH; [lia | exact H].
Qed.

(** The first loop ends as soon as the doubled tempo reaches 70. *)
Lemma doubling_ends (f : nat) (bpm : Q) :
  0 < bpm -> bpm < 70 -> 70 <= bpm * inject_Z (2 ^ Z.of_nat f) ->
  exists r k, doubling f bpm = Some r
              /\ r == bpm * inject_Z (2 ^ Z.of_nat k)
              /\ 70 <= r /\ r < 140.
Proof.
  revert bpm. induction f as [|f IH]; intros bpm Hpos Hlt Hf.
  - exfalso. change (inject_Z (2 ^ Z.of_nat 0)) with 1 in Hf. lra.
  - cbn [doubling].
    assert (E1 : Qlt_bool bpm MIN_BPM = true) by now apply Qlt_bool_iff.
    assert (E2 : Qlt_bool 0 bpm = true) by now apply Qlt_bool_iff.
    rewrite E1, E2. cbn [andb].
    rewrite inject_pow2_S in Hf.
    destruct (Qlt_le_dec (bpm * 2) 70) as [Hs|Hs].
    + destruct (IH (bpm * 2)) as (r & k & Hr & Hk & Hlo & Hhi);
        [lra | assumption | lra|].
      exists r, (S k). rewrite inject_pow2_S.
      repeat split; try assumption. rewrite Hk. ring.
    + exists (bpm * 2), 1%nat. split; [|split; [|split]].
      * destruct f; cbn [doubling];
          replace (Qlt_bool (bpm * 2) MIN_BPM) with false;
          try reflexivity; symmetry; now apply Qlt_bool_false_iff.
      * change (inject_Z (2 ^ Z.of_nat 1)) with 2. reflexivity.
      * assumption.
      * lra.
Qed.

(** The second loop ends as soon as the halved tempo is at most 180. *)
Lemma halving_ends (f : nat) (bpm : Q) :
  180 < bpm -> bpm <= 180 * inject_Z (2 ^ Z.of_nat f) ->
  exists r k, halving f bpm = Some r
              /\ bpm == r * inject_Z (2 ^ Z.of_nat k)
              /\ 90 < r /\ r <= 180.
Proof.
  revert bpm. induction f as [|f IH]; intros bpm Hgt Hf.
  - exfalso. change (inject_Z (2 ^ Z.of_nat 0)) with 1 in Hf. lra.
  - cbn [halving].
    assert (E1 : Qlt_bool MAX_BPM bpm = true) by now apply Qlt_bool_iff.
    rewrite E1.
    rewrite inject_pow2_S in Hf.
    destruct (Qlt_le_dec 180 (bpm / 2)) as [Hs|Hs].
    + destruct (IH (bpm / 2)) as (r & k & Hr & Hk & Hlo & Hhi);
        [assumption | |].
      { apply Qle_shift_div_r; [reflexivity|]. lra. }
      exists r, (S k). rewrite inject_pow2_S.
      repeat split; try assumption.
      setoid_replace bpm with (bpm / 2 * 2) at 1 by field.
      rewrite Hk. ring.
    + exists (bpm / 2), 1%nat. split; [|split; [|split]].
      * destruct f; cbn [halving];
          replace (Qlt_bool MAX_BPM (bpm / 2)) with false;
          try reflexivity; symmetry; now apply Qlt_bool_false_iff.
      * change (inject_Z (2 ^ Z.of_nat 1)) with 2. field.
      * apply Qlt_shift_div_l; [reflexivity|]. lra.
      * assumption.
Qed.

(** Fuel that is enough for the first loop on a positive tempo. *)
Lemma doubling_bound (bpm : Q) :
  0 < bpm ->
  70 <= bpm * inject_Z (2 ^ Z.of_nat
                              (Z.to_nat (Z.log2_up (70 * Zpos (Qden bpm))))).
Proof.
  intros Hpos. destruct bpm as [n d]. cbn [Qden].
  assert (Hn : (0 < n)%Z).
  { unfold Qlt in Hpos. simpl in Hpos. lia. }
  set (k := Z.log2_up (70 * Zpos d)).
  assert (Hk : (0 <= k)%Z) by apply Z.log2_up_nonneg.
  assert (Hp : (70 * Zpos d <= 2 ^ k)%Z).
  { apply Z.log2_up_le_pow2; [lia | reflexivity]. }
  rewrite Z2Nat.id by assumption.
  unfold Qle, Qmult, inject_Z. simpl. nia.
Qed.

(** Fuel that is enough for the second loop. *)
Lemma halving_bound (bpm : Q) :
  180 < bpm ->
  bpm <= 180 * inject_Z (2 ^ Z.of_nat (Z.to_nat (Z.log2_up (Qnum bpm)))).
Proof.
  intros Hgt. destruct bpm as [n d]. cbn [Qnum].
  assert (Hn : (0 < n)%Z).
  { unfold Qlt in Hgt. simpl in Hgt. lia. }
  set (k := Z.log2_up n).
  assert (Hk : (0 <= k)%Z) by apply Z.log2_up_nonneg.
  assert (Hp : (n <= 2 ^ k)%Z).
  { apply Z.log2_up_le_pow2; [lia | reflexivity]. }
  rewrite Z2Nat.id by assumption.
  unfold Qle, Qmult, inject_Z. cbn [Qnum Qden].
  change (Z.pos (1 * 1)) with 1%Z.
  pose proof (Pos2Z.is_pos d). nia.
Qed.

(** A loop whose test fails at once. *)
Lemma doubling_skip (f : nat) (bpm : Q) :
  bpm <= 0 \/ 70 <= bpm -> doubling f bpm = Some bpm.
Proof.
  intros H.
  assert (E : Qlt_bool bpm MIN_BPM && Qlt_bool 0 bpm = false).
  { apply andb_false_iff. destruct H as [H|H];
      [right | left]; now apply Qlt_bool_false_iff. }
  destruct f; simpl; now rewrite E.
Qed.

Lemma halving_skip (f : nat) (bpm : Q) :
  bpm <= 180 -> halving f bpm = Some bpm.
Proof.
  intros H.
  assert (E : Qlt_bool MAX_BPM bpm = false) by now apply Qlt_bool_false_iff.
  destruct f; simpl; now rewrite E.
Qed.

(** The result of [normalizeBpm] with its fuel. *)
Lemma normalizeBpm_cases (bpm : Q) :
  exists r fuel,
    (forall fuel', (fuel <= fuel')%nat -> normalizeBpm fuel' bpm = Some r)
    /\ (bpm <= 0 -> r = bpm)
    /\ (0 < bpm -> bpm < 70 ->
        70 <= r /\ r < 140
        /\ exists k, r == bpm * inject_Z (2 ^ Z.of_nat k))
    /\ (70 <= bpm -> bpm <= 180 -> r = bpm)
    /\ (180 < bpm ->
        90 < r /\ r <= 180
        /\ exists k, bpm == r * inject_Z (2 ^ Z.of_nat k)).
Proof.
  destruct (Qlt_le_dec 0 bpm) as [Hpos|Hneg].
  - destruct (Qlt_le_dec bpm 70) as [Hlow|Hlow].
    + destruct (doubling_ends _ bpm Hpos Hlow (doubling_bound bpm Hpos))
        as (r & k & Hr & Hk & Hlo & Hhi).
      exists r. eexists. split; [|split; [|split; [|split]]].
      * intros fuel' Hf. unfold normalizeBpm.
        rewrite (doubling_fuel _ fuel' bpm r Hf Hr).
        apply halving_skip. lra.
      * intros H. lra.
      * intros _ _. split; [assumption|]. split; [assumption|].
        now exists k.
      * intros H. lra.
      * intros H. lra.
    + destruct (Qlt_le_dec 180 bpm) as [Hhigh|Hhigh].
      * destruct (halving_ends _ bpm Hhigh (halving_bound bpm Hhigh))
          as (r & k & Hr & Hk & Hlo & Hhi).
        exists r. eexists. split; [|split; [|split; [|split]]].
        -- intros fuel' Hf. unfold normalizeBpm.
           rewrite doubling_skip by now right.
           exact (halving_fuel _ fuel' bpm r Hf Hr).
        -- intros H. lra.
        -- intros _ H. lra.
        -- intros _ H. lra.
        -- intros _. split; [assumption|]. split; [assumption|].
           now exists k.
      * exists bpm, 0%nat. split; [|split; [|split; [|split]]].
        -- intros fuel' _. unfold normalizeBpm.
           rewrite doubling_skip by now right.
           now apply halving_skip.
        -- reflexivity.
        -- intros _ H. lra.
        -- reflexivity.
        -- intros H. lra.
  - exists bpm, 0%nat. split; [|split; [|split; [|split]]].
    + intros fuel' _. unfold normalizeBpm.
      rewrite doubling_skip by now left.
      apply halving_skip. lra.
    + reflexivity.
    + intros H. lra.
    + reflexivity.
    + intros H. lra.
Qed.

(** X17: [normalizeBpm] returns for every tempo, and its result does not depend
    on the fuel once there is enough of it.  A tempo that is not positive
    and a tempo from 70 to 180 are returned as they are; a positive tempo
    below 70 is doubled until it is in [70, 140); a tempo above 180 is
    halved until it is in (90, 180]. *)
Theorem normalizeBpm_range (bpm : Q) :
  exists r fuel,
    (forall fuel', (fuel <= fuel')%nat -> normalizeBpm fuel' bpm = Some r)
    /\ (bpm <= 0 -> r = bpm)
    /\ (0 < bpm -> bpm < 70 ->
        70 <= r /\ r < 140
        /\ exists k, r == bpm * inject_Z (2 ^ Z.of_nat k))
    /\ (70 <= bpm -> bpm <= 180 -> r = bpm)
    /\ (180 < bpm ->
        90 < r /\ r <= 180
        /\ exists k, bpm == r * inject_Z (2 ^ Z.of_nat k)).
Proof. exact (normalizeBpm_cases bpm). Qed.

(** X18: The tempo that the worker posts for a positive detected tempo is a
    whole number from 70 to 180. *)
Theorem posted_bpm_range (bpm : Q) :
  0 < bpm ->
  exists z fuel,
    (forall fuel', (fuel <= fuel')%nat -> posted_bpm fuel' bpm = Some z)
    /\ (70 <= z <= 180)%Z.
Proof.
  intros Hpos.
  destruct (normalizeBpm_cases bpm) as (r & fuel & Hr & _ & H1 & H2 & H3).
  assert (Hrange : 70 <= r /\ r <= 180).
  { destruct (Qlt_le_dec bpm 70) as [Hlow|Hlow].
    - destruct (H1 Hpos Hlow) as (? & ? & _). split; lra.
    - destruct (Qlt_le_dec 180 bpm) as [Hhigh|Hhigh].
      + destruct (H3 Hhigh) as (? & ? & _). split; lra.
      + rewrite (H2 Hlow Hhigh). split; assumption. }
  exists (Math_round r), fuel. split.
  - intros fuel' Hf. unfold posted_bpm. now rewrite (Hr fuel' Hf).
  - unfold Math_round. destruct Hrange as [Hlo Hhi]. split.
    + change 70%Z with (Qfloor (inject_Z 70)).
      apply Qfloor_resp_le. change (inject_Z 70) with 70. lra.
    + change 180%Z with (Qfloor (inject_Z 180 + (1 # 2))).
      apply Qfloor_resp_le. change (inject_Z 180) with 180. lra.
Qed.

Lemma posted_bpm_range_witness :
  exists z fuel,
    (forall fuel', (fuel <= fuel')%nat
                   -> posted_bpm fuel' (181 # 1) = Some z)
    /\ (70 <= z <= 180)%Z.
Proof. apply (posted_bpm_range (181 # 1)). reflexivity. Defined.

End WorkerFacts.

(* ================================================================== *)
(** ** The tracks store and the ordering store (tracks.ts) *)
(* ================================================================== *)

Section StoreFacts.
Import Ordering Store StoreSpec.
Local Open Scope nat_scope.
Local Open Scope list_scope.

(** *** Generalities *)

(** A selection of tracks with distinct identifiers has distinct
    identifiers. *)
Lemma distinct_filter (keep : Track -> bool) (ts : list Track) :
  NoDup (map id ts) -> NoDup (map id (filter keep ts)).
Proof.
  induction ts as [|t ts IH]; simpl; [trivial|].
  intros H. inversion H as [|? ? Hn Hl]; subst.
  destruct (keep t); simpl; [|now apply IH].
  constructor; [|now apply IH].
  intros Hin. apply Hn. apply in_map_iff in Hin as (u & Eu & Hu).
  apply filter_In in Hu. rewrite <- Eu. apply in_map. tauto.
Qed.

Lemma Forall2_map_right {A B : Type} (R : A -> B -> Prop) (f : A -> B)
      (l : list A) :
  (forall x, In x l -> R x (f x)) -> Forall2 R l (map f l).
Proof.
  induction l as [|x l IH]; intros H; simpl; constructor.
  - apply H. now left.
  - apply IH. intros y Hy. apply H. now right.
Qed.

Lemma findIndex_first {A : Type} (p : A -> bool) (l : list A) :
  existsb p l = true ->
  exists k x, findIndex p l = Z.of_nat k
              /\ nth_error l k = Some x /\ p x = true.
Proof.
  induction l as [|a l IH]; simpl; [discriminate|].
  destruct (p a) eqn:E.
  - intros _. exists 0, a. repeat split; assumption.
  - simpl. intros H. destruct (IH H) as (k & x & Hk & Hn & Hp).
    exists (S k), x. rewrite Hk.
    destruct (Z.eqb_spec (Z.of_nat k) (-1)); [lia|].
    repeat split; [lia | assumption | assumption].
Qed.

Lemma status_eqb_eq (a b : AnalysisStatus) :
  status_eqb a b = true <-> a = b.
Proof. destruct a, b; simpl; split; intros H; congruence. Qed.

(** *** What [mark] keeps *)

Lemma mark_fields (r : OrderingResult) (t : Track) :
  same_but_mix t (mark r t).
Proof.
  unfold same_but_mix, mark.
  destruct (set_has _ _); [reflexivity|].
  destruct (set_has _ _); [reflexivity|].
  now destruct t.
Qed.

Lemma mark_id (r : OrderingResult) (t : Track) : id (mark r t) = id t.
Proof. rewrite (mark_fields r t). reflexivity. Qed.

Lemma mark_status (r : OrderingResult) (t : Track) :
  status (mark r t) = status t.
Proof. rewrite (mark_fields r t). reflexivity. Qed.

Lemma mark_engine (r : OrderingResult) (t : Track) :
  engine (mark r t) = engine t.
Proof. rewrite (mark_fields r t). reflexivity. Qed.

Lemma mark_mark (r : OrderingResult) (t : Track) :
  mark r (mark r t) = mark r t.
Proof.
  unfold mark at 1. rewrite !mark_id.
  unfold mark.
  destruct (set_has _ _); [reflexivity|].
  destruct (set_has _ _); reflexivity.
Qed.

Lemma clear_mark (r : OrderingResult) (t : Track) :
  with_mix none None (mark r t) = with_mix none None t.
Proof. rewrite (mark_fields r t). reflexivity. Qed.

Lemma filter_complete_mark (r : OrderingResult) (ts : list Track) :
  filter (fun t => status_eqb (status t) complete) (map (mark r) ts)
  = map (mark r) (filter (fun t => status_eqb (status t) complete) ts).
Proof.
  induction ts as [|t ts IH]; simpl; [reflexivity|].
  rewrite mark_status.
  destruct (status_eqb (status t) complete); simpl; now rewrite IH.
Qed.

Lemma engine_mark (r : OrderingResult) (ts : list Track) :
  map engine (map (mark r) ts) = map engine ts.
Proof.
  rewrite map_map. apply map_ext. intros t. apply mark_engine.
Qed.

(** *** The marks of one ordering *)

Section Marks.
Variable ts : list Track.
Hypothesis distinct : NoDup (map id ts).

#[local] Abbreviation pool := (completed ts).
#[local] Abbreviation result := (ordering_of ts).

Lemma completed_ids :
  map Types.id pool
  = map id (filter (fun t => status_eqb (status t) complete) ts).
Proof. unfold completed. rewrite map_map. reflexivity. Qed.

Lemma completed_distinct : NoDup (map Types.id pool).
Proof. rewrite completed_ids. now apply distinct_filter. Qed.

Lemma completed_In (u : Types.Track) :
  In u pool <-> exists t, In t ts /\ status t = complete /\ engine t = u.
Proof.
  unfold completed. rewrite in_map_iff. split.
  - intros (t & E & H). apply filter_In in H. destruct H as [H Hs].
    apply status_eqb_eq in Hs. now exists t.
  - intros (t & H & Hs & E). exists t. split; [assumption|].
    apply filter_In. split; [assumption | now apply status_eqb_eq].
Qed.

Lemma result_pool (u : Types.Track) :
  In u (orderedTracks result) \/ In u (orphanTracks result) <-> In u pool.
Proof.
  pose proof (ordered_orphans_perm pool completed_distinct) as P.
  fold (ordering_of ts) in P. rewrite <- in_app_iff. split; intros H.
  - exact (Permutation_in _ P H).
  - exact (Permutation_in _ (Permutation_sym P) H).
Qed.

Lemma result_disjoint (u : Types.Track) :
  In u (orderedTracks result) -> ~ In u (orphanTracks result).
Proof.
  pose proof (ordered_orphans_perm pool completed_distinct) as P.
  fold (ordering_of ts) in P.
  assert (Hnd : NoDup (orderedTracks result ++ orphanTracks result)).
  { apply (Permutation_NoDup (Permutation_sym P)).
    exact (NoDup_map_inv _ _ completed_distinct). }
  intros H1 H2. revert Hnd H1 H2.
  generalize (orderedTracks result) as l.
  induction l as [|a l IH]; simpl; [tauto|].
  intros Hnd [->|H1] H2; inversion Hnd as [|? ? Hn Hl]; subst.
  - apply Hn. apply in_or_app. now right.
  - now apply IH.
Qed.

(** An identifier of the result belongs to one complete track. *)
Lemma result_id (t : Track) (u : Types.Track) :
  In t ts -> In u pool -> Types.id u = id t ->
  status t = complete /\ u = engine t.
Proof.
  intros Ht Hu E. apply completed_In in Hu. destruct Hu as (v & Hv & Hs & <-).
  assert (v = t) by exact (NoDup_map_eq id ts v t distinct Hv Ht E).
  subst v. now split.
Qed.

Lemma mark_other (t : Track) :
  In t ts -> status t <> complete -> mark result t = t.
Proof.
  intros Ht Hs. unfold mark.
  destruct (set_has (map Types.id (orderedTracks result)) (id t)) eqn:E1.
  { apply set_has_In, in_map_iff in E1. destruct E1 as (u & E & Hu).
    exfalso. apply Hs.
    apply (result_id t u Ht); [|assumption].
    apply result_pool. now left. }
  destruct (set_has (map Types.id (orphanTracks result)) (id t)) eqn:E2;
    [|reflexivity].
  apply set_has_In, in_map_iff in E2. destruct E2 as (u & E & Hu).
  exfalso. apply Hs.
  apply (result_id t u Ht); [|assumption].
  apply result_pool. now right.
Qed.

Lemma mark_complete (t : Track) :
  In t ts -> status t = complete ->
  (exists k, nth_error (orderedTracks result) k = Some (engine t)
             /\ mark result t = with_mix mixed (Some (Z.of_nat k + 1)%Z) t)
  \/ (In (engine t) (orphanTracks result)
      /\ ~ In (engine t) (orderedTracks result)
      /\ mark result t = with_mix orphan None t).
Proof.
  intros Ht Hs. unfold mark.
  destruct (set_has (map Types.id (orderedTracks result)) (id t)) eqn:E1.
  - left.
    assert (Hex : existsb (fun u => String.eqb (Types.id u) (id t))
                          (orderedTracks result) = true).
    { apply set_has_In, in_map_iff in E1. destruct E1 as (u & E & Hu).
      apply existsb_exists. exists u. split; [assumption|].
      now apply String.eqb_eq. }
    destruct (findIndex_first _ _ Hex) as (k & u & Hk & Hn & Hp).
    apply String.eqb_eq in Hp.
    assert (Hu : In u pool).
    { apply result_pool. left. exact (nth_error_In _ _ Hn). }
    destruct (result_id t u Ht Hu Hp) as [_ ->].
    exists k. split; [assumption|]. now rewrite Hk.
  - right.
    assert (Hno : ~ In (engine t) (orderedTracks result)).
    { intros Hin.
      assert (set_has (map Types.id (orderedTracks result)) (id t) = true).
      { apply set_has_In.
        change (id t) with (Types.id (engine t)). now apply in_map. }
      congruence. }
    assert (Hor : In (engine t) (orphanTracks result)).
    { assert (Hp : In (engine t) pool) by (apply completed_In; now exists t).
      apply result_pool in Hp. tauto. }
    split; [assumption|]. split; [assumption|].
    replace (set_has (map Types.id (orphanTracks result)) (id t)) with true;
      [reflexivity|].
    symmetry. apply set_has_In.
    change (id t) with (Types.id (engine t)). now apply in_map.
Qed.

Lemma mark_marked (t : Track) : In t ts -> marked result t (mark result t).
Proof.
  intros Ht. split; [apply mark_fields|].
  destruct (status t) eqn:Hs;
    try (apply mark_other; [assumption | congruence]).
  destruct (mark_complete t Ht Hs) as [(k & Hk & ->)|(Ho & _ & ->)].
  - left. exists k. repeat split; assumption.
  - right. repeat split; assumption.
Qed.

Lemma ordered_distinct : NoDup (orderedTracks result).
Proof.
  destruct (ordered_fresh pool completed_distinct) as [_ H].
  exact (NoDup_map_inv _ _ H).
Qed.

Lemma ordered_analyzed (u : Types.Track) :
  In u (orderedTracks result) -> isTrackAnalyzed u = true.
Proof.
  intros H. destruct (ordered_fresh pool completed_distinct) as [Hi _].
  apply Hi, filter_In in H. tauto.
Qed.

(** Each place of the ordering is the mix order of one complete track. *)
Lemma mark_positions :
  (forall k u,
      nth_error (orderedTracks result) k = Some u ->
      exists t, In t ts /\ engine t = u /\ status t = complete
                /\ mark result t = with_mix mixed (Some (Z.of_nat k + 1)%Z) t)
  /\ (forall t1 t2,
         In t1 ts -> In t2 ts ->
         status t1 = complete -> status t2 = complete ->
         mixStatus (mark result t1) = mixed ->
         mixStatus (mark result t2) = mixed ->
         mixOrder (mark result t1) = mixOrder (mark result t2) ->
         t1 = t2).
Proof.
  split.
  - intros k u Hk.
    assert (Hu : In u pool).
    { apply result_pool. left. exact (nth_error_In _ _ Hk). }
    apply completed_In in Hu. destruct Hu as (t & Ht & Hs & <-).
    exists t. repeat split; try assumption.
    destruct (mark_complete t Ht Hs) as [(k' & Hk' & ->)|(_ & Hno & _)].
    + assert (k' = k).
      { apply (proj1 (NoDup_nth_error _) ordered_distinct).
        - apply nth_error_Some. congruence.
        - congruence. }
      now subst.
    + exfalso. apply Hno. exact (nth_error_In _ _ Hk).
  - intros t1 t2 H1 H2 S1 S2 M1 M2 E.
    destruct (mark_complete t1 H1 S1) as [(k1 & Hk1 & R1)|(_ & _ & R1)];
      rewrite R1 in *; [|discriminate M1].
    destruct (mark_complete t2 H2 S2) as [(k2 & Hk2 & R2)|(_ & _ & R2)];
      rewrite R2 in *; [|discriminate M2].
    simpl in E. assert (k1 = k2) by (injection E; lia). subst k2.
    apply (NoDup_map_eq id ts t1 t2 distinct H1 H2).
    assert (Ee : engine t1 = engine t2) by congruence.
    exact (f_equal Types.id Ee).
Qed.

End Marks.

(** *** generate and clear *)

Lemma generate_enough (app : App) :
  2 <= count complete (tracks app) ->
  generate app
  = {| tracks := map (mark (ordering_of (tracks app))) (tracks app);
       ordering := Some (ordering_of (tracks app)) |}.
Proof.
  unfold count, generate. intros H.
  destruct (Nat.ltb_spec
              (length (filter (fun t => status_eqb (status t) complete)
                              (tracks app))) 2); [lia | reflexivity].
Qed.

(** X19: With distinct identifiers and at least two complete tracks,
    [generate] keeps an ordering of the complete tracks and changes the
    tracks one by one, in place: a complete track becomes mixed, with the
    1-based position of its place in the ordering as its mix order, or an
    orphan with no mix order; a track that is not complete stays as it
    was, whatever its mix status. *)
Theorem generate_marks (app : App) :
  NoDup (map id (tracks app)) ->
  2 <= count complete (tracks app) ->
  ordering (generate app) = Some (ordering_of (tracks app))
  /\ Forall2 (marked (ordering_of (tracks app)))
             (tracks app) (tracks (generate app)).
Proof.
  intros Hnd H2. rewrite (generate_enough app H2).
  split; [reflexivity|].
  cbn [tracks]. apply Forall2_map_right.
  intros t Ht. now apply mark_marked.
Qed.

(** X20: With distinct identifiers and at least two complete tracks, every
    place of the ordering is the mix order of a complete track of the
    store, and no two complete mixed tracks have the same mix order. *)
Theorem generate_positions (app : App) :
  NoDup (map id (tracks app)) ->
  2 <= count complete (tracks app) ->
  forall result, ordering (generate app) = Some result ->
  (forall k u,
      nth_error (orderedTracks result) k = Some u ->
      exists t', In t' (tracks (generate app))
                 /\ engine t' = u /\ status t' = complete
                 /\ mixStatus t' = mixed
                 /\ mixOrder t' = Some (Z.of_nat k + 1)%Z)
  /\ (forall t1 t2,
         In t1 (tracks (generate app)) -> In t2 (tracks (generate app)) ->
         status t1 = complete -> status t2 = complete ->
         mixStatus t1 = mixed -> mixStatus t2 = mixed ->
         mixOrder t1 = mixOrder t2 -> t1 = t2).
Proof.
  intros Hnd H2 result. rewrite (generate_enough app H2).
  cbn [tracks ordering]. intros E. injection E as <-.
  destruct (mark_positions (tracks app) Hnd) as [P1 P2]. split.
  - intros k u Hk. destruct (P1 k u Hk) as (t & Ht & He & Hs & Hm).
    eexists. split; [apply in_map, Ht|]. rewrite Hm.
    repeat split; assumption.
  - intros t1 t2 H1 H2'. apply in_map_iff in H1, H2'.
    destruct H1 as (u1 & <- & H1), H2' as (u2 & <- & H2').
    rewrite !mark_status. intros S1 S2 M1 M2 E.
    now rewrite (P2 u1 u2 H1 H2' S1 S2 M1 M2 E).
Qed.

(** X21: A complete track without a tempo or without a Camelot key, such as
    one whose detected key is not in the table, becomes an orphan. *)
Theorem generate_unanalysed_orphan (app : App) (t : Track) :
  NoDup (map id (tracks app)) ->
  2 <= count complete (tracks app) ->
  In t (tracks app) -> status t = complete ->
  bpm t = None \/ camelotKey t = None ->
  In (with_mix orphan None t) (tracks (generate app)).
Proof.
  intros Hnd H2 Ht Hs Hn. rewrite (generate_enough app H2).
  cbn [tracks].
  destruct (mark_complete (tracks app) Hnd t Ht Hs)
    as [(k & Hk & _)|(_ & _ & <-)]; [|now apply in_map].
  exfalso. apply nth_error_In in Hk.
  apply (ordered_analyzed (tracks app) Hnd) in Hk.
  unfold isTrackAnalyzed, engine in Hk. simpl in Hk.
  destruct Hn as [E|E]; rewrite E in Hk; simpl in Hk;
    [|rewrite andb_false_r in Hk]; discriminate Hk.
Qed.

(** X22: Clearing after an ordering is clearing: [generate] changes nothing
    but mix status and mix order.  On tracks with no mix status,
    [generate] and then [clear] gives the tracks back. *)
Theorem clear_generate (app : App) :
  clear (generate app) = clear app
  /\ ((forall t, In t (tracks app)
                 -> mixStatus t = none /\ mixOrder t = None)
      -> tracks (clear (generate app)) = tracks app).
Proof.
  assert (E : clear (generate app) = clear app).
  { unfold clear, generate.
    destruct (_ <? 2); cbn [tracks]; [reflexivity|].
    f_equal. unfold clearMixStatus, updateMixStatus.
    rewrite map_map. apply map_ext. intros t. apply clear_mark. }
  split; [exact E|].
  intros H. rewrite E. unfold clear. cbn [tracks]. unfold clearMixStatus.
  rewrite <- (map_id (tracks app)) at 2. apply map_ext_in.
  intros t Ht. destruct (H t Ht) as [H1 H2].
  destruct t. simpl in *. now subst.
Qed.

Lemma generate_again (app : App) :
  generate (generate app) = generate app.
Proof.
  unfold generate at 2.
  destruct (length (filter (fun t => status_eqb (status t) complete)
                           (tracks app)) <? 2) eqn:E.
  - unfold generate. cbn [tracks]. now rewrite E.
  - unfold generate. cbn [tracks]. unfold updateMixStatus.
    rewrite filter_complete_mark, length_map, E, engine_mark.
    f_equal. rewrite map_map. apply map_ext. intros t. apply mark_mark.
Qed.

(** X23: On tracks with distinct ids, [generate] a second time leaves
    every track as the first time left it: the engine reads neither the
    mix status nor the mix order, so that it orders the complete tracks
    as before. *)
Theorem generate_idempotent (app : App) :
  NoDup (map id (tracks app)) ->
  tracks (generate (generate app)) = tracks (generate app)
  /\ ordering_of (tracks (generate app)) = ordering_of (tracks app).
Proof.
  intros _. split; [now rewrite generate_again|].
  unfold ordering_of, completed, generate.
  destruct (length (filter (fun t => status_eqb (status t) complete)
                           (tracks app)) <? 2); cbn [tracks];
    [reflexivity|].
  unfold updateMixStatus. now rewrite filter_complete_mark, engine_mark.
Qed.

(** *** analyzeAll and mix *)

Section Analysis.
Variable analyzeTrack : Track -> Analyzer.Settled.

Lemma finish_id (t : Track) : id (finish analyzeTrack t) = id t.
Proof. unfold finish. now destruct (analyzeTrack t). Qed.

Lemma settled_id (t : Track) : id (settled analyzeTrack t) = id t.
Proof.
  unfold settled. destruct (status t); try reflexivity. apply finish_id.
Qed.

(** One turn of the loop changes the track it is about, and no other. *)
Lemma analyze_step_map (cur : list Track) (p : Track) :
  NoDup (map id cur) -> In p cur ->
  analyze_step analyzeTrack cur p
  = map (fun t => if String.eqb (id t) (id p)
                  then finish analyzeTrack t else t) cur.
Proof.
  intros Hnd Hp. unfold analyze_step, finish.
  destruct (analyzeTrack p) as [r|e] eqn:E;
    unfold updateTrackAnalysis, updateTrackStatus;
    rewrite map_map; apply map_ext_in; intros t Ht;
    (destruct (String.eqb_spec (id t) (id p)) as [Ei|Ei];
     [assert (t = p) by exact (NoDup_map_eq id cur t p Hnd Ht Hp Ei);
      subst t; cbn [id with_status]; rewrite String.eqb_refl, E;
      reflexivity
     |apply String.eqb_neq in Ei; now rewrite Ei]).
Qed.

Lemma analyze_fold (ps cur : list Track) :
  NoDup (map id cur) -> NoDup (map id ps) -> incl ps cur ->
  fold_left (analyze_step analyzeTrack) ps cur
  = map (fun t => if set_has (map id ps) (id t)
                  then finish analyzeTrack t else t) cur.
Proof.
  revert cur. induction ps as [|p ps IH]; intros cur Hc Hp Hi.
  - simpl. symmetry. apply map_id.
  - cbn [fold_left].
    rewrite (analyze_step_map cur p Hc (Hi p (or_introl eq_refl))).
    inversion Hp as [|? ? Hn Hps]; subst.
    set (g := fun t => if String.eqb (id t) (id p)
                       then finish analyzeTrack t else t).
    assert (Hg : forall t, id (g t) = id t).
    { intros t. unfold g. destruct (String.eqb (id t) (id p));
        [apply finish_id | reflexivity]. }
    rewrite IH.
    + rewrite map_map. apply map_ext_in. intros t Ht.
      rewrite Hg. cbn [map]. unfold set_has at 2. cbn [existsb].
      fold (set_has (map id ps) (id t)). unfold g.
      destruct (String.eqb_spec (id t) (id p)) as [Ei|Ei]; cbn [orb].
      * replace (set_has (map id ps) (id t)) with false; [reflexivity|].
        symmetry. apply not_true_is_false. intros H.
        apply set_has_In in H. rewrite Ei in H. contradiction.
      * reflexivity.
    + rewrite map_map. erewrite map_ext; [exact Hc | exact Hg].
    + assumption.
    + intros q Hq. apply in_map_iff. exists q. split.
      * unfold g. destruct (String.eqb_spec (id q) (id p)) as [Ei|Ei];
          [|reflexivity].
        exfalso. apply Hn. rewrite <- Ei. now apply in_map.
      * apply Hi. now right.
Qed.

Lemma analyzeAll_map (ts : list Track) :
  NoDup (map id ts) ->
  analyzeAll analyzeTrack ts = map (settled analyzeTrack) ts.
Proof.
  intros Hnd. unfold analyzeAll.
  rewrite analyze_fold.
  - apply map_ext_in. intros t Ht. unfold settled.
    destruct (set_has _ (id t)) eqn:E.
    + apply set_has_In, in_map_iff in E. destruct E as (q & Eq & Hq).
      apply filter_In in Hq. destruct Hq as [Hq Hs].
      assert (q = t) by exact (NoDup_map_eq id ts q t Hnd Hq Ht Eq).
      subst q. apply status_eqb_eq in Hs. now rewrite Hs.
    + destruct (status t) eqn:Hs; try reflexivity.
      exfalso. apply not_true_iff_false in E. apply E.
      apply set_has_In, in_map, filter_In. split; [assumption|].
      now rewrite Hs.
  - assumption.
  - now apply distinct_filter.
  - intros q Hq. apply filter_In in Hq. tauto.
Qed.

Lemma settled_status (t : Track) :
  status (settled analyzeTrack t) <> pending
  /\ (status (settled analyzeTrack t) = analyzing <-> status t = analyzing).
Proof.
  unfold settled, finish.
  destruct (status t) eqn:Hs; try (rewrite Hs; split; [|split]; congruence).
  destruct (analyzeTrack t); cbn; split; [|split| |split]; congruence.
Qed.

(** X24: With distinct identifiers, [analyzeAll] changes the pending tracks one
    by one, in place, each as its own analysis settles: complete with the
    results of the analysis, or in error with the message of the failure.
    No other track changes, no track is pending afterwards, and no track
    is newly left analyzing. *)
Theorem analyzeAll_settles (ts : list Track) :
  NoDup (map id ts) ->
  analyzeAll analyzeTrack ts = map (settled analyzeTrack) ts
  /\ count pending (analyzeAll analyzeTrack ts) = 0
  /\ count analyzing (analyzeAll analyzeTrack ts) = count analyzing ts.
Proof.
  intros Hnd. rewrite (analyzeAll_map ts Hnd).
  split; [reflexivity|]. clear Hnd. unfold count.
  induction ts as [|t ts [IH1 IH2]]; [split; reflexivity|].
  cbn [map filter].
  destruct (settled_status t) as [Hp Ha].
  split.
  - destruct (status_eqb (status (settled analyzeTrack t)) pending) eqn:E;
      [apply status_eqb_eq in E; contradiction | exact IH1].
  - destruct (status_eqb (status (settled analyzeTrack t)) analyzing) eqn:E1,
      (status_eqb (status t) analyzing) eqn:E2; cbn [length];
      try (now rewrite IH2).
    + apply status_eqb_eq, Ha, status_eqb_eq in E1. congruence.
    + apply status_eqb_eq, Ha, status_eqb_eq in E2. congruence.
Qed.

(** X25: With distinct identifiers, [mix] keeps the tracks and their order,
    leaves no track pending and, when at least two tracks are complete
    afterwards, leaves every complete track mixed or orphan. *)
Theorem mix_outcome (ts : list Track) :
  NoDup (map id ts) ->
  map id (mix analyzeTrack ts) = map id ts
  /\ (forall t, In t (mix analyzeTrack ts) -> status t <> pending)
  /\ (2 <= count complete (mix analyzeTrack ts) ->
      forall t, In t (mix analyzeTrack ts) -> status t = complete ->
                mixStatus t = mixed \/ mixStatus t = orphan).
Proof.
  intros Hnd. unfold mix. rewrite (analyzeAll_map ts Hnd).
  set (cur := map (settled analyzeTrack) ts).
  assert (Hids : map id cur = map id ts).
  { unfold cur. rewrite map_map. apply map_ext. apply settled_id. }
  assert (Hcur : NoDup (map id cur)) by now rewrite Hids.
  assert (Hpend : forall t, In t cur -> status t <> pending).
  { intros t Ht. apply in_map_iff in Ht. destruct Ht as (u & <- & _).
    apply settled_status. }
  fold (completed cur). fold (ordering_of cur).
  destruct (Nat.leb_spec 2
              (length (filter (fun t => status_eqb (status t) complete) cur)))
    as [H2|H2].
  - unfold updateMixStatus. split; [|split].
    + rewrite map_map. rewrite <- Hids. apply map_ext. apply mark_id.
    + intros t Ht. apply in_map_iff in Ht. destruct Ht as (u & <- & Hu).
      rewrite mark_status. now apply Hpend.
    + intros _ t Ht Hs. apply in_map_iff in Ht.
      destruct Ht as (u & <- & Hu). rewrite mark_status in Hs.
      destruct (mark_complete cur Hcur u Hu Hs)
        as [(k & _ & ->)|(_ & _ & ->)]; [now left | now right].
  - split; [exact Hids|]. split; [exact Hpend|].
    unfold count. intros H. lia.
Qed.

End Analysis.

(** *** The derived stores *)

Lemma count_le (s : AnalysisStatus) (ts : list Track) :
  count s ts <= length ts.
Proof. apply filter_length_le. Qed.

(** X26: The four counts of [trackStats] add up to the total; [allAnalyzed]
    holds exactly when there is a track and all are complete; and
    [isAnalyzing] exactly when the count of analyzing tracks is not zero. *)
Theorem trackStats_counts (ts : list Track) :
  Stats.pending (trackStats ts) + Stats.analyzing (trackStats ts)
  + Stats.complete (trackStats ts) + Stats.error (trackStats ts)
  = Stats.total (trackStats ts)
  /\ (allAnalyzed ts = true
      <-> 0 < Stats.total (trackStats ts)
          /\ Stats.complete (trackStats ts) = Stats.total (trackStats ts))
  /\ (isAnalyzing ts = true <-> 0 < Stats.analyzing (trackStats ts)).
Proof.
  unfold trackStats, allAnalyzed, isAnalyzing.
  cbn [Stats.pending Stats.analyzing Stats.complete Stats.error Stats.total].
  split; [|split].
  - unfold count. induction ts as [|t ts IH]; [reflexivity|].
    cbn [filter length]. destruct (status t); cbn; lia.
  - rewrite andb_true_iff, Nat.ltb_lt.
    assert (H : forallb (fun t => status_eqb (status t) complete) ts = true
                <-> count complete ts = length ts).
    { unfold count. induction ts as [|t ts IH]; [simpl; tauto|].
      cbn [forallb filter length].
      pose proof (count_le complete ts) as Hle. unfold count in Hle.
      destruct (status_eqb (status t) complete); cbn [andb length].
      - rewrite IH. split; lia.
      - split; [discriminate | lia]. }
    rewrite H. tauto.
  - unfold count.
    induction ts as [|t ts IH]; [simpl; split; [discriminate|lia]|].
    cbn [existsb filter].
    destruct (status_eqb (status t) analyzing); cbn [orb length];
      [split; [lia | reflexivity] | exact IH].
Qed.

(** *** Instances on the sample store *)

Lemma store_distinct : NoDup (map id StoreSamples.store).
Proof.
  repeat constructor; simpl; intuition discriminate.
Defined.

Lemma generate_marks_witness :
  ordering (generate StoreSamples.app)
  = Some (ordering_of (tracks StoreSamples.app))
  /\ Forall2 (marked (ordering_of (tracks StoreSamples.app)))
             (tracks StoreSamples.app)
             (tracks (generate StoreSamples.app)).
Proof.
  apply (generate_marks StoreSamples.app).
  - exact store_distinct.
  - vm_compute. lia.
Defined.

Lemma generate_positions_witness :
  NoDup (map id StoreSamples.store)
  /\ (forall k u,
         nth_error (orderedTracks (ordering_of StoreSamples.store)) k
         = Some u ->
         exists t', In t' (tracks (generate StoreSamples.app))
                    /\ engine t' = u /\ status t' = complete
                    /\ mixStatus t' = mixed
                    /\ mixOrder t' = Some (Z.of_nat k + 1)%Z).
Proof.
  split; [exact store_distinct|].
  apply (generate_positions StoreSamples.app).
  - exact store_distinct.
  - vm_compute. lia.
  - reflexivity.
Defined.

Lemma generate_unanalysed_orphan_witness :
  In (with_mix orphan None
        (StoreSamples.analysed "c" StoreSamples.bpm126 None))
     (tracks (generate StoreSamples.app)).
Proof.
  apply (generate_unanalysed_orphan StoreSamples.app).
  - exact store_distinct.
  - vm_compute. lia.
  - simpl. tauto.
  - reflexivity.
  - now right.
Defined.

Lemma generate_idempotent_witness :
  NoDup (map id StoreSamples.store)
  /\ tracks (generate (generate StoreSamples.app))
     = tracks (generate StoreSamples.app).
Proof.
  split; [exact store_distinct|].
  exact (proj1 (generate_idempotent StoreSamples.app store_distinct)).
Defined.

Lemma analyzeAll_settles_witness :
  analyzeAll StoreSamples.analyzeTrack StoreSamples.store
  = map (settled StoreSamples.analyzeTrack) StoreSamples.store.
Proof.
  apply (analyzeAll_settles StoreSamples.analyzeTrack StoreSamples.store).
  exact store_distinct.
Defined.

Lemma mix_outcome_witness :
  map id (mix StoreSamples.analyzeTrack StoreSamples.store)
  = map id StoreSamples.store.
Proof.
  apply (mix_outcome StoreSamples.analyzeTrack StoreSamples.store).
  exact store_distinct.
Defined.

End StoreFacts.

(* ================================================================== *)
(** ** Instances on the sample batch *)
(* ================================================================== *)

Section MoreInstances.
Import Camelot Ordering Spec Samples.
Local Open Scope nat_scope.
Local Open Scope list_scope.

Lemma trio_distinct : NoDup (map id [track1; track2; track3]).
Proof.
  simpl. repeat constructor; simpl; intuition discriminate.
Defined.

Lemma pair_distinct : NoDup (map id [track1; track2]).
Proof.
  simpl. repeat constructor; simpl; intuition discriminate.
Defined.

Lemma findOptimalOrder_transitions_sound_witness :
  In (createTransition track1 track2) (transitions (findOptimalOrder batch))
  /\ quality (createTransition track1 track2) <> poor.
Proof.
  assert (H : In (createTransition track1 track2)
                 (transitions (findOptimalOrder batch)))
    by (vm_compute; left; reflexivity).
  split; [exact H|].
  apply (findOptimalOrder_transitions_sound batch _ H).
Defined.

Lemma findOptimalOrder_permutation_witness :
  Permutation (orderedTracks (findOptimalOrder batch)
               ++ orphanTracks (findOptimalOrder batch)) batch.
Proof.
  apply (findOptimalOrder_permutation batch). exact batch_distinct.
Defined.

Lemma findOptimalOrder_dead_end_witness :
  In track4 (orphanTracks (findOptimalOrder batch))
  /\ isTransitionCompatible
       (last (orderedTracks (findOptimalOrder batch)) track1) track4 = false.
Proof.
  assert (H : In track4 (orphanTracks (findOptimalOrder batch)))
    by (vm_compute; left; reflexivity).
  split; [exact H|].
  apply (findOptimalOrder_dead_end batch track4 batch_distinct H).
Defined.

Lemma findOptimalOrder_all_compatible_witness :
  isComplete (findOptimalOrder [track1; track2]) = true
  /\ orphanTracks (findOptimalOrder [track1; track2]) = []
  /\ Permutation (orderedTracks (findOptimalOrder [track1; track2]))
                 [track1; track2].
Proof.
  apply (findOptimalOrder_all_compatible [track1; track2]).
  - exact pair_distinct.
  - intros x y [<-|[<-|[]]] [<-|[<-|[]]]; vm_compute; reflexivity.
Defined.

Lemma findOptimalOrder_within_group_witness :
  NoDup (map id batch)
  /\ (orderedTracks (findOptimalOrder batch) <> [] ->
      exists g, In g (findCompatibleGroups batch)
                /\ incl (orderedTracks (findOptimalOrder batch)) g)
  /\ (forall first rest,
         findCompatibleGroups batch = first :: rest ->
         length (orderedTracks (findOptimalOrder batch)) <= length first).
Proof.
  split; [exact batch_distinct|].
  apply (findOptimalOrder_within_group batch). exact batch_distinct.
Defined.

Lemma findOptimalOrder_complete_single_group_witness :
  ([track1; track2; track3] = []
   /\ findCompatibleGroups [track1; track2; track3] = [])
  \/ exists g, findCompatibleGroups [track1; track2; track3] = [g]
               /\ Permutation g [track1; track2; track3].
Proof.
  apply (findOptimalOrder_complete_single_group [track1; track2; track3]).
  - exact trio_distinct.
  - vm_compute. reflexivity.
Defined.

End MoreInstances.
